(** * rest-v2-mcp: the rule evaluation engine and the URL path synthesizer

    A shallow embedding of
      - internal/rules (the [Rule] interface, the three structural rules and
        the JSON-defined rule with its condition interpreter),
      - internal/validator (the [Validator] engine and the [URLPathValidator]),
        and
      - internal/server (the request handlers),
    followed by the properties the specification states about them and by
    further properties of the code.

    Modelling conventions.
      - A Go [string] is a [string] of bytes.
      - A Go [map[string]interface{}] is an association list
        [list (string * value)].  The order of the entries is the order in
        which a [range] statement visits them: Go leaves that order
        unspecified, so two lists that are permutations of each other stand
        for the same map visited in two different orders.  A lookup [m[k]]
        returns the first entry for [k]; parsed maps hold each key once.
      - A method returning [(T, error)] returns [go T]: [Ok] for a nil error,
        [Err] for a non-nil one; [Panic] is a run-time panic.
      - The [regexp] package and the YAML loader are outside the repository;
        they are taken as interfaces ([Regexp], [SpecLoader]). *)

From Stdlib Require Import Bool Arith Lia List Ascii String ZArith Permutation.
From Stdlib Require Import DecimalString DecimalNat.
Import ListNotations.
Open Scope string_scope.

Set Implicit Arguments.

(** ** The part of Go's [strings] package the code uses *)

Module strings.

(** [strings.HasPrefix(s, prefix)] *)
Definition HasPrefix (s prefix : string) : bool := String.prefix prefix s.

(** [strings.HasSuffix(s, suffix)]:
    [len(s) >= len(suffix) && s[len(s)-len(suffix):] == suffix] *)
Definition HasSuffix (s suffix : string) : bool :=
  Nat.leb (String.length suffix) (String.length s)
  && (substring (String.length s - String.length suffix)
                (String.length suffix) s =? suffix).

(** [strings.Contains(s, substr)]: [substr] starts at some index of [s]. *)
Fixpoint Contains (s substr : string) {struct s} : bool :=
  HasPrefix s substr
  || match s with
     | EmptyString => false
     | String _ s' => Contains s' substr
     end.

(** [strings.Split(s, sep)] for a one-byte separator, which is what every
    call site passes ([strings.Split(path, "/")]).  The result is never
    empty: [Split("", "/")] is [[""]]. *)
Fixpoint Split (s : string) (sep : ascii) : list string :=
  match s with
  | EmptyString => [EmptyString]
  | String a s' =>
      if Ascii.eqb a sep then EmptyString :: Split s' sep
      else match Split s' sep with
           | seg :: rest => String a seg :: rest
           | [] => [String a EmptyString]
           end
  end.

Definition is_upper (a : ascii) : bool :=
  Nat.leb 65 (nat_of_ascii a) && Nat.leb (nat_of_ascii a) 90.

Definition is_lower (a : ascii) : bool :=
  Nat.leb 97 (nat_of_ascii a) && Nat.leb (nat_of_ascii a) 122.

Definition lower_byte (a : ascii) : ascii :=
  if is_upper a then ascii_of_nat (nat_of_ascii a + 32) else a.

Definition upper_byte (a : ascii) : ascii :=
  if is_lower a then ascii_of_nat (nat_of_ascii a - 32) else a.

Fixpoint map_bytes (f : ascii -> ascii) (s : string) : string :=
  match s with
  | EmptyString => EmptyString
  | String a s' => String (f a) (map_bytes f s')
  end.

(** [strings.ToLower] and [strings.ToUpper] on the ASCII letters.  Go also
    maps letters outside ASCII; those are left alone here, so the two
    functions are Go's on strings of ASCII bytes.  [ToLower] maps no letter
    outside ASCII to one of g e t p o s u a c h d l, so comparing its result
    with an HTTP method name is not affected; the key a method_check
    condition looks up is Go's where the method is written in ASCII. *)
Definition ToLower : string -> string := map_bytes lower_byte.
Definition ToUpper : string -> string := map_bytes upper_byte.

End strings.

(** ** Dynamically typed values: [interface{}] as the YAML decoder fills it *)

#[warnings="-register-all"]
Inductive value : Type :=
| VNull
| VBool (b : bool)
| VInt (z : Z)
| VStr (s : string)
| VList (l : list value)
| VMap (m : list (string * value)).

(** [map[string]interface{}] *)
Definition gomap : Type := list (string * value).

(** [m[k]] with the comma-ok form: the first entry for [k]. *)
Fixpoint lookup {A : Type} (k : string) (m : list (string * A)) : option A :=
  match m with
  | [] => None
  | (k', v) :: m' => if String.eqb k k' then Some v else lookup k m'
  end.

(** [m[k] = v]: overwrite the entry for [k], or add one. *)
Fixpoint assign {A : Type} (k : string) (v : A) (m : list (string * A))
  : list (string * A) :=
  match m with
  | [] => [(k, v)]
  | (k', v') :: m' =>
      if String.eqb k k' then (k', v) :: m' else (k', v') :: assign k v m'
  end.

(** [m[k].(map[string]interface{})] with the comma-ok form.  Indexing a
    missing key gives the nil interface, on which the assertion fails. *)
Definition as_map (v : option value) : option gomap :=
  match v with
  | Some (VMap m) => Some m
  | _ => None
  end.

(** [m[k].(string)] with the comma-ok form. *)
Definition as_string (v : option value) : option string :=
  match v with
  | Some (VStr s) => Some s
  | _ => None
  end.

(** [_, ok := m[k]] *)
Definition has_key {A : Type} (k : string) (m : list (string * A)) : bool :=
  match lookup k m with
  | Some _ => true
  | None => false
  end.

(** ** Issues, results and the outcome of a call *)

(** An issue is a [map[string]interface{}] holding a subset of the keys
    path, method, segment, schema, field, and always message. *)
Record Issue : Type := mkIssue {
  issue_path : option string;
  issue_method : option string;
  issue_segment : option string;
  issue_schema : option string;
  issue_field : option string;
  issue_message : string
}.

(** The [map[string]interface{}] a rule returns: status, and message or
    issues when the code sets them. *)
Record Result : Type := mkResult {
  status : string;
  message : option string;
  issues : option (list Issue)
}.

Inductive go (A : Type) : Type :=
| Ok (a : A)
| Err (e : string)
| Panic (msg : string).

Arguments Ok {A} a.
Arguments Err {A} e.
Arguments Panic {A} msg.

Definition bind {A B : Type} (c : go A) (k : A -> go B) : go B :=
  match c with
  | Ok a => k a
  | Err e => Err e
  | Panic msg => Panic msg
  end.

Notation "x <- c ;; k" := (bind c (fun x => k))
  (at level 61, c at next level, right associativity).

Definition error_result (msg : string) : Result :=
  {| status := "error"; message := Some msg; issues := None |}.

(** The tail shared by every [Apply]:
    [if len(issues) > 0 { failed, issues } else { passed }] *)
Definition result_of_issues (found : list Issue) : Result :=
  match found with
  | [] => {| status := "passed"; message := None; issues := None |}
  | _ :: _ => {| status := "failed"; message := None; issues := Some found |}
  end.

(** [type Rule interface { Apply; Name; Description }] *)
Record Rule : Type := mkRule {
  Apply : option gomap -> go Result;
  Name : string;
  Description : string
}.

(** ** The structural rules (internal/rules) *)

Definition path_method_issue (path method msg : string) : Issue :=
  {| issue_path := Some path; issue_method := Some method;
     issue_segment := None; issue_schema := None; issue_field := None;
     issue_message := msg |}.

Definition path_issue (path msg : string) : Issue :=
  {| issue_path := Some path; issue_method := None;
     issue_segment := None; issue_schema := None; issue_field := None;
     issue_message := msg |}.

Module SolaceRestRules.

(** [strings.Contains(path, "/{") && strings.HasSuffix(path, "}")] *)
Definition endsWithID (path : string) : bool :=
  strings.Contains path "/{" && strings.HasSuffix path "}".

Definition checkMethodPathConsistency
    (path method : string) (methodDef : gomap) : option Issue :=
  let method := strings.ToLower method in
  if method =? "get" then None
  else if method =? "post" then
    if endsWithID path then
      Some (path_method_issue path method
        "POST should be used for collection paths, not for specific resources")
    else None
  else if (method =? "put") || (method =? "patch") || (method =? "delete") then
    if negb (endsWithID path) then
      Some (path_method_issue path method
        (strings.ToUpper method
           ++ " should be used for specific resources, not for collections"))
    else None
  else None.

(** The body of [for method, methodObj := range pathItem]. *)
Definition method_issues (path : string) (entry : string * value) : list Issue :=
  let (method, methodObj) := entry in
  if (method =? "parameters") || (method =? "summary") || (method =? "description")
  then []
  else match methodObj with
       | VMap methodDef =>
           match checkMethodPathConsistency path method methodDef with
           | Some issue => [issue]
           | None => []
           end
       | _ => []
       end.

(** The body of [for path, pathObj := range paths]. *)
Definition path_issues (entry : string * value) : list Issue :=
  let (path, pathObj) := entry in
  match pathObj with
  | VMap pathItem => flat_map (method_issues path) pathItem
  | _ => []
  end.

Definition Apply (spec : option gomap) : go Result :=
  match spec with
  | None => Ok (error_result "invalid API spec")
  | Some spec =>
      match as_map (lookup "paths" spec) with
      | None => Ok (error_result "API spec does not have paths")
      | Some paths => Ok (result_of_issues (flat_map path_issues paths))
      end
  end.

Definition Name : string := "solace_rest_rules".
Definition Description : string :=
  "Validates that the API follows Solace REST API conventions".

End SolaceRestRules.

Definition NewSolaceRestRules : Rule :=
  mkRule SolaceRestRules.Apply SolaceRestRules.Name SolaceRestRules.Description.

Module SolaceSingularUserResourcesRule.

Definition path_issues (entry : string * value) : list Issue :=
  let (path, _) := entry in
  if strings.Contains path "/users/" && negb (strings.Contains path "/me/")
  then [path_issue path
          "User-specific resources should use /me/ instead of /users/{id}"]
  else [].

Definition Apply (spec : option gomap) : go Result :=
  match spec with
  | None => Ok (error_result "invalid API spec")
  | Some spec =>
      match as_map (lookup "paths" spec) with
      | None => Ok (error_result "API spec does not have paths")
      | Some paths => Ok (result_of_issues (flat_map path_issues paths))
      end
  end.

Definition Name : string := "solace_singular_user_resources".
Definition Description : string :=
  "Validates that user-specific resources use /me/ instead of /users/{id}".

End SolaceSingularUserResourcesRule.

Definition NewSolaceSingularUserResourcesRule : Rule :=
  mkRule SolaceSingularUserResourcesRule.Apply
         SolaceSingularUserResourcesRule.Name
         SolaceSingularUserResourcesRule.Description.

Module SolaceCustomActionsRule.

Definition path_issues (entry : string * value) : list Issue :=
  let (path, pathObj) := entry in
  match pathObj with
  | VMap pathItem =>
      if strings.Contains path "/actions/" && negb (has_key "post" pathItem)
      then [path_issue path "Custom actions should use POST method"]
      else []
  | _ => []
  end.

Definition Apply (spec : option gomap) : go Result :=
  match spec with
  | None => Ok (error_result "invalid API spec")
  | Some spec =>
      match as_map (lookup "paths" spec) with
      | None => Ok (error_result "API spec does not have paths")
      | Some paths => Ok (result_of_issues (flat_map path_issues paths))
      end
  end.

Definition Name : string := "solace_custom_actions".
Definition Description : string :=
  "Validates that custom actions follow Solace conventions".

End SolaceCustomActionsRule.

Definition NewSolaceCustomActionsRule : Rule :=
  mkRule SolaceCustomActionsRule.Apply
         SolaceCustomActionsRule.Name
         SolaceCustomActionsRule.Description.

(** ** The JSON-defined rule and its condition interpreter (internal/rules) *)

(** What the code uses of Go's [regexp] package: [regexp.Compile] gives a
    compiled expression, here its [MatchString] method, or an error; and
    [quote], with which the package writes a pattern into the panic of
    [MustCompile]: the pattern between backquotes where
    [strconv.CanBackquote] allows it, [strconv.Quote] of it otherwise. *)
Class Regexp : Type := {
  Compile : string -> (string -> bool) + string;
  quote : string -> string
}.

(** [regexp.MustCompile]: panics where [Compile] returns an error, with
    [`regexp: Compile(` + quote(str) + `): ` + err.Error()]. *)
Definition MustCompile `{Regexp} (pattern : string) : go (string -> bool) :=
  match Compile pattern with
  | inl re => Ok re
  | inr e => Panic ("regexp: Compile(" ++ quote pattern ++ "): " ++ e)
  end.

Record Condition : Type := mkCondition {
  Type' : string;
  Pattern : string;
  Path : string;
  Method : string;
  Field : string;
  Format : string;
  Value : value;
  Message : string
}.

Record JSONRule : Type := mkJSONRule {
  RuleName : string;
  RuleDescription : string;
  Enabled : bool;
  Conditions : list Condition;
  FilePath : string
}.

(** [%d] of a non-negative [int] *)
Definition itoa (n : nat) : string :=
  DecimalString.NilEmpty.string_of_uint (Nat.to_uint n).

Definition field_issue (field msg : string) : Issue :=
  {| issue_path := None; issue_method := None; issue_segment := None;
     issue_schema := None; issue_field := Some field; issue_message := msg |}.

Definition segment_issue (path segment msg : string) : Issue :=
  {| issue_path := Some path; issue_method := None;
     issue_segment := Some segment; issue_schema := None;
     issue_field := None; issue_message := msg |}.

Definition schema_issue (schema field msg : string) : Issue :=
  {| issue_path := None; issue_method := None; issue_segment := None;
     issue_schema := Some schema; issue_field := Some field;
     issue_message := msg |}.

Module json_rule.

Section WithRegexp.
Context `{Regexp}.

(** The body of the loop of [validate] for condition [i]; [None] is the
    nil error. *)
Definition validate_condition (i : nat) (condition : Condition) : option string :=
  let at_i (msg : string) := Some ("condition " ++ itoa i ++ ": " ++ msg) in
  if Type' condition =? "" then at_i "type is required"
  else if Message condition =? "" then at_i "message is required"
  else if Type' condition =? "path_pattern" then
    if Pattern condition =? "" then at_i "pattern is required for path_pattern"
    else match Compile (Pattern condition) with
         | inr e => at_i ("invalid regex pattern: " ++ e)
         | inl _ => None
         end
  else if Type' condition =? "method_check" then
    if Path condition =? "" then at_i "path is required for method_check"
    else if Method condition =? "" then at_i "method is required for method_check"
    else None
  else if Type' condition =? "parameter_check" then
    if Path condition =? "" then at_i "path is required for parameter_check"
    else None
  else if Type' condition =? "resource_naming" then
    if Pattern condition =? "" then at_i "pattern is required for resource_naming"
    else match Compile (Pattern condition) with
         | inr e => at_i ("invalid regex pattern: " ++ e)
         | inl _ => None
         end
  else if Type' condition =? "schema_field" then
    if Field condition =? "" then at_i "field is required for schema_field"
    else None
  else at_i ("unknown type: " ++ Type' condition).

Fixpoint validate_conditions (i : nat) (conditions : list Condition)
  : option string :=
  match conditions with
  | [] => None
  | condition :: rest =>
      match validate_condition i condition with
      | Some e => Some e
      | None => validate_conditions (S i) rest
      end
  end.

(** [func (r *JSONRule) validate() error] *)
Definition validate (r : JSONRule) : option string :=
  if RuleName r =? "" then Some "rule name is required"
  else if RuleDescription r =? "" then Some "rule description is required"
  else match Conditions r with
       | [] => Some "at least one condition is required"
       | _ :: _ => validate_conditions 0 (Conditions r)
       end.

(** The inner loop of the resource_naming case: the first non-empty
    segment the pattern rejects, at which the loop breaks. *)
Fixpoint first_violation (re : string -> bool) (segments : list string)
  : option string :=
  match segments with
  | [] => None
  | segment :: rest =>
      if segment =? "" then first_violation re rest
      else if negb (re segment) then Some segment
      else first_violation re rest
  end.

(** The body of [for path := range paths] in the path_pattern case. *)
Definition pattern_issues (pattern : string -> bool) (condition : Condition)
    (entry : string * value) : list Issue :=
  let (path, _) := entry in
  if negb (pattern path) then [path_issue path (Message condition)] else [].

(** The body of [for path := range paths] in the resource_naming case. *)
Definition naming_issues (pattern : string -> bool) (condition : Condition)
    (entry : string * value) : list Issue :=
  let (path, _) := entry in
  match first_violation pattern (strings.Split path "/"%char) with
  | Some segment => [segment_issue path segment (Message condition)]
  | None => []
  end.

(** The head of the schema_field case: the mapping the schemas are read
    from, or [None] where the code appends the no-schema issue. *)
Definition locate_schemas (spec : gomap) : option gomap :=
  match as_map (lookup "components" spec) with
  | None => as_map (lookup "definitions" spec)
  | Some components => as_map (lookup "schemas" components)
  end.

(** [for schemaName, schemaObj := range schemas]: the issues appended and
    the final value of [fieldFound]. *)
Fixpoint scan_schemas (condition : Condition) (schemas : gomap)
  : list Issue * bool :=
  match schemas with
  | [] => ([], false)
  | (schemaName, schemaObj) :: rest =>
      match schemaObj with
      | VMap schema =>
          match as_map (lookup "properties" schema) with
          | None => scan_schemas condition rest
          | Some properties =>
              if has_key (Field condition) properties then
                if negb (Format condition =? "") then
                  match as_map (lookup (Field condition) properties) with
                  | None => scan_schemas condition rest
                  | Some fieldObj =>
                      match as_string (lookup "format" fieldObj) with
                      | Some format =>
                          if format =? Format condition then ([], true)
                          else ([schema_issue schemaName (Field condition)
                                   (Message condition ++ " (format should be "
                                      ++ Format condition ++ ")")], true)
                      | None =>
                          ([schema_issue schemaName (Field condition)
                              (Message condition ++ " (format should be "
                                 ++ Format condition ++ ")")], true)
                      end
                  end
                else ([], true)
              else scan_schemas condition rest
          end
      | _ => scan_schemas condition rest
      end
  end.

Definition schema_field_issues (spec : gomap) (condition : Condition)
  : list Issue :=
  match locate_schemas spec with
  | None => [field_issue (Field condition)
               "No schema definitions found in API spec"]
  | Some schemas =>
      let (found, fieldFound) := scan_schemas condition schemas in
      if fieldFound then found
      else (found ++ [field_issue (Field condition) (Message condition)])%list
  end.

(** One turn of [for _, condition := range r.Conditions]: the issues it
    appends. *)
Definition condition_issues (spec paths : gomap) (condition : Condition)
  : go (list Issue) :=
  if Type' condition =? "path_pattern" then
    pattern <- MustCompile (Pattern condition) ;;
    Ok (flat_map (pattern_issues pattern condition) paths)
  else if Type' condition =? "method_check" then
    match as_map (lookup (Path condition) paths) with
    | None => Ok []
    | Some pathObj =>
        if negb (has_key (strings.ToLower (Method condition)) pathObj)
        then Ok [path_issue (Path condition) (Message condition)]
        else Ok []
    end
  else if Type' condition =? "parameter_check" then
    match as_map (lookup (Path condition) paths) with
    | None => Ok []
    | Some pathObj =>
        if negb (has_key "parameters" pathObj)
        then Ok [path_issue (Path condition) (Message condition)]
        else Ok []
    end
  else if Type' condition =? "resource_naming" then
    pattern <- MustCompile (Pattern condition) ;;
    Ok (flat_map (naming_issues pattern condition) paths)
  else if Type' condition =? "schema_field" then
    Ok (schema_field_issues spec condition)
  else Ok [].

Fixpoint run_conditions (spec paths : gomap) (conditions : list Condition)
    (found : list Issue) : go (list Issue) :=
  match conditions with
  | [] => Ok found
  | condition :: rest =>
      more <- condition_issues spec paths condition ;;
      run_conditions spec paths rest (found ++ more)%list
  end.

(** [func (r *JSONRule) Apply(spec)] *)
Definition Apply (r : JSONRule) (spec : option gomap) : go Result :=
  if negb (Enabled r) then
    Ok {| status := "skipped"; message := Some "Rule is disabled";
          issues := None |}
  else
    match spec with
    | None => Ok (error_result "invalid API spec")
    | Some spec =>
        match as_map (lookup "paths" spec) with
        | None => Ok (error_result "API spec does not have paths")
        | Some paths =>
            found <- run_conditions spec paths (Conditions r) [] ;;
            Ok (result_of_issues found)
        end
    end.

(** A [*JSONRule] seen through the [Rule] interface. *)
Definition asRule (r : JSONRule) : Rule :=
  mkRule (Apply r) (RuleName r) (RuleDescription r).

End WithRegexp.

End json_rule.

(** ** The engine (internal/validator) *)

(** [parseAPISpec]: the file system and the YAML decoder.  An empty document
    decodes to the nil map, hence the [option]. *)
Class SpecLoader : Type := {
  parseAPISpec : string -> go (option gomap)
}.

(** [type Validator struct { rules map[string]rules.Rule; ... }] *)
Record Validator : Type := mkValidator {
  rules : list (string * Rule)
}.

(** [{"results": results}] *)
Record Report : Type := mkReport {
  results : list (string * Result)
}.

Record PathAnalysis : Type := mkPathAnalysis {
  path : string;
  path_parameters : list string;
  ends_with_resource : bool;
  appropriate_methods : list string
}.

(** [{"path_analysis": {...}, "results": results}] *)
Record URLPathReport : Type := mkURLPathReport {
  path_analysis : PathAnalysis;
  url_results : list (string * Result)
}.

Module validator.

Section Engine.
Context `{Regexp} `{SpecLoader}.

Definition registerBuiltInRules (v : Validator) : Validator :=
  mkValidator
    (assign "solace_custom_actions" NewSolaceCustomActionsRule
       (assign "solace_singular_user_resources" NewSolaceSingularUserResourcesRule
          (assign "solace_rest_rules" NewSolaceRestRules (rules v)))).

(** [NewJSONRuleFromFile] from the point where the file has been read and
    decoded: [rule] is the decoded rule with its [FilePath] set.  The error
    returns of [ioutil.ReadFile] and [json.Unmarshal] come before that point
    and are not part of this function. *)
Definition NewJSONRuleFromFile (rule : JSONRule) : go JSONRule :=
  match json_rule.validate rule with
  | Some e => Err ("invalid JSON rule: " ++ e)
  | None => Ok rule
  end.

(** The renaming loop of [LoadJSONRulesFromDir].  It ends at the first
    free name; one of any [length loaded + 1] candidates is free, which
    bounds the turns. *)
Fixpoint free_name (loaded : list (string * Rule)) (baseName name : string)
    (suffix turns : nat) : string :=
  match turns with
  | O => name
  | S turns' =>
      if has_key name loaded
      then free_name loaded baseName (baseName ++ "_" ++ itoa suffix)
                     (S suffix) turns'
      else name
  end.

Definition rename (r : JSONRule) (name : string) : JSONRule :=
  mkJSONRule name (RuleDescription r) (Enabled r) (Conditions r) (FilePath r).

(** [LoadJSONRulesFromDir] over the decoded .json files of an existing
    directory, in the order of the walk.  A directory that has to be
    created, an error of the walk itself, and a file that cannot be read or
    decoded are not in this domain; each of them makes the code return an
    error, as a file that fails [validate] does here. *)
Fixpoint LoadJSONRulesFromDir (files : list JSONRule)
    (loaded : list (string * Rule)) : go (list (string * Rule)) :=
  match files with
  | [] => Ok loaded
  | file :: rest =>
      match NewJSONRuleFromFile file with
      | Ok rule =>
          let name := free_name loaded (RuleName rule) (RuleName rule) 1
                                (S (List.length loaded)) in
          LoadJSONRulesFromDir rest
            (assign name (json_rule.asRule (rename rule name)) loaded)
      | Err e =>
          Err ("error walking rules directory: error loading rule from "
                 ++ FilePath file ++ ": " ++ e)
      | Panic msg => Panic msg
      end
  end.

Definition registerJSONRules (files : list JSONRule) (v : Validator)
  : go Validator :=
  match LoadJSONRulesFromDir files [] with
  | Ok jsonRules =>
      Ok (mkValidator
            (fold_left (fun registered entry =>
                          assign (fst entry) (snd entry) registered)
                       jsonRules (rules v)))
  | Err e => Err ("error loading JSON rules: " ++ e)
  | Panic msg => Panic msg
  end.

(** [NewValidator]: a failure to load the JSON rules is logged and the
    built-in rules stay. *)
Definition NewValidator (files : list JSONRule) : Validator :=
  let v := registerBuiltInRules (mkValidator []) in
  match registerJSONRules files v with
  | Ok v' => v'
  | _ => v
  end.

(** The entries of [params["rules"]] that are strings. *)
Fixpoint string_entries (rulesParam : list value) : list string :=
  match rulesParam with
  | [] => []
  | VStr ruleName :: rest => ruleName :: string_entries rest
  | _ :: rest => string_entries rest
  end.

Definition rulesToApply (v : Validator) (params : gomap) : list string :=
  let named :=
    match lookup "rules" params with
    | Some (VList rulesParam) => string_entries rulesParam
    | _ => []
    end in
  match named with
  | [] => map fst (rules v)
  | _ :: _ => named
  end.

(** [for _, ruleName := range rulesToApply] *)
Fixpoint apply_rules (v : Validator) (spec : option gomap)
    (names : list string) (acc : list (string * Result))
  : go (list (string * Result)) :=
  match names with
  | [] => Ok acc
  | ruleName :: rest =>
      match lookup ruleName (rules v) with
      | None =>
          apply_rules v spec rest
            (assign ruleName (error_result ("rule not found: " ++ ruleName)) acc)
      | Some rule =>
          match Apply rule spec with
          | Ok ruleResult =>
              apply_rules v spec rest (assign ruleName ruleResult acc)
          | Err e =>
              apply_rules v spec rest
                (assign ruleName (error_result ("error applying rule: " ++ e)) acc)
          | Panic msg => Panic msg
          end
      end
  end.

(** [func (v *Validator) Validate(params)] *)
Definition Validate (v : Validator) (params : gomap) : go Report :=
  match as_string (lookup "api_spec" params) with
  | None => Err "missing or invalid api_spec parameter"
  | Some apiSpec =>
      match parseAPISpec apiSpec with
      | Err e => Err ("error parsing API spec: " ++ e)
      | Panic msg => Panic msg
      | Ok spec =>
          found <- apply_rules v spec (rulesToApply v params) [] ;;
          Ok (mkReport found)
      end
  end.

(** [func (v *Validator) GetRules() []string] *)
Definition GetRules (v : Validator) : list string := map fst (rules v).

(** *** The URL path validator *)

Definition braced (segment : string) : bool :=
  strings.HasPrefix segment "{" && strings.HasSuffix segment "}".

(** [segment[1 : len(segment)-1]] *)
Definition unbrace (segment : string) : string :=
  substring 1 (String.length segment - 1 - 1) segment.

Fixpoint params_of (segments : list string) : list string :=
  match segments with
  | [] => []
  | segment :: rest =>
      if braced segment then unbrace segment :: params_of rest
      else params_of rest
  end.

Definition extractPathParams (urlPath : string) : list string :=
  params_of (strings.Split urlPath "/"%char).

Definition endsWithResource (urlPath : string) : bool :=
  match strings.Split urlPath "/"%char with
  | [] => false
  | segments => braced (List.last segments "")
  end.

Definition determineHTTPMethods (endsWithResource : bool) : list string :=
  if endsWithResource then ["get"; "put"; "patch"; "delete"]
  else ["get"; "post"].

Definition nl : string := String (ascii_of_nat 10) "".

Definition paramsSection (pathParams : list string) : string :=
  fold_left (fun acc param =>
               acc ++ nl
               ++ "        - name: " ++ param ++ nl
               ++ "          in: path" ++ nl
               ++ "          required: true" ++ nl
               ++ "          schema:" ++ nl
               ++ "            type: string")
            pathParams "".

Definition methodsSection (params : string) (methods : list string) : string :=
  fold_left (fun acc method =>
               acc ++ nl
               ++ "    " ++ method ++ ":" ++ nl
               ++ "      summary: " ++ strings.ToUpper method ++ " endpoint" ++ nl
               ++ "      description: Auto-generated " ++ strings.ToUpper method
               ++ " endpoint for validation" ++ nl
               ++ "      "
               ++ (if negb (params =? "") && negb (method =? "post")
                   then "parameters:" ++ params else "") ++ nl
               ++ "      responses:" ++ nl
               ++ "        '200':" ++ nl
               ++ "          description: OK")
            methods "".

Definition createOpenAPISpec (urlPath : string) (pathParams methods : list string)
  : string :=
  "openapi: 3.0.0" ++ nl
  ++ "info:" ++ nl
  ++ "  title: Auto-generated API for URL Path Validation" ++ nl
  ++ "  version: 1.0.0" ++ nl
  ++ "paths:" ++ nl
  ++ "  " ++ urlPath ++ ":" ++ methodsSection (paramsSection pathParams) methods.

(** [func (v *URLPathValidator) ValidateURLPath(urlPath string)] *)
Definition URLPathValidator_ValidateURLPath (v : Validator) (urlPath : string)
  : go URLPathReport :=
  let pathParams := extractPathParams urlPath in
  let endsWithResource := endsWithResource urlPath in
  let methods := determineHTTPMethods endsWithResource in
  let spec := createOpenAPISpec urlPath pathParams methods in
  match Validate v [("api_spec", VStr spec)] with
  | Err e => Err ("error validating URL path: " ++ e)
  | Panic msg => Panic msg
  | Ok report =>
      Ok (mkURLPathReport
            (mkPathAnalysis urlPath pathParams endsWithResource methods)
            (results report))
  end.

(** [func (v *Validator) ValidateURLPath(params)] *)
Definition ValidateURLPath (v : Validator) (params : gomap) : go URLPathReport :=
  match as_string (lookup "url_path" params) with
  | None => Err "missing or invalid url_path parameter"
  | Some urlPath => URLPathValidator_ValidateURLPath v urlPath
  end.

End Engine.

End validator.

(** ** Vocabulary of the specification *)

(** The last /-segment of a path. *)
Definition last_segment (path : string) : string :=
  List.last (strings.Split path "/"%char) "".

(** A segment wrapped in braces around [name]. *)
Definition wrapped (segment name : string) : Prop :=
  segment = "{" ++ name ++ "}".

(** The path's last /-segment is a brace-delimited parameter. *)
Definition ends_in_parameter (path : string) : Prop :=
  exists name, wrapped (last_segment path) name.

(** The inner names of the brace-wrapped segments, left to right. *)
Inductive inner_names : list string -> list string -> Prop :=
| inner_nil : inner_names [] []
| inner_wrapped segment name segments names :
    wrapped segment name ->
    inner_names segments names ->
    inner_names (segment :: segments) (name :: names)
| inner_plain segment segments names :
    (forall name, ~ wrapped segment name) ->
    inner_names segments names ->
    inner_names (segment :: segments) names.

(** The bytes of a string. *)
Definition bytes (s : string) : list ascii := list_ascii_of_string s.

(** The issues a returned result carries. *)
Definition issues_of (r : go Result) : list Issue :=
  match r with
  | Ok res => match issues res with Some found => found | None => [] end
  | _ => []
  end.

(** The status a call reports, if it returns one. *)
Definition status_of (r : go Result) : option string :=
  match r with
  | Ok res => Some (status res)
  | _ => None
  end.

(** The keys of a path item that the method-path rule does not read as
    methods. *)
Definition non_method_key (key : string) : bool :=
  (key =? "parameters") || (key =? "summary") || (key =? "description").

(** The two messages of the method-path rule. *)
Definition post_message : string :=
  "POST should be used for collection paths, not for specific resources".

Definition resource_message (method : string) : string :=
  strings.ToUpper method
  ++ " should be used for specific resources, not for collections".

(** ** Inputs used in the scenarios *)

Definition widgets_spec : gomap :=
  [("paths", VMap [("/widgets", VMap [("post", VMap [])]);
                   ("/widgets/{id}", VMap [("get", VMap []); ("put", VMap [])])])].

Definition widget_post_spec : gomap :=
  [("paths", VMap [("/widgets/{id}", VMap [("post", VMap [])])])].

(** The operation under post is null, not a mapping. *)
Definition widget_null_post_spec : gomap :=
  [("paths", VMap [("/widgets/{id}", VMap [("post", VNull)])])].

(** A path of one brace-delimited segment, without a slash. *)
Definition bare_put_spec : gomap :=
  [("paths", VMap [("{id}", VMap [("put", VMap [])])])].

(** The last segment ends with a parameter but is not one. *)
Definition report_post_spec : gomap :=
  [("paths", VMap [("/files/{dir}/report.{ext}", VMap [("post", VMap [])])])].

Definition passed : Result :=
  {| status := "passed"; message := None; issues := None |}.

Definition failed (found : list Issue) : Result :=
  {| status := "failed"; message := None; issues := Some found |}.

(** A stand-in for the regexp package that knows two expressions and the
    error of an unclosed parenthesis, and quotes as Go does a pattern
    without backquote or control character. *)
Definition lower_word (s : string) : bool :=
  negb (s =? "") && forallb strings.is_lower (bytes s).

Definition sample_regexp : Regexp :=
  {| Compile pattern :=
       if pattern =? "^[a-z]+$" then inl lower_word
       else if pattern =? "^/" then inl (fun s => strings.HasPrefix s "/")
       else if pattern =? "(" then
         inr "error parsing regexp: missing closing ): `(`"
       else inr ("error parsing regexp: " ++ pattern);
     quote pattern := "`" ++ pattern ++ "`" |}.

(** A loader that decodes every text to the same tree. *)
Definition loader_of (spec : option gomap) : SpecLoader :=
  {| parseAPISpec _ := Ok spec |}.

Definition cloud_agents_path : string :=
  "/api/v0/admin/cloudAgents/{datacenterId}/upgrades".

(** The schema lookup as the specification words it: components.schemas
    where there is one, else the top-level definitions. *)
Definition locate_schemas_as_specified (spec : gomap) : option gomap :=
  match as_map (lookup "components" spec) with
  | Some components =>
      match as_map (lookup "schemas" components) with
      | Some schemas => Some schemas
      | None => as_map (lookup "definitions" spec)
      end
  | None => as_map (lookup "definitions" spec)
  end.

(** The issues of a schema_field condition once the schemas are scanned:
    those the scan appended, and the condition's own message when the
    field was found nowhere. *)
Definition scan_issues (condition : Condition) (scan : list Issue * bool)
  : list Issue :=
  if snd scan then fst scan
  else (fst scan ++ [field_issue (Field condition) (Message condition)])%list.

Definition no_schemas_message : string :=
  "No schema definitions found in API spec".

Definition created_time_condition : Condition :=
  {| Type' := "schema_field"; Pattern := ""; Path := ""; Method := "";
     Field := "createdTime"; Format := "date-time"; Value := VNull;
     Message := "createdTime is required" |}.

Definition audit_definitions : gomap :=
  [("Event", VMap [("properties",
      VMap [("createdTime", VMap [("type", VStr "string");
                                  ("format", VStr "date-time")])])])].

(** An OpenAPI 2 document that also carries a components mapping (here for
    security schemes only). *)
Definition mixed_spec : gomap :=
  [("paths", VMap []);
   ("components", VMap [("securitySchemes", VMap [])]);
   ("definitions", VMap audit_definitions)].

Definition audit_rule : JSONRule :=
  {| RuleName := "audit_fields"; RuleDescription := "Audit fields are present";
     Enabled := true; Conditions := [created_time_condition];
     FilePath := "config/rules/audit_fields.json" |}.

Definition skipped : Result :=
  {| status := "skipped"; message := Some "Rule is disabled"; issues := None |}.

Definition naming_condition : Condition :=
  {| Type' := "resource_naming"; Pattern := "^[a-z]+$"; Path := "";
     Method := ""; Field := ""; Format := ""; Value := VNull;
     Message := "segments are lower-case words" |}.

(** [r] with its enabled flag set to [enabled]. *)
Definition with_enabled (enabled : bool) (r : JSONRule) : JSONRule :=
  mkJSONRule (RuleName r) (RuleDescription r) enabled (Conditions r) (FilePath r).

(** [r] with the condition list [conditions]. *)
Definition with_conditions (conditions : list Condition) (r : JSONRule) : JSONRule :=
  mkJSONRule (RuleName r) (RuleDescription r) (Enabled r) conditions (FilePath r).

(** Two runs of the condition loop end alike: both return, with the same
    issues up to their order, or neither returns issues. *)
Definition same_issues (x y : go (list Issue)) : Prop :=
  match x, y with
  | Ok found, Ok found' => Permutation found found'
  | Ok _, _ => False
  | _, Ok _ => False
  | _, _ => True
  end.

Definition method_condition : Condition :=
  {| Type' := "method_check"; Pattern := ""; Path := "/widgets/{id}";
     Method := "GET"; Field := ""; Format := ""; Value := VNull;
     Message := "widgets can be read" |}.

(** A rule whose [Apply] returns a result and a nil error on every spec. *)
Definition returns_nil_error (rule : Rule) : Prop :=
  forall spec, exists res, Apply rule spec = Ok res.

(** A rule written against the interface whose [Apply] returns an error. *)
Definition faulty_rule : Rule :=
  mkRule (fun _ => Err "backend unavailable") "faulty" "Always faults".

(** What the loop of [Validate] records under one name: the not-found
    error for an unregistered name, the rule's own result where [Apply]
    returns one, and the wrapped error where [Apply] returns an error. *)
Definition recorded (v : Validator) (spec : option gomap) (name : string)
    (res : Result) : Prop :=
  match lookup name (rules v) with
  | None => res = error_result ("rule not found: " ++ name)
  | Some rule =>
      match Apply rule spec with
      | Ok ruleResult => res = ruleResult
      | Err e => res = error_result ("error applying rule: " ++ e)
      | Panic _ => False
      end
  end.

(** The report holds what the loop records under each of [names], and no
    other name. *)
Definition covers (v : Validator) (spec : option gomap) (names : list string)
    (report : Report) : Prop :=
  (forall name,
      In name names ->
      exists res,
        lookup name (results report) = Some res /\ recorded v spec name res)
  /\ (forall name, ~ In name names -> lookup name (results report) = None).

(** The built-in rules and the faulty one. *)
Definition sample_validator : Validator :=
  mkValidator
    (assign "faulty" faulty_rule
       (rules (validator.registerBuiltInRules (mkValidator [])))).

Definition sample_params : gomap :=
  [("api_spec", VStr "widgets.yaml");
   ("rules", VList [VStr "faulty"; VStr "no_such_rule"; VStr "solace_rest_rules"])].

(** A rules parameter without a single string in it. *)
Definition numeric_rules_params : gomap :=
  [("api_spec", VStr "widgets.yaml"); ("rules", VList [VInt 1; VBool true])].

Definition naming_rule : JSONRule :=
  {| RuleName := "resource_naming"; RuleDescription := "Segments are words";
     Enabled := true; Conditions := [naming_condition; created_time_condition];
     FilePath := "config/rules/resource_naming.json" |}.

(** ** One map, several visiting orders *)

(** Two values are the same Go value when they differ at most in the order
    of the entries of their maps, at any depth. *)
Inductive same_value : value -> value -> Prop :=
| same_refl v : same_value v v
| same_VMap m m' : same_map m m' -> same_value (VMap m) (VMap m')
| same_VList l l' : same_list l l' -> same_value (VList l) (VList l')
| same_value_trans v1 v2 v3 :
    same_value v1 v2 -> same_value v2 v3 -> same_value v1 v3
with same_map : gomap -> gomap -> Prop :=
| same_map_nil : same_map [] []
| same_map_entry k v v' m m' :
    same_value v v' -> same_map m m' -> same_map ((k, v) :: m) ((k, v') :: m')
| same_map_swap e1 e2 m : same_map (e1 :: e2 :: m) (e2 :: e1 :: m)
| same_map_trans m1 m2 m3 : same_map m1 m2 -> same_map m2 m3 -> same_map m1 m3
with same_list : list value -> list value -> Prop :=
| same_list_nil : same_list [] []
| same_list_cons v v' l l' :
    same_value v v' -> same_list l l' -> same_list (v :: l) (v' :: l').

Scheme same_value_mut := Minimality for same_value Sort Prop
  with same_map_mut := Minimality for same_map Sort Prop
  with same_list_mut := Minimality for same_list Sort Prop.

Combined Scheme same_mutind from same_value_mut, same_map_mut, same_list_mut.

(** What two lookups of one key give in the same map. *)
Definition same_option (x y : option value) : Prop :=
  match x, y with
  | Some v, Some v' => same_value v v'
  | None, None => True
  | _, _ => False
  end.

Definition same_option_map (x y : option gomap) : Prop :=
  match x, y with
  | Some m, Some m' => same_map m m'
  | None, None => True
  | _, _ => False
  end.

(** A value as a decoder builds it: every map, at any depth below maps,
    holds each key once. *)
Inductive well_keyed : value -> Prop :=
| well_keyed_map m :
    NoDup (map fst m) ->
    (forall k v, In (k, v) m -> well_keyed v) ->
    well_keyed (VMap m)
| well_keyed_leaf v : (forall m, v <> VMap m) -> well_keyed v.

(** The same (possibly nil) spec. *)
Definition same_spec (spec spec' : option gomap) : Prop :=
  match spec, spec' with
  | Some m, Some m' => same_map m m'
  | None, None => True
  | _, _ => False
  end.

Definition well_keyed_spec (spec : option gomap) : Prop :=
  match spec with
  | Some m => well_keyed (VMap m)
  | None => True
  end.

(** Results that differ at most in the order of their issues. *)
Definition same_result (r r' : Result) : Prop :=
  status r = status r' /\ message r = message r'
  /\ match issues r, issues r' with
     | Some found, Some found' => Permutation found found'
     | None, None => True
     | _, _ => False
     end.

Definition same_outcome (x y : go Result) : Prop :=
  match x, y with
  | Ok r, Ok r' => same_result r r'
  | Err e, Err e' => e = e'
  | Panic msg, Panic msg' => msg = msg'
  | _, _ => False
  end.

(** Two runs of a loop that collect the same issues, at most in another
    order, or stop with the same error or panic. *)
Definition same_found (x y : go (list Issue)) : Prop :=
  match x, y with
  | Ok found, Ok found' => Permutation found found'
  | Err e, Err e' => e = e'
  | Panic msg, Panic msg' => msg = msg'
  | _, _ => False
  end.




(** A rule whose outcome does not depend on the order in which the maps of
    the spec are visited, up to the order of the issues. *)
Definition order_independent (rule : Rule) : Prop :=
  forall spec spec',
    same_spec spec spec' -> well_keyed_spec spec ->
    same_outcome (Apply rule spec) (Apply rule spec').

(** A condition that is not a schema_field condition with a format. *)
Definition without_format (condition : Condition) : Prop :=
  Type' condition = "schema_field" -> Format condition = "".

(** The field is among the properties of the schema. *)
Definition field_declared (field : string) (schemaObj : value) : bool :=
  match schemaObj with
  | VMap schema =>
      match as_map (lookup "properties" schema) with
      | Some properties => has_key field properties
      | None => false
      end
  | _ => false
  end.


Definition legacy_schema : value :=
  VMap [("properties", VMap [("createdTime", VMap [("format", VStr "date")])])].

Definition schemas_spec (schemas : gomap) : gomap :=
  [("paths", VMap []); ("components", VMap [("schemas", VMap schemas)])].






(** Two user paths, in two visiting orders. *)
Definition users_spec (paths : gomap) : gomap := [("paths", VMap paths)].

Definition users_then_orders : gomap :=
  users_spec [("/users/{id}", VMap []); ("/users/{id}/orders", VMap [])].



Definition users_message : string :=
  "User-specific resources should use /me/ instead of /users/{id}".

(** A JSON rule without a schema_field condition. *)
Definition plain_rule : JSONRule :=
  with_conditions [naming_condition; method_condition] audit_rule.



(** ** Vocabulary of the further properties *)

(** The registry before any JSON rule is loaded. *)
Definition builtin_rules : list (string * Rule) :=
  rules (validator.registerBuiltInRules (mkValidator [])).

(** The name the renaming loop tries after [suffix - 1] collisions. *)
Definition suffixed (baseName : string) (suffix : nat) : string :=
  baseName ++ "_" ++ itoa suffix.

(** The names the loop has tested when it runs out of turns. *)
Fixpoint tested (baseName name : string) (suffix turns : nat) : list string :=
  match turns with
  | O => []
  | S turns' => name :: tested baseName (suffixed baseName suffix) (S suffix) turns'
  end.

(** A file that passes [validate]. *)
Definition loadable `{Regexp} (file : JSONRule) : Prop :=
  json_rule.validate file = None.

(** The error [LoadJSONRulesFromDir] returns for a file that [validate]
    rejects with [e]. *)
Definition load_error (file : JSONRule) (e : string) : string :=
  "error walking rules directory: error loading rule from "
  ++ FilePath file ++ ": invalid JSON rule: " ++ e.

Definition unnamed_rule : JSONRule :=
  {| RuleName := ""; RuleDescription := "No name"; Enabled := true;
     Conditions := [naming_condition]; FilePath := "config/rules/unnamed.json" |}.

(** A JSON rule that takes the name of a built-in rule. *)
Definition shadowing_rule : JSONRule :=
  {| RuleName := "solace_rest_rules"; RuleDescription := "Replacement";
     Enabled := false; Conditions := [naming_condition];
     FilePath := "config/rules/rest.json" |}.

(** A condition as the loader accepts it: a type of the vocabulary, a
    message, and the fields its type needs; a pattern has to compile. *)
Definition well_formed_condition `{Regexp} (c : Condition) : Prop :=
  Message c <> ""
  /\ (((Type' c = "path_pattern" \/ Type' c = "resource_naming")
       /\ Pattern c <> "" /\ exists re, Compile (Pattern c) = inl re)
      \/ (Type' c = "method_check" /\ Path c <> "" /\ Method c <> "")
      \/ (Type' c = "parameter_check" /\ Path c <> "")
      \/ (Type' c = "schema_field" /\ Field c <> "")).

Definition well_formed_rule `{Regexp} (r : JSONRule) : Prop :=
  RuleName r <> "" /\ RuleDescription r <> "" /\ Conditions r <> []
  /\ Forall well_formed_condition (Conditions r).

(** The shapes a result can take: passed without issues, failed with at
    least one issue, or error or skipped with a message and no issues. *)
Definition well_formed_result (res : Result) : Prop :=
  (status res = "passed" /\ message res = None /\ issues res = None)
  \/ (status res = "failed" /\ message res = None
      /\ exists issue rest, issues res = Some (issue :: rest))
  \/ ((status res = "error" \/ status res = "skipped")
      /\ (exists msg, message res = Some msg) /\ issues res = None).

(** A rule all of whose results have one of these shapes. *)
Definition well_formed_results (rule : Rule) : Prop :=
  forall spec res, Apply rule spec = Ok res -> well_formed_result res.

Definition pattern_condition (pattern : string) : Condition :=
  {| Type' := "path_pattern"; Pattern := pattern; Path := ""; Method := "";
     Field := ""; Format := ""; Value := VNull;
     Message := "paths start with a slash" |}.

(** A request for the built-in rules only, one of them twice. *)
Definition repeated_params : gomap :=
  [("api_spec", VStr "widgets.yaml");
   ("rules", VList [VStr "solace_rest_rules"; VStr "solace_custom_actions";
                    VStr "solace_rest_rules"])].

Definition rest_only_params : gomap :=
  [("api_spec", VStr "widgets.yaml"); ("rules", VList [VStr "solace_rest_rules"])].

(** A loader that fails on every text. *)
Definition failing_loader : SpecLoader :=
  {| parseAPISpec _ := Err "yaml: did not find expected key" |}.

(** A condition whose pattern, if its type has one, compiles. *)
Definition compiles `{Regexp} (c : Condition) : Prop :=
  Type' c = "path_pattern" \/ Type' c = "resource_naming" ->
  exists re, Compile (Pattern c) = inl re.

(** The panic of [regexp.MustCompile] on [pattern], where [Compile]
    returns the error [e]. *)
Definition compile_panic `{Regexp} (pattern e : string) : string :=
  "regexp: Compile(" ++ quote pattern ++ "): " ++ e.

(** The property of the schema under [field], where it is an object. *)
Definition field_object (field : string) (schemaObj : value) : option gomap :=
  match schemaObj with
  | VMap schema =>
      match as_map (lookup "properties" schema) with
      | Some properties => as_map (lookup field properties)
      | None => None
      end
  | _ => None
  end.

Definition declares_object (field : string) (entry : string * value) : bool :=
  match field_object field (snd entry) with
  | Some _ => true
  | None => false
  end.

(** The object carries the format, as a string. *)
Definition has_format (format : string) (fieldObj : gomap) : bool :=
  match as_string (lookup "format" fieldObj) with
  | Some f => f =? format
  | None => false
  end.

Definition format_issue (condition : Condition) (schemaName : string) : Issue :=
  schema_issue schemaName (Field condition)
    (Message condition ++ " (format should be " ++ Format condition ++ ")").

(** A schema whose createdTime is written as a string, not as an object. *)
Definition shorthand_schemas : gomap :=
  [("Note", VMap [("properties", VMap [("createdTime", VStr "date-time")])]);
   ("Legacy", legacy_schema)].

(** A path of a user other than the caller: it holds /users/ and not
    /me/. *)
Definition user_specific (p : string) : bool :=
  strings.Contains p "/users/" && negb (strings.Contains p "/me/").

Definition custom_message : string := "Custom actions should use POST method".

(** A path item of a custom action without the key post among its keys. *)
Definition action_without_post (entry : string * value) : bool :=
  match snd entry with
  | VMap pathItem =>
      strings.Contains (fst entry) "/actions/"
      && negb (existsb (String.eqb "post") (map fst pathItem))
  | _ => false
  end.

(** A custom action declared with an upper-case key. *)
Definition upper_case_action_spec : gomap :=
  [("paths", VMap [("/jobs/actions/run", VMap [("POST", VMap [])])])].

(** The string holds ASCII bytes only; on such strings [strings.ToLower]
    and [strings.ToUpper] are exactly Go's. *)
Definition ascii_only (s : string) : bool :=
  forallb (fun a => Nat.ltb (nat_of_ascii a) 128) (bytes s).

(** ** The transport (internal/server) *)

(** What [processRequest] puts under result. *)
Inductive Payload : Type :=
| ValidateResult (report : Report)
| URLPathResult (report : URLPathReport)
| Static (v : value).

(** [{"jsonrpc": ..., "id": request["id"], "result": result}]; the id is
    [None] where the request has none. *)
Record Response : Type := mkResponse {
  jsonrpc : string;
  id : option value;
  result : Payload
}.

(** What the handler writes: the text of [http.Error], the pong, a response,
    or the error envelope with its id, code and message. *)
Inductive Body : Type :=
| PlainText (text : string)
| Pong (jsonrpc : string) (id : Z) (result : string)
| ResultBody (response : Response)
| ErrorBody (jsonrpc : string) (id : option value) (code : Z) (message : string).

(** The status, the Content-Type the handler sets ([None] where it sets
    none), and the body. *)
Record HTTPResponse : Type := mkHTTPResponse {
  statusCode : nat;
  contentType : option string;
  body : Body
}.

(** The fields of [Server] the handlers use; times are seconds. *)
Record Server : Type := mkServer {
  server_validator : Validator;
  lastPing : Z
}.

Module server.

Section Handlers.
Context `{SpecLoader}.

Definition getTools : value :=
  VMap
    [("validate_api",
      VMap
        [("description", VStr "Validate a REST API against a set of rules");
         ("input_schema",
          VMap
            [("type", VStr "object");
             ("properties",
              VMap
                [("api_spec",
                  VMap [("type", VStr "string");
                        ("description",
                         VStr "OpenAPI specification in YAML or JSON format")]);
                 ("rules",
                  VMap [("type", VStr "array");
                        ("description", VStr "List of rules to validate against");
                        ("items", VMap [("type", VStr "string")])])]);
             ("required", VList [VStr "api_spec"])])]);
     ("validate_url_path",
      VMap
        [("description",
          VStr "Validate a single URL path against Solace REST API conventions");
         ("input_schema",
          VMap
            [("type", VStr "object");
             ("properties",
              VMap
                [("url_path",
                  VMap [("type", VStr "string");
                        ("description",
                         VStr "URL path to validate (e.g., /api/v0/admin/cloudAgents/{datacenterId}/upgrades)")])]);
             ("required", VList [VStr "url_path"])])])].

Definition getResources : value :=
  VMap [("rules", VMap [("description", VStr "Available validation rules")])].

(** [func (s *Server) processRequest(request)] *)
Definition processRequest (s : Server) (request : gomap) : go Response :=
  match as_string (lookup "method" request) with
  | None => Err "missing or invalid method"
  | Some method =>
      let params :=
        match as_map (lookup "params" request) with
        | Some params => params
        | None => []
        end in
      found <-
        (if method =? "validate" then
           report <- validator.Validate (server_validator s) params ;;
           Ok (ValidateResult report)
         else if method =? "validateURLPath" then
           report <- validator.ValidateURLPath (server_validator s) params ;;
           Ok (URLPathResult report)
         else if method =? "getTools" then Ok (Static getTools)
         else if method =? "getResources" then Ok (Static getResources)
         else Err ("unknown method: " ++ method)) ;;
      Ok (mkResponse "2.0" (lookup "id" request) found)
  end.

(** [http.Error(w, text, code)] *)
Definition http_Error (text : string) (code : nat) : HTTPResponse :=
  mkHTTPResponse code (Some "text/plain; charset=utf-8")
                 (PlainText (text ++ validator.nl)).

(** [func (s *Server) handlePing(w)] at time [now]. *)
Definition handlePing (s : Server) (now : Z) : Server * HTTPResponse :=
  (mkServer (server_validator s) now,
   mkHTTPResponse 200 (Some "application/json") (Pong "2.0" 1 "pong")).

(** [func (s *Server) handleMCP(w, r)] at time [now], for the method of
    the HTTP request and its body as [json.Decode] gives it: the decoded
    object or the error. *)
Definition handleMCP (s : Server) (now : Z) (httpMethod : string)
    (decoded : gomap + string) : go (Server * HTTPResponse) :=
  if negb (httpMethod =? "POST") then
    Ok (s, http_Error "Method not allowed" 405)
  else
    match decoded with
    | inr err => Ok (s, http_Error ("Error parsing request: " ++ err) 400)
    | inl request =>
        if match as_string (lookup "method" request) with
           | Some method => method =? "ping"
           | None => false
           end
        then Ok (handlePing s now)
        else
          match processRequest s request with
          | Ok response =>
              Ok (s, mkHTTPResponse 200 (Some "application/json")
                                    (ResultBody response))
          | Err e =>
              Ok (s, mkHTTPResponse 200 None
                       (ErrorBody "2.0" (lookup "id" request) (-32000)
                                  ("Error processing request: " ++ e)))
          | Panic msg => Panic msg
          end
    end.

End Handlers.

End server.

Definition sample_server : Server := mkServer sample_validator 0.

(** A validate request that carries an id and no params. *)
Definition bare_validate_request : gomap :=
  [("jsonrpc", VStr "2.0"); ("id", VInt 7); ("method", VStr "validate")].

Definition ping_request : gomap :=
  [("jsonrpc", VStr "2.0"); ("id", VInt 42); ("method", VStr "ping");
   ("params", VMap [])].

(** The params [processRequest] passes on. *)
Definition request_params (request : gomap) : gomap :=
  match as_map (lookup "params" request) with
  | Some params => params
  | None => []
  end.

(** The reasons for which a request fails, each with its message: the method
    is missing or no string, the method is not known, the parameter of a
    validation is missing or no string, or the spec does not parse. *)
Definition request_fault `{SpecLoader} (request : gomap) (e : string) : Prop :=
  match as_string (lookup "method" request) with
  | None => e = "missing or invalid method"
  | Some method =>
      (method = "validate"
       /\ match as_string (lookup "api_spec" (request_params request)) with
          | None => e = "missing or invalid api_spec parameter"
          | Some apiSpec =>
              exists cause,
                parseAPISpec apiSpec = Err cause
                /\ e = "error parsing API spec: " ++ cause
          end)
      \/ (method = "validateURLPath"
          /\ match as_string (lookup "url_path" (request_params request)) with
             | None => e = "missing or invalid url_path parameter"
             | Some urlPath =>
                 exists cause,
                   parseAPISpec
                     (validator.createOpenAPISpec urlPath
                        (validator.extractPathParams urlPath)
                        (validator.determineHTTPMethods
                           (validator.endsWithResource urlPath)))
                   = Err cause
                   /\ e = "error validating URL path: error parsing API spec: "
                          ++ cause
             end)
      \/ (method <> "validate" /\ method <> "validateURLPath"
          /\ method <> "getTools" /\ method <> "getResources"
          /\ e = "unknown method: " ++ method)
  end.

(** * Facts *)

(** ** Facts about the string functions *)

Module strings_facts.

Import strings.

Lemma append_nil_r (s : string) : s ++ "" = s.
Proof. induction s as [|a s IH]; simpl; [reflexivity | now rewrite IH]. Qed.

Lemma append_assoc (a b c : string) : (a ++ b) ++ c = a ++ (b ++ c).
Proof. induction a as [|x a IH]; simpl; [reflexivity | now rewrite IH]. Qed.

Lemma length_append (a b : string) :
  String.length (a ++ b) = String.length a + String.length b.
Proof. induction a as [|x a IH]; simpl; [reflexivity | now rewrite IH]. Qed.

Lemma HasPrefix_iff (s p : string) :
  HasPrefix s p = true <-> exists rest, s = p ++ rest.
Proof.
  unfold HasPrefix. revert s.
  induction p as [|a p IH]; intros s.
  - split; [intros _; exists s; reflexivity | intros _; now destruct s].
  - destruct s as [|b s]; simpl.
    + split; [discriminate | intros [rest E]; discriminate].
    + destruct (ascii_dec a b) as [->|N].
      * rewrite IH. split; intros [rest E]; exists rest.
        -- now rewrite E.
        -- now inversion E.
      * split; [discriminate | intros [rest E]; inversion E; congruence].
Qed.

Lemma substring_skip (pre s : string) (n : nat) :
  substring (String.length pre) n (pre ++ s) = substring 0 n s.
Proof. induction pre as [|a pre IH]; simpl; [reflexivity | exact IH]. Qed.

Lemma substring_all (s : string) : substring 0 (String.length s) s = s.
Proof. induction s as [|a s IH]; simpl; [reflexivity | now rewrite IH]. Qed.

Lemma substring_front (s t : string) :
  substring 0 (String.length s) (s ++ t) = s.
Proof. induction s as [|a s IH]; simpl; [now destruct t | now rewrite IH]. Qed.

Lemma substring_split (s : string) (n : nat) :
  n <= String.length s ->
  s = substring 0 n s ++ substring n (String.length s - n) s.
Proof.
  revert n. induction s as [|a s IH]; intros n Hn; simpl in *.
  - now destruct n.
  - destruct n as [|n]; simpl.
    + now rewrite substring_all.
    + f_equal. apply IH. lia.
Qed.

Lemma HasSuffix_iff (s suf : string) :
  HasSuffix s suf = true <-> exists pre, s = pre ++ suf.
Proof.
  unfold HasSuffix. rewrite andb_true_iff, Nat.leb_le, String.eqb_eq. split.
  - intros [Hlen E].
    exists (substring 0 (String.length s - String.length suf) s).
    pose proof (@substring_split s (String.length s - String.length suf)) as Sp.
    replace (String.length s - (String.length s - String.length suf))
      with (String.length suf) in Sp by lia.
    rewrite E in Sp. apply Sp. lia.
  - intros [pre ->]. rewrite length_append. split; [lia|].
    replace (String.length pre + String.length suf - String.length suf)
      with (String.length pre) by lia.
    rewrite substring_skip. apply substring_all.
Qed.

Lemma Contains_iff (s sub : string) :
  Contains s sub = true <-> exists a b, s = a ++ sub ++ b.
Proof.
  induction s as [|x s IH]; cbn [Contains]; rewrite orb_true_iff, HasPrefix_iff.
  - split.
    + intros [[rest E]|F]; [|discriminate]. exists "", rest. exact E.
    + intros [a [b E]]. left. destruct a; simpl in E.
      * now exists b.
      * discriminate.
  - rewrite IH. split.
    + intros [[rest E]|[a [b E]]].
      * exists "", rest. exact E.
      * exists (String x a), b. simpl. now rewrite E.
    + intros [a [b E]]. destruct a as [|y a]; simpl in E.
      * left. now exists b.
      * right. inversion E. now exists a, b.
Qed.

Lemma Split_nonempty (s : string) (c : ascii) : Split s c <> [].
Proof.
  destruct s as [|a s]; simpl; [discriminate|].
  destruct (Ascii.eqb a c); [discriminate|].
  destruct (Split s c); discriminate.
Qed.

(** Joining the segments with the separator gives the string back. *)
Lemma Split_join (s : string) (c : ascii) :
  String.concat (String c "") (Split s c) = s.
Proof.
  induction s as [|a s IH]; simpl; [reflexivity|].
  destruct (Ascii.eqb_spec a c) as [->|N].
  - pose proof (Split_nonempty s c) as NE.
    simpl. destruct (Split s c) as [|seg rest] eqn:E; [contradiction|].
    simpl in *. now rewrite IH.
  - destruct (Split s c) as [|seg rest] eqn:E.
    + now apply Split_nonempty in E.
    + simpl in *. destruct rest; simpl in *; now rewrite <- IH.
Qed.

(** No segment holds the separator. *)
Lemma Split_no_sep (s : string) (c : ascii) (segment : string) :
  In segment (Split s c) -> ~ In c (bytes segment).
Proof.
  revert segment. induction s as [|a s IH]; simpl; intros segment Hin.
  - destruct Hin as [<-|[]]. simpl. tauto.
  - destruct (Ascii.eqb_spec a c) as [->|N].
    + destruct Hin as [<-|Hin]; [simpl; tauto | now apply IH].
    + destruct (Split s c) as [|seg rest] eqn:E.
      * destruct Hin as [<-|[]]. simpl. intros [F|[]]. now apply N.
      * destruct Hin as [<-|Hin].
        -- simpl. intros [F|F]; [now apply N|].
           apply (IH seg); [now left | exact F].
        -- apply IH. now right.
Qed.

(** Either the string is its only segment, or it ends with the separator
    followed by its last segment. *)
Lemma Split_last (s : string) (c : ascii) :
  Split s c = [s]
  \/ exists pre, s = pre ++ String c (List.last (Split s c) "").
Proof.
  induction s as [|a s IH]; simpl; [now left|].
  pose proof (Split_nonempty s c) as NE.
  pose proof (Split_join s c) as J.
  destruct (Split s c) as [|seg rest] eqn:E; [contradiction|].
  destruct (Ascii.eqb_spec a c) as [->|N].
  - right. destruct IH as [IH|[pre IH]].
    + exists "". simpl. inversion IH; subst. reflexivity.
    + exists (String c pre). simpl. now rewrite IH at 1.
  - destruct IH as [IH|[pre IH]].
    + left. inversion IH; subst. reflexivity.
    + right. exists (String a pre). simpl.
      destruct rest as [|seg' rest].
      * exfalso. simpl in *. subst seg.
        apply (f_equal String.length) in IH.
        rewrite length_append in IH. simpl in IH. lia.
      * simpl in *. now rewrite IH at 1.
Qed.

End strings_facts.

(** ** The URL path validator *)

Module url_path_facts.

Import strings strings_facts validator.

Lemma braced_iff (segment : string) :
  braced segment = true <-> exists name, wrapped segment name.
Proof.
  unfold braced, wrapped.
  rewrite andb_true_iff, HasPrefix_iff, HasSuffix_iff. split.
  - intros [[rest E1] [pre E2]]. subst segment.
    destruct pre as [|a pre]; simpl in E2; [discriminate|].
    inversion E2; subst. now exists pre.
  - intros [name ->]. split.
    + now exists (name ++ "}").
    + exists (String "{" name). reflexivity.
Qed.

Lemma unbrace_wrapped (segment name : string) :
  wrapped segment name -> unbrace segment = name.
Proof.
  unfold wrapped, unbrace. intros ->. simpl.
  rewrite length_append. simpl.
  replace (String.length name + 1 - 0 - 1) with (String.length name) by lia.
  apply substring_front.
Qed.

Lemma params_of_inner (segments : list string) :
  inner_names segments (params_of segments).
Proof.
  induction segments as [|segment rest IH]; simpl; [constructor|].
  destruct (braced segment) eqn:B.
  - apply braced_iff in B. destruct B as [name W].
    rewrite (unbrace_wrapped W). now constructor.
  - apply inner_plain; [|exact IH].
    intros name W. assert (braced segment = true) as B'
      by (apply braced_iff; now exists name).
    congruence.
Qed.

Lemma wrapped_inj (segment n1 n2 : string) :
  wrapped segment n1 -> wrapped segment n2 -> n1 = n2.
Proof.
  intros W1 W2. rewrite <- (unbrace_wrapped W1). apply (unbrace_wrapped W2).
Qed.

(** [inner_names] determines the names: the relation is a function. *)
Lemma inner_names_fun (segments names1 names2 : list string) :
  inner_names segments names1 -> inner_names segments names2 ->
  names1 = names2.
Proof.
  intros I1. revert names2.
  induction I1 as [|segment name segments names W _ IH
                   |segment segments names NW _ IH];
    intros names2 I2; inversion I2; subst.
  - reflexivity.
  - f_equal; [eapply wrapped_inj; eassumption | now apply IH].
  - exfalso. eapply H1. eassumption.
  - exfalso. eapply NW. eassumption.
  - now apply IH.
Qed.

Lemma endsWithResource_iff (urlPath : string) :
  endsWithResource urlPath = true <-> ends_in_parameter urlPath.
Proof.
  unfold endsWithResource, ends_in_parameter, last_segment.
  pose proof (Split_nonempty urlPath "/"%char) as NE.
  destruct (Split urlPath "/"%char) as [|seg rest] eqn:E; [contradiction|].
  apply braced_iff.
Qed.

End url_path_facts.

(** ** The method-path consistency rule *)

Module rest_rules_facts.

Import strings strings_facts validator url_path_facts SolaceRestRules.

Lemma issues_of_result (found : list Issue) :
  issues_of (Ok (result_of_issues found)) = found.
Proof. now destruct found. Qed.

Lemma suffix_of_append (a b pre : string) (d : ascii) :
  a ++ b = pre ++ String d "" ->
  b = "" \/ exists l, b = l ++ String d "".
Proof.
  revert pre. induction a as [|x a IH]; simpl; intros pre E.
  - right. now exists pre.
  - destruct pre as [|y pre]; simpl in E.
    + left. destruct a; simpl in E; now inversion E.
    + inversion E. eapply IH. eassumption.
Qed.

Lemma In_bytes_append (a b : string) (c : ascii) :
  In c (bytes (a ++ String c b)).
Proof. induction a as [|x a IH]; simpl; [now left | now right]. Qed.

(** On a path that holds a slash and whose last segment, when it ends with
    a closing brace, starts with an opening one, the test of the rule says
    whether the last segment is a parameter. *)
Lemma endsWithID_iff (path : string) :
  Contains path "/" = true ->
  (HasSuffix (last_segment path) "}" = true ->
   HasPrefix (last_segment path) "{" = true) ->
  (endsWithID path = true <-> ends_in_parameter path).
Proof.
  intros Hslash Hshape. unfold endsWithID.
  rewrite andb_true_iff, Contains_iff, HasSuffix_iff.
  unfold ends_in_parameter. rewrite <- braced_iff. unfold braced.
  rewrite andb_true_iff.
  destruct (Split_last path "/"%char) as [One|[pre E]].
  - exfalso. apply Contains_iff in Hslash. destruct Hslash as (a & b & Ep).
    apply (@Split_no_sep path "/"%char path); [rewrite One; now left|].
    rewrite Ep. apply In_bytes_append.
  - fold (last_segment path) in E. split.
    + intros [_ [pre' E']].
      assert (HasSuffix (last_segment path) "}" = true) as Hs.
      { apply HasSuffix_iff. rewrite E in E'.
        destruct (@suffix_of_append _ _ _ _ E') as [F|[l F]]; [discriminate|].
        destruct l as [|y l]; simpl in F; [discriminate|].
        inversion F. now exists l. }
      split; [now apply Hshape | exact Hs].
    + intros [Hp Hs]. split.
      * apply HasPrefix_iff in Hp. destruct Hp as [rest Hp].
        exists pre, rest. rewrite E at 1. rewrite Hp. reflexivity.
      * apply HasSuffix_iff in Hs. destruct Hs as [l Hs].
        exists (pre ++ String "/" l). rewrite E at 1. rewrite Hs.
        rewrite append_assoc. reflexivity.
Qed.

Lemma check_Some (path method : string) (methodDef : gomap) (issue : Issue) :
  checkMethodPathConsistency path method methodDef = Some issue <->
  (ToLower method = "post" /\ endsWithID path = true
   /\ issue = path_method_issue path "post" post_message)
  \/ ((ToLower method = "put" \/ ToLower method = "patch"
       \/ ToLower method = "delete")
      /\ endsWithID path = false
      /\ issue = path_method_issue path (ToLower method)
                   (resource_message (ToLower method))).
Proof.
  unfold checkMethodPathConsistency, post_message, resource_message.
  destruct (String.eqb_spec (ToLower method) "get") as [G|NG].
  { rewrite G. split; [discriminate|].
    intros [[F _]|[[F|[F|F]] _]]; discriminate. }
  destruct (String.eqb_spec (ToLower method) "post") as [P|NP].
  { rewrite P. destruct (endsWithID path); split.
    - intros [= <-]. left. auto.
    - intros [[_ [_ ->]]|[[F|[F|F]] _]]; [reflexivity | discriminate ..].
    - discriminate.
    - intros [[_ [F _]]|[[F|[F|F]] _]]; discriminate. }
  assert ((ToLower method =? "put") || (ToLower method =? "patch")
          || (ToLower method =? "delete") = true
          <-> (ToLower method = "put" \/ ToLower method = "patch"
               \/ ToLower method = "delete")) as K.
  { rewrite !orb_true_iff, !String.eqb_eq. tauto. }
  destruct ((ToLower method =? "put") || (ToLower method =? "patch")
            || (ToLower method =? "delete")).
  - assert (ToLower method = "put" \/ ToLower method = "patch"
            \/ ToLower method = "delete") as M by now apply K.
    destruct (endsWithID path); simpl; split.
    + discriminate.
    + intros [[F _]|[_ [F _]]]; [contradiction | discriminate].
    + intros [= <-]. right. auto.
    + intros [[F _]|[_ [_ ->]]]; [contradiction | reflexivity].
  - split; [discriminate|].
    intros [[F _]|[M _]]; [contradiction|]. apply K in M. discriminate.
Qed.

Lemma method_issues_In (path : string) (entry : string * value) (issue : Issue) :
  In issue (method_issues path entry) <->
  exists methodDef,
    snd entry = VMap methodDef /\ non_method_key (fst entry) = false
    /\ checkMethodPathConsistency path (fst entry) methodDef = Some issue.
Proof.
  destruct entry as [method methodObj]. unfold method_issues, non_method_key.
  simpl. destruct ((method =? "parameters") || (method =? "summary")
                   || (method =? "description")).
  - split; [intros [] | intros [d [_ [F _]]]; discriminate].
  - destruct methodObj;
      try (split; [intros [] | intros [d [F _]]; discriminate]).
    destruct (checkMethodPathConsistency path method m) as [i|] eqn:C.
    + split.
      * intros [<-|[]]. now exists m.
      * intros [d [[= <-] [_ E]]]. left. congruence.
    + split; [intros []|]. intros [d [[= <-] [_ E]]]. congruence.
Qed.

Lemma rest_issues_In (paths : gomap) (issue : Issue) :
  In issue (flat_map path_issues paths) <->
  exists path pathItem method methodDef,
    In (path, VMap pathItem) paths /\ In (method, VMap methodDef) pathItem
    /\ non_method_key method = false
    /\ checkMethodPathConsistency path method methodDef = Some issue.
Proof.
  rewrite in_flat_map. split.
  - intros [[path pathObj] [Hin Hi]]. simpl in Hi.
    destruct pathObj; try contradiction.
    apply in_flat_map in Hi. destruct Hi as [[method methodObj] [Hm Hi]].
    apply method_issues_In in Hi. destruct Hi as [d [E [K C]]].
    simpl in E, K, C. subst methodObj. now exists path, m, method, d.
  - intros [path [pathItem [method [d [Hp [Hm [K C]]]]]]].
    exists (path, VMap pathItem). split; [exact Hp|]. simpl.
    apply in_flat_map. exists (method, VMap d). split; [exact Hm|].
    apply method_issues_In. now exists d.
Qed.

End rest_rules_facts.

(** ** The condition interpreter *)

Module condition_facts.

Import json_rule.

Lemma first_violation_Some (re : string -> bool) (segments : list string)
    (segment : string) :
  first_violation re segments = Some segment <->
  exists before after,
    segments = (before ++ segment :: after)%list
    /\ (forall s, In s before -> s = "" \/ re s = true)
    /\ segment <> "" /\ re segment = false.
Proof.
  induction segments as [|s rest IH]; simpl.
  - split; [discriminate|]. intros (before & after & E & _).
    now destruct before.
  - destruct (String.eqb_spec s "") as [->|NE].
    + rewrite IH. split.
      * intros (before & after & -> & Hb & Hs). exists ("" :: before), after.
        split; [reflexivity|]. split; [|exact Hs].
        intros x [<-|Hx]; [now left | now apply Hb].
      * intros (before & after & E & Hb & Hne & Hre).
        destruct before as [|b before]; simpl in E.
        -- inversion E. congruence.
        -- inversion E; subst. exists before, after.
           split; [reflexivity|]. split; [|now split].
           intros x Hx. apply Hb. now right.
    + destruct (re s) eqn:R; simpl.
      * rewrite IH. split.
        -- intros (before & after & -> & Hb & Hs). exists (s :: before), after.
           split; [reflexivity|]. split; [|exact Hs].
           intros x [<-|Hx]; [now right | now apply Hb].
        -- intros (before & after & E & Hb & Hne & Hre).
           destruct before as [|b before]; simpl in E.
           ++ inversion E. congruence.
           ++ inversion E; subst. exists before, after.
              split; [reflexivity|]. split; [|now split].
              intros x Hx. apply Hb. now right.
      * split.
        -- intros [= <-]. exists [], rest. repeat split; auto; intros x [].
        -- intros (before & after & E & Hb & Hne & Hre).
           destruct before as [|b before]; simpl in E.
           ++ now inversion E.
           ++ inversion E; subst.
              destruct (Hb b (or_introl eq_refl)); congruence.
Qed.

Lemma first_violation_None (re : string -> bool) (segments : list string) :
  first_violation re segments = None <->
  forall s, In s segments -> s = "" \/ re s = true.
Proof.
  induction segments as [|s rest IH]; simpl.
  - split; [intros _ x [] | reflexivity].
  - destruct (String.eqb_spec s "") as [->|NE].
    + rewrite IH. split.
      * intros Hr x [<-|Hx]; [now left | now apply Hr].
      * intros Hr x Hx. apply Hr. now right.
    + destruct (re s) eqn:R; simpl.
      * rewrite IH. split.
        -- intros Hr x [<-|Hx]; [now right | now apply Hr].
        -- intros Hr x Hx. apply Hr. now right.
      * split; [discriminate|]. intros Hr.
        destruct (Hr s (or_introl eq_refl)); congruence.
Qed.

End condition_facts.

(** ** The condition loop under reordering *)

Module loop_facts.

Import json_rule.

Section WithRegexp.
Context `{Regexp}.

Lemma same_issues_trans (x y z : go (list Issue)) :
  same_issues x y -> same_issues y z -> same_issues x z.
Proof.
  destruct x, y, z; simpl; try tauto. apply Permutation_trans.
Qed.

Lemma run_conditions_acc (spec paths : gomap) (conditions : list Condition) :
  forall found found',
    Permutation found found' ->
    same_issues (run_conditions spec paths conditions found)
                (run_conditions spec paths conditions found').
Proof.
  induction conditions as [|c rest IH]; simpl; intros found found' P.
  - exact P.
  - destruct (condition_issues spec paths c) as [more|e|msg]; simpl; auto.
    apply IH. now apply Permutation_app_tail.
Qed.

Lemma run_conditions_perm (spec paths : gomap)
    (conditions conditions' : list Condition) :
  Permutation conditions conditions' ->
  forall found found',
    Permutation found found' ->
    same_issues (run_conditions spec paths conditions found)
                (run_conditions spec paths conditions' found').
Proof.
  induction 1 as [|c l l' _ IH|c1 c2 l|l1 l2 l3 _ IH1 _ IH2];
    intros found found' P.
  - exact P.
  - simpl. destruct (condition_issues spec paths c) as [more|e|msg];
      simpl; auto.
    apply IH. now apply Permutation_app_tail.
  - simpl.
    destruct (condition_issues spec paths c1) as [m1|e1|g1],
             (condition_issues spec paths c2) as [m2|e2|g2]; simpl; auto.
    apply run_conditions_acc.
    rewrite <- !app_assoc. apply Permutation_app; [exact P|].
    apply Permutation_app_comm.
  - eapply same_issues_trans; [apply IH1; exact P|].
    apply IH2. apply Permutation_refl.
Qed.

Lemma status_of_issues (found found' : list Issue) :
  Permutation found found' ->
  status (result_of_issues found) = status (result_of_issues found').
Proof.
  intros P. destruct found, found'; try reflexivity.
  - now apply Permutation_nil in P.
  - apply Permutation_sym in P. now apply Permutation_nil in P.
Qed.

End WithRegexp.

End loop_facts.

(** ** The engine *)

Module engine_facts.

Import validator.

Lemma lookup_assign_same {A : Type} (k : string) (x : A) (m : list (string * A)) :
  lookup k (assign k x m) = Some x.
Proof.
  induction m as [|[k' y] m IH]; simpl.
  - now rewrite String.eqb_refl.
  - destruct (String.eqb_spec k k') as [->|N]; simpl.
    + now rewrite String.eqb_refl.
    + destruct (String.eqb_spec k k'); [contradiction | exact IH].
Qed.

Lemma lookup_assign_other {A : Type} (k k' : string) (x : A)
    (m : list (string * A)) :
  k' <> k -> lookup k' (assign k x m) = lookup k' m.
Proof.
  intros N. induction m as [|[k0 y] m IH]; simpl.
  - destruct (String.eqb_spec k' k); [contradiction | reflexivity].
  - destruct (String.eqb_spec k k0) as [->|N0]; simpl.
    + destruct (String.eqb_spec k' k0); [contradiction | reflexivity].
    + destruct (String.eqb_spec k' k0); [reflexivity | exact IH].
Qed.

Lemma lookup_assign_cases {A : Type} (k k' : string) (x y : A)
    (m : list (string * A)) :
  lookup k' (assign k x m) = Some y -> y = x \/ lookup k' m = Some y.
Proof.
  destruct (String.eqb_spec k' k) as [->|N].
  - rewrite lookup_assign_same. intros [= <-]. now left.
  - rewrite (lookup_assign_other _ _ N). now right.
Qed.

Lemma has_key_assign {A : Type} (k k' : string) (x : A) (m : list (string * A)) :
  has_key k' (assign k x m) = true -> k' = k \/ has_key k' m = true.
Proof.
  unfold has_key. destruct (String.eqb_spec k' k) as [->|N].
  - now left.
  - rewrite (lookup_assign_other _ _ N). now right.
Qed.

Lemma string_entries_In (rulesParam : list value) (name : string) :
  In name (string_entries rulesParam) <-> In (VStr name) rulesParam.
Proof.
  induction rulesParam as [|x rest IH]; simpl; [tauto|].
  destruct x; simpl; rewrite IH;
    try (split; [now right | intros [F|I]; [discriminate | exact I]]).
  split; intros [E|I]; auto. left. congruence. left. congruence.
Qed.

Lemma string_entries_strings (names : list string) :
  string_entries (map VStr names) = names.
Proof. induction names as [|n rest IH]; simpl; [reflexivity | now rewrite IH]. Qed.

Lemma apply_rules_spec (v : Validator) (spec : option gomap)
    (names : list string) :
  (forall name rule msg,
      In name names -> lookup name (rules v) = Some rule ->
      Apply rule spec <> Panic msg) ->
  forall acc,
  exists found,
    apply_rules v spec names acc = Ok found
    /\ (forall name, In name names ->
          exists res, lookup name found = Some res /\ recorded v spec name res)
    /\ (forall name, ~ In name names -> lookup name found = lookup name acc).
Proof.
  induction names as [|n rest IH]; intros NP acc.
  - exists acc. simpl. split; [reflexivity|]. split; [intros name []|reflexivity].
  - assert (forall name rule msg,
               In name rest -> lookup name (rules v) = Some rule ->
               Apply rule spec <> Panic msg) as NP'.
    { intros name rule msg I. apply NP. now right. }
    assert (exists res,
               recorded v spec n res
               /\ apply_rules v spec (n :: rest) acc
                  = apply_rules v spec rest (assign n res acc))
      as (res & Rn & Step).
    { unfold recorded. simpl.
      destruct (lookup n (rules v)) as [rule|] eqn:L.
      - pose proof (fun msg => NP n rule msg (or_introl eq_refl) L) as NPn.
        destruct (Apply rule spec) as [r|e|msg].
        + now exists r.
        + now eexists.
        + now destruct (NPn msg).
      - now eexists. }
    destruct (IH NP' (assign n res acc)) as (found & Run & Hin & Hout).
    exists found. rewrite Step. split; [exact Run|]. split.
    + intros name [<-|I].
      * destruct (in_dec string_dec n rest) as [I|NI]; [now apply Hin|].
        exists res. rewrite (Hout n NI), lookup_assign_same. now split.
      * now apply Hin.
    + intros name NI. destruct (in_dec string_dec name rest) as [I|NI'].
      * exfalso. apply NI. now right.
      * rewrite (Hout name NI'). apply lookup_assign_other.
        intros ->. apply NI. now left.
Qed.

Lemma Validate_ext `{SpecLoader} (v : Validator) (params params' : gomap) :
  lookup "api_spec" params = lookup "api_spec" params' ->
  rulesToApply v params = rulesToApply v params' ->
  Validate v params = Validate v params'.
Proof. intros A R. unfold Validate. now rewrite A, R. Qed.

End engine_facts.

(** ** Errors returned by the rules *)

Module error_facts.

Section WithRegexp.
Context `{Regexp}.

Lemma builtin_returns (spec : option gomap) :
  (exists res, SolaceRestRules.Apply spec = Ok res)
  /\ (exists res, SolaceSingularUserResourcesRule.Apply spec = Ok res)
  /\ (exists res, SolaceCustomActionsRule.Apply spec = Ok res).
Proof.
  unfold SolaceRestRules.Apply, SolaceSingularUserResourcesRule.Apply,
    SolaceCustomActionsRule.Apply.
  destruct spec as [spec|]; [|repeat split; eexists; reflexivity].
  destruct (as_map (lookup "paths" spec)); repeat split; eexists; reflexivity.
Qed.

Lemma condition_issues_not_err (spec paths : gomap) (c : Condition) (e : string) :
  json_rule.condition_issues spec paths c <> Err e.
Proof.
  unfold json_rule.condition_issues, MustCompile.
  repeat match goal with
         | |- context [if ?b then _ else _] => destruct b
         | |- context [match Compile ?p with _ => _ end] => destruct (Compile p)
         | |- context [match as_map ?x with _ => _ end] => destruct (as_map x)
         end; simpl; discriminate.
Qed.

Lemma run_conditions_not_err (spec paths : gomap) (conditions : list Condition)
    (e : string) :
  forall found, json_rule.run_conditions spec paths conditions found <> Err e.
Proof.
  induction conditions as [|c rest IH]; simpl; intros found; [discriminate|].
  pose proof (condition_issues_not_err spec paths c) as NE.
  destruct (json_rule.condition_issues spec paths c) as [more|e'|msg]; simpl.
  - apply IH.
  - now destruct (NE e').
  - discriminate.
Qed.

Lemma Apply_not_err (r : JSONRule) (spec : option gomap) (e : string) :
  json_rule.Apply r spec <> Err e.
Proof.
  unfold json_rule.Apply. destruct (Enabled r); simpl; [|discriminate].
  destruct spec as [spec|]; [|discriminate].
  destruct (as_map (lookup "paths" spec)) as [paths|]; [|discriminate].
  pose proof (@run_conditions_not_err spec paths (Conditions r) e []) as NE.
  destruct (json_rule.run_conditions spec paths (Conditions r) []); simpl;
    congruence.
Qed.

(** A condition that passes [validate] is evaluated without a panic. *)
Lemma condition_issues_returns (spec paths : gomap) (i : nat) (c : Condition) :
  json_rule.validate_condition i c = None ->
  exists found, json_rule.condition_issues spec paths c = Ok found.
Proof.
  unfold json_rule.validate_condition, json_rule.condition_issues, MustCompile.
  destruct (Type' c =? ""); [discriminate|].
  destruct (Message c =? ""); [discriminate|].
  destruct (Type' c =? "path_pattern").
  { destruct (Pattern c =? ""); [discriminate|].
    destruct (Compile (Pattern c)); [|discriminate].
    intros _. simpl. eexists; reflexivity. }
  destruct (Type' c =? "method_check").
  { intros _. destruct (as_map _); [|eexists; reflexivity].
    destruct (negb _); eexists; reflexivity. }
  destruct (Type' c =? "parameter_check").
  { intros _. destruct (as_map _); [|eexists; reflexivity].
    destruct (negb _); eexists; reflexivity. }
  destruct (Type' c =? "resource_naming").
  { destruct (Pattern c =? ""); [discriminate|].
    destruct (Compile (Pattern c)); [|discriminate].
    intros _. simpl. eexists; reflexivity. }
  destruct (Type' c =? "schema_field"); intros _; eexists; reflexivity.
Qed.

Lemma run_conditions_returns (spec paths : gomap) (conditions : list Condition) :
  forall i found,
    json_rule.validate_conditions i conditions = None ->
    exists all, json_rule.run_conditions spec paths conditions found = Ok all.
Proof.
  induction conditions as [|c rest IH]; simpl; intros i found V.
  - now exists found.
  - destruct (json_rule.validate_condition i c) eqn:Vc; [discriminate|].
    destruct (condition_issues_returns spec paths _ _ Vc) as [more E].
    rewrite E. simpl. eapply IH. eassumption.
Qed.

Lemma Apply_returns (r : JSONRule) (i : nat) (spec : option gomap) :
  json_rule.validate_conditions i (Conditions r) = None ->
  exists res, json_rule.Apply r spec = Ok res.
Proof.
  intros V. unfold json_rule.Apply.
  destruct (Enabled r); simpl; [|eexists; reflexivity].
  destruct spec as [spec|]; [|eexists; reflexivity].
  destruct (as_map (lookup "paths" spec)) as [paths|]; [|eexists; reflexivity].
  destruct (@run_conditions_returns spec paths (Conditions r) i [] V) as [all E].
  rewrite E. simpl. eexists; reflexivity.
Qed.

Lemma validate_conditions_of_validate (r : JSONRule) :
  json_rule.validate r = None ->
  json_rule.validate_conditions 0 (Conditions r) = None.
Proof.
  unfold json_rule.validate.
  destruct (RuleName r =? ""); [discriminate|].
  destruct (RuleDescription r =? ""); [discriminate|].
  destruct (Conditions r); [discriminate | auto].
Qed.

Lemma Forall_assign {A : Type} (P : A -> Prop) (k : string) (x : A)
    (m : list (string * A)) :
  P x -> Forall (fun entry => P (snd entry)) m ->
  Forall (fun entry => P (snd entry)) (assign k x m).
Proof.
  intros Px. induction 1 as [|[k' y] m Py Pm IH]; simpl.
  - now repeat constructor.
  - destruct (k =? k'); constructor; auto.
Qed.

Lemma lookup_Forall {A : Type} (P : A -> Prop) (k : string) (x : A)
    (m : list (string * A)) :
  Forall (fun entry => P (snd entry)) m -> lookup k m = Some x -> P x.
Proof.
  induction 1 as [|[k' y] m Py _ IH]; simpl; [discriminate|].
  destruct (k =? k'); [intros [= <-]; exact Py | exact IH].
Qed.

Lemma loaded_rules_return (files : list JSONRule) :
  forall loaded out,
    Forall (fun entry => returns_nil_error (snd entry)) loaded ->
    validator.LoadJSONRulesFromDir files loaded = Ok out ->
    Forall (fun entry => returns_nil_error (snd entry)) out.
Proof.
  induction files as [|file rest IH]; simpl; intros loaded out Inv L.
  - now injection L as <-.
  - unfold validator.NewJSONRuleFromFile in L.
    destruct (json_rule.validate file) eqn:V; [discriminate|].
    eapply IH; [|exact L].
    apply Forall_assign; [|exact Inv].
    intros spec. simpl.
    apply (@Apply_returns (validator.rename file _) 0 spec). simpl.
    now apply validate_conditions_of_validate.
Qed.

Lemma fold_assign_return (added : list (string * Rule)) :
  Forall (fun entry => returns_nil_error (snd entry)) added ->
  forall registered,
    Forall (fun entry => returns_nil_error (snd entry)) registered ->
    Forall (fun entry => returns_nil_error (snd entry))
           (fold_left (fun acc entry => assign (fst entry) (snd entry) acc)
                      added registered).
Proof.
  induction 1 as [|[k x] rest Px _ IH]; simpl; intros registered Reg.
  - exact Reg.
  - apply IH. now apply Forall_assign.
Qed.

Lemma builtin_registry_returns :
  Forall (fun entry => returns_nil_error (snd entry))
         (rules (validator.registerBuiltInRules (mkValidator []))).
Proof.
  repeat constructor; intros spec; simpl; apply builtin_returns.
Qed.

Lemma registry_returns (files : list JSONRule) :
  Forall (fun entry => returns_nil_error (snd entry))
         (rules (validator.NewValidator files)).
Proof.
  unfold validator.NewValidator, validator.registerJSONRules.
  destruct (validator.LoadJSONRulesFromDir files []) as [jsonRules|e|msg] eqn:L;
    try apply builtin_registry_returns.
  simpl. apply fold_assign_return.
  - eapply loaded_rules_return; [|exact L]. constructor.
  - apply builtin_registry_returns.
Qed.

End WithRegexp.

End error_facts.

(** ** The rules under reordering of the maps *)

Module order_facts.

Lemma same_map_refl (m : gomap) : same_map m m.
Proof.
  induction m as [|[k v] m IH]; constructor; [apply same_refl | exact IH].
Qed.

Lemma same_map_keys (m m' : gomap) :
  same_map m m' -> Permutation (map fst m) (map fst m').
Proof.
  induction 1 as [|k v v' m m' _ _ IH|[k1 v1] [k2 v2] m|m1 m2 m3 _ IH1 _ IH2];
    simpl.
  - constructor.
  - now constructor.
  - constructor.
  - eapply Permutation_trans; eassumption.
Qed.

Lemma has_key_In {A : Type} (k : string) (m : list (string * A)) :
  has_key k m = true <-> In k (map fst m).
Proof.
  unfold has_key. induction m as [|[k' v] m IH]; simpl.
  - split; [discriminate | tauto].
  - destruct (String.eqb_spec k k') as [->|N].
    + split; auto.
    + rewrite IH. split; [now right|]. intros [E|I]; [congruence | exact I].
Qed.

Lemma has_key_same_map (k : string) (m m' : gomap) :
  same_map m m' -> has_key k m = has_key k m'.
Proof.
  intros S. apply same_map_keys in S.
  destruct (has_key k m) eqn:E, (has_key k m') eqn:E'; try reflexivity.
  - apply has_key_In in E. apply (Permutation_in _ S) in E.
    apply has_key_In in E. congruence.
  - apply has_key_In in E'.
    apply (Permutation_in _ (Permutation_sym S)) in E'.
    apply has_key_In in E'. congruence.
Qed.

Lemma same_option_refl (x : option value) : same_option x x.
Proof. destruct x; simpl; [apply same_refl | exact I]. Qed.

Lemma same_option_trans (x y z : option value) :
  same_option x y -> same_option y z -> same_option x z.
Proof.
  destruct x, y, z; simpl; try tauto. apply same_value_trans.
Qed.

Lemma lookup_same_map (m m' : gomap) :
  same_map m m' -> NoDup (map fst m) ->
  forall k, same_option (lookup k m) (lookup k m').
Proof.
  induction 1 as [|k0 v v' m m' Sv _ IH|[k1 v1] [k2 v2] m|m1 m2 m3 S1 IH1 _ IH2];
    intros ND k.
  - exact I.
  - simpl. destruct (k =? k0); [exact Sv|]. apply IH. now inversion ND.
  - simpl. destruct (String.eqb_spec k k1) as [E1|N1];
      destruct (String.eqb_spec k k2) as [E2|N2];
      try apply same_option_refl.
    exfalso. subst. simpl in ND. inversion ND as [|? ? NI _]. apply NI. now left.
  - eapply same_option_trans; [now apply IH1|]. apply IH2.
    eapply Permutation_NoDup; [|exact ND]. now apply same_map_keys.
Qed.

Lemma same_value_shape (v v' : value) :
  same_value v v' ->
  match v, v' with
  | VMap m, VMap m' => same_map m m'
  | VMap _, _ => False
  | _, VMap _ => False
  | _, _ => True
  end.
Proof.
  induction 1 as [v|m m' S|l l' _|v1 v2 v3 _ IH1 _ IH2].
  - destruct v; try exact I. apply same_map_refl.
  - exact S.
  - exact I.
  - destruct v1, v2, v3; simpl in *; try tauto.
    eapply same_map_trans; eassumption.
Qed.

Lemma as_map_same (x y : option value) :
  same_option x y -> same_option_map (as_map x) (as_map y).
Proof.
  destruct x as [v|], y as [v'|]; simpl; try tauto.
  intros S. apply same_value_shape in S.
  destruct v, v'; simpl in *; tauto.
Qed.

(** The keys stay unique, at every depth, in every visiting order. *)
Lemma well_keyed_same :
  (forall v v', same_value v v' -> well_keyed v -> well_keyed v')
  /\ (forall m m', same_map m m' ->
        (forall k v, In (k, v) m -> well_keyed v) ->
        forall k v, In (k, v) m' -> well_keyed v)
  /\ (forall l l', same_list l l' -> True).
Proof.
  apply same_mutind; try tauto.
  - intros m m' S IH W. inversion W as [? ND Hd|? Leaf]; subst.
    + apply well_keyed_map.
      * eapply Permutation_NoDup; [|exact ND]. now apply same_map_keys.
      * now apply IH.
    + now destruct (Leaf m).
  - intros l l' _ _ _. apply well_keyed_leaf. discriminate.
  - intros k v v' m m' _ IHv _ IHm Hd k0 x [E|I].
    + injection E as <- <-. apply IHv. apply (Hd k). now left.
    + apply (IHm (fun k1 v1 I1 => Hd k1 v1 (or_intror I1)) k0 x I).
  - intros e1 e2 m Hd k v I. apply (Hd k). simpl in *. tauto.
Qed.

Lemma well_keyed_lookup (m : gomap) (k : string) (v : value) :
  well_keyed (VMap m) -> lookup k m = Some v -> well_keyed v.
Proof.
  intros W L. inversion W as [? _ Hd|? Leaf]; subst; [|now destruct (Leaf m)].
  apply (Hd k). clear W Hd. induction m as [|[k' x] m IH]; simpl in *.
  - discriminate.
  - destruct (String.eqb_spec k k') as [->|N].
    + injection L as <-. now left.
    + right. now apply IH.
Qed.

Lemma well_keyed_NoDup (m : gomap) : well_keyed (VMap m) -> NoDup (map fst m).
Proof.
  intros W. inversion W as [? ND _|? Leaf]; subst; [exact ND|].
  now destruct (Leaf m).
Qed.

(** A loop over the entries that appends, for each entry, issues that do
    not depend on the visiting order inside the entry. *)
Lemma flat_map_same_map (f : string * value -> list Issue) (m m' : gomap) :
  same_map m m' ->
  (forall k v v', same_value v v' -> well_keyed v ->
                  Permutation (f (k, v)) (f (k, v'))) ->
  (forall k v, In (k, v) m -> well_keyed v) ->
  Permutation (flat_map f m) (flat_map f m').
Proof.
  induction 1 as [|k v v' m m' Sv Sm IH|e1 e2 m|m1 m2 m3 S1 IH1 S2 IH2];
    intros Hf W.
  - constructor.
  - simpl. apply Permutation_app.
    + apply Hf; [exact Sv | apply (W k); now left].
    + apply IH; [exact Hf|]. intros k0 x I. apply (W k0). now right.
  - simpl. rewrite !app_assoc. apply Permutation_app_tail.
    apply Permutation_app_comm.
  - eapply Permutation_trans; [now apply IH1|].
    apply IH2; [exact Hf|].
    exact (proj1 (proj2 well_keyed_same) m1 m2 S1 W).
Qed.

Lemma well_keyed_entries (m : gomap) :
  well_keyed (VMap m) -> forall k v, In (k, v) m -> well_keyed v.
Proof.
  intros W. inversion W as [? _ Hd|? Leaf]; subst; [exact Hd|].
  now destruct (Leaf m).
Qed.

Lemma same_result_refl (r : Result) : same_result r r.
Proof.
  unfold same_result. repeat split. destruct (issues r); auto.
Qed.

Lemma same_result_of_issues (found found' : list Issue) :
  Permutation found found' ->
  same_result (result_of_issues found) (result_of_issues found').
Proof.
  intros P. destruct found as [|i l], found' as [|i' l'].
  - apply same_result_refl.
  - now apply Permutation_nil in P.
  - apply Permutation_sym in P. now apply Permutation_nil in P.
  - unfold same_result. simpl. auto.
Qed.

(** The paths of the same spec are the same map, and well keyed. *)
Lemma paths_same (spec spec' : gomap) :
  same_map spec spec' -> well_keyed (VMap spec) ->
  same_option_map (as_map (lookup "paths" spec)) (as_map (lookup "paths" spec'))
  /\ forall paths, as_map (lookup "paths" spec) = Some paths ->
                   well_keyed (VMap paths).
Proof.
  intros S W. split.
  - apply as_map_same. apply lookup_same_map; [exact S|].
    now apply well_keyed_NoDup.
  - intros paths E. destruct (lookup "paths" spec) as [v|] eqn:L;
      [|discriminate].
    destruct v; try discriminate. injection E as <-.
    eapply well_keyed_lookup; eassumption.
Qed.






Lemma field_declared_same (field : string) (v v' : value) :
  same_value v v' -> well_keyed v ->
  field_declared field v = field_declared field v'.
Proof.
  intros S W. pose proof (same_value_shape S) as Sh.
  destruct v, v'; simpl in Sh; try contradiction; try reflexivity.
  simpl.
  pose proof (as_map_same _ _
                (lookup_same_map Sh (well_keyed_NoDup W) "properties")) as P.
  destruct (as_map (lookup "properties" m)) as [props|],
           (as_map (lookup "properties" m0)) as [props'|];
    simpl in P; try contradiction; [|reflexivity].
  now apply has_key_same_map.
Qed.

Lemma existsb_same_map (g : value -> bool) (m m' : gomap) :
  same_map m m' ->
  (forall v v', same_value v v' -> well_keyed v -> g v = g v') ->
  (forall k v, In (k, v) m -> well_keyed v) ->
  existsb (fun entry => g (snd entry)) m
  = existsb (fun entry => g (snd entry)) m'.
Proof.
  induction 1 as [|k v v' m m' Sv Sm IH|e1 e2 m|m1 m2 m3 S1 IH1 S2 IH2];
    intros Hg W.
  - reflexivity.
  - simpl. rewrite (Hg v v' Sv (W k v (or_introl eq_refl))). f_equal.
    apply IH; [exact Hg|]. intros k0 x I. apply (W k0). now right.
  - simpl. rewrite !orb_assoc. f_equal. apply orb_comm.
  - rewrite (IH1 Hg W). apply IH2; [exact Hg|].
    exact (proj1 (proj2 well_keyed_same) m1 m2 S1 W).
Qed.

(** Without a format, the scan of the schemas appends nothing and finds the
    field exactly when some schema declares it. *)
Lemma scan_schemas_no_format (c : Condition) (schemas : gomap) :
  Format c = "" ->
  json_rule.scan_schemas c schemas
  = ([], existsb (fun entry => field_declared (Field c) (snd entry)) schemas).
Proof.
  intros F. induction schemas as [|[name obj] rest IH]; [reflexivity|].
  cbn [json_rule.scan_schemas existsb snd].
  destruct obj; cbn [field_declared orb]; try exact IH.
  destruct (as_map (lookup "properties" m)) as [props|]; [|exact IH].
  rewrite F. cbn [String.eqb negb].
  destruct (has_key (Field c) props); [reflexivity | exact IH].
Qed.

Lemma locate_schemas_same (spec spec' : gomap) :
  same_map spec spec' -> well_keyed (VMap spec) ->
  same_option_map (json_rule.locate_schemas spec) (json_rule.locate_schemas spec')
  /\ forall schemas, json_rule.locate_schemas spec = Some schemas ->
                     well_keyed (VMap schemas).
Proof.
  intros S W. unfold json_rule.locate_schemas.
  pose proof (well_keyed_NoDup W) as ND.
  pose proof (as_map_same _ _ (lookup_same_map S ND "components")) as C.
  pose proof (as_map_same _ _ (lookup_same_map S ND "definitions")) as D.
  destruct (lookup "components" spec) as [cv|] eqn:Lc.
  - pose proof (well_keyed_lookup _ W Lc) as Wc.
    destruct cv; simpl in C |- *;
      try (destruct (as_map (lookup "components" spec')); [contradiction|];
           split; [exact D|];
           intros schemas E;
           destruct (lookup "definitions" spec) as [dv|] eqn:Ld;
             [|discriminate];
           destruct dv; try discriminate; injection E as <-;
           eapply well_keyed_lookup; eassumption).
    destruct (as_map (lookup "components" spec')) as [m'|]; [|contradiction].
    pose proof (as_map_same _ _
                  (lookup_same_map C (well_keyed_NoDup Wc) "schemas")) as Sc.
    split; [exact Sc|].
    intros schemas E. destruct (lookup "schemas" m) as [sv|] eqn:Ls;
      [|discriminate].
    destruct sv; try discriminate. injection E as <-.
    eapply well_keyed_lookup; eassumption.
  - simpl in C |- *.
    destruct (as_map (lookup "components" spec')); [contradiction|].
    split; [exact D|].
    intros schemas E. destruct (lookup "definitions" spec) as [dv|] eqn:Ld;
      [|discriminate].
    destruct dv; try discriminate. injection E as <-.
    eapply well_keyed_lookup; eassumption.
Qed.

Lemma schema_field_issues_same (spec spec' : gomap) (c : Condition) :
  Format c = "" -> same_map spec spec' -> well_keyed (VMap spec) ->
  json_rule.schema_field_issues spec c = json_rule.schema_field_issues spec' c.
Proof.
  intros F S W. unfold json_rule.schema_field_issues.
  destruct (locate_schemas_same S W) as [L Wl].
  destruct (json_rule.locate_schemas spec) as [schemas|],
           (json_rule.locate_schemas spec') as [schemas'|];
    simpl in L; try contradiction; [|reflexivity].
  rewrite !(@scan_schemas_no_format c _ F).
  rewrite (existsb_same_map (field_declared (Field c)) L
             (field_declared_same (Field c))
             (well_keyed_entries (Wl schemas eq_refl))).
  reflexivity.
Qed.

Section WithRegexp.
Context `{Regexp}.

Lemma condition_issues_same (spec spec' paths paths' : gomap) (c : Condition) :
  same_map spec spec' -> well_keyed (VMap spec) ->
  same_map paths paths' -> well_keyed (VMap paths) ->
  without_format c ->
  same_found (json_rule.condition_issues spec paths c)
             (json_rule.condition_issues spec' paths' c).
Proof.
  intros S W Sp Wp NF. unfold json_rule.condition_issues, MustCompile.
  destruct (Type' c =? "path_pattern").
  { destruct (Compile (Pattern c)) as [re|e]; simpl; [|reflexivity].
    apply flat_map_same_map;
      [exact Sp | | now apply well_keyed_entries].
    intros k v v' _ _. apply Permutation_refl. }
  destruct (Type' c =? "method_check").
  { pose proof (as_map_same _ _
                  (lookup_same_map Sp (well_keyed_NoDup Wp) (Path c))) as P.
    destruct (as_map (lookup (Path c) paths)) as [item|],
             (as_map (lookup (Path c) paths')) as [item'|];
      simpl in P; try contradiction; [|apply Permutation_refl].
    rewrite (has_key_same_map _ P).
    destruct (negb _); apply Permutation_refl. }
  destruct (Type' c =? "parameter_check").
  { pose proof (as_map_same _ _
                  (lookup_same_map Sp (well_keyed_NoDup Wp) (Path c))) as P.
    destruct (as_map (lookup (Path c) paths)) as [item|],
             (as_map (lookup (Path c) paths')) as [item'|];
      simpl in P; try contradiction; [|apply Permutation_refl].
    rewrite (has_key_same_map _ P).
    destruct (negb _); apply Permutation_refl. }
  destruct (Type' c =? "resource_naming").
  { destruct (Compile (Pattern c)) as [re|e]; simpl; [|reflexivity].
    apply flat_map_same_map;
      [exact Sp | | now apply well_keyed_entries].
    intros k v v' _ _. apply Permutation_refl. }
  destruct (String.eqb_spec (Type' c) "schema_field") as [T|_].
  { simpl. rewrite (schema_field_issues_same c (NF T) S W).
    apply Permutation_refl. }
  apply Permutation_refl.
Qed.

Lemma run_conditions_same (spec spec' paths paths' : gomap)
    (conditions : list Condition) :
  same_map spec spec' -> well_keyed (VMap spec) ->
  same_map paths paths' -> well_keyed (VMap paths) ->
  Forall without_format conditions ->
  forall found found',
    Permutation found found' ->
    same_found (json_rule.run_conditions spec paths conditions found)
               (json_rule.run_conditions spec' paths' conditions found').
Proof.
  intros S W Sp Wp. induction 1 as [|c rest NF _ IH]; intros found found' P.
  - exact P.
  - simpl.
    pose proof (@condition_issues_same spec spec' paths paths' c S W Sp Wp NF)
      as C.
    destruct (json_rule.condition_issues spec paths c) as [more|e|msg],
             (json_rule.condition_issues spec' paths' c) as [more'|e'|msg'];
      simpl in C |- *; try contradiction; try exact C.
    apply IH. now apply Permutation_app.
Qed.

Lemma json_rule_order_independent (r : JSONRule) :
  Forall without_format (Conditions r) ->
  order_independent (json_rule.asRule r).
Proof.
  intros NF spec spec' S W. simpl. unfold json_rule.Apply.
  destruct (Enabled r); simpl; [|apply same_result_refl].
  destruct spec as [spec|], spec' as [spec'|]; simpl in S; try contradiction;
    [|apply same_result_refl].
  destruct (paths_same S W) as [P Wp].
  destruct (as_map (lookup "paths" spec)) as [paths|],
           (as_map (lookup "paths" spec')) as [paths'|];
    simpl in P; try contradiction; [|apply same_result_refl].
  pose proof (run_conditions_same S W P (Wp paths eq_refl) NF
                (Permutation_refl [])) as R.
  destruct (json_rule.run_conditions spec paths (Conditions r) []) as [f|e|m],
           (json_rule.run_conditions spec' paths' (Conditions r) [])
             as [f'|e'|m'];
    simpl in R |- *; try contradiction; try exact R.
  now apply same_result_of_issues.
Qed.

End WithRegexp.



End order_facts.

(** ** What the engine records *)

Module report_facts.

Import validator.

Lemma assign_keys {A : Type} (k : string) (x : A) (m : list (string * A)) :
  map fst (assign k x m)
  = if has_key k m then map fst m else (map fst m ++ [k])%list.
Proof.
  unfold has_key. induction m as [|[k' y] m IH]; simpl; [reflexivity|].
  destruct (k =? k'); simpl; [reflexivity|]. rewrite IH.
  now destruct (lookup k m).
Qed.

Lemma assign_NoDup {A : Type} (k : string) (x : A) (m : list (string * A)) :
  NoDup (map fst m) -> NoDup (map fst (assign k x m)).
Proof.
  intros ND. rewrite assign_keys. destruct (has_key k m) eqn:K; [exact ND|].
  apply NoDup_app; [exact ND | repeat constructor; tauto|].
  intros n Hn [<-|[]]. apply order_facts.has_key_In in Hn. congruence.
Qed.

Lemma assign_In_keys {A : Type} (k n : string) (x : A) (m : list (string * A)) :
  In n (map fst (assign k x m)) <-> n = k \/ In n (map fst m).
Proof.
  rewrite assign_keys. destruct (has_key k m) eqn:K.
  - split; [now right|]. intros [->|I]; [|exact I].
    now apply order_facts.has_key_In.
  - rewrite in_app_iff. simpl. intuition congruence.
Qed.

(** One turn of the loop of [Validate]: it stops with a panic, or assigns
    one result. *)
Lemma apply_rules_step (v : Validator) (spec : option gomap) (n : string)
    (rest : list string) (acc : list (string * Result)) :
  (exists msg rule,
      lookup n (rules v) = Some rule /\ Apply rule spec = Panic msg
      /\ apply_rules v spec (n :: rest) acc = Panic msg)
  \/ exists res,
       recorded v spec n res
       /\ apply_rules v spec (n :: rest) acc
          = apply_rules v spec rest (assign n res acc).
Proof.
  unfold recorded. simpl. destruct (lookup n (rules v)) as [rule|].
  - destruct (Apply rule spec) as [r|e|msg] eqn:A.
    + right. now exists r.
    + right. now eexists.
    + left. exists msg, rule. now repeat split.
  - right. now eexists.
Qed.

Lemma apply_rules_not_err (v : Validator) (spec : option gomap)
    (names : list string) :
  forall acc e, apply_rules v spec names acc <> Err e.
Proof.
  induction names as [|n rest IH]; intros acc e; [discriminate|].
  destruct (apply_rules_step v spec n rest acc)
    as [(msg & rule & _ & _ & ->)|(res & _ & ->)]; [discriminate | apply IH].
Qed.

Lemma apply_rules_Ok (v : Validator) (spec : option gomap) (names : list string) :
  forall acc found,
    apply_rules v spec names acc = Ok found ->
    (NoDup (map fst acc) -> NoDup (map fst found))
    /\ (forall n, In n (map fst found) <-> In n (map fst acc) \/ In n names)
    /\ (forall n, In n names ->
          exists res, lookup n found = Some res /\ recorded v spec n res)
    /\ (forall (P : Result -> Prop),
          (forall n res, In n names -> recorded v spec n res -> P res) ->
          Forall (fun entry => P (snd entry)) acc ->
          Forall (fun entry => P (snd entry)) found).
Proof.
  induction names as [|n rest IH]; intros acc found R.
  - injection R as <-. split; [auto|]. split; [simpl; tauto|].
    split; [intros n []|auto].
  - destruct (apply_rules_step v spec n rest acc)
      as [(msg & rule & _ & _ & E)|(res & Rec & E)];
      rewrite E in R; [discriminate|].
    destruct (IH _ _ R) as (ND & Keys & Rec' & All).
    split; [|split; [|split]].
    + intros NDa. apply ND. now apply assign_NoDup.
    + intros k. rewrite Keys, assign_In_keys. simpl. intuition congruence.
    + intros k [<-|I]; [|now apply Rec'].
      destruct (in_dec string_dec n rest) as [I|NI]; [now apply Rec'|].
      exists res. split; [|exact Rec].
      assert (forall l acc' out,
                 apply_rules v spec l acc' = Ok out -> ~ In n l ->
                 lookup n out = lookup n acc') as Keep.
      { induction l as [|m l IHl]; intros acc' out Rl NIl.
        - now injection Rl as <-.
        - destruct (apply_rules_step v spec m l acc')
            as [(msg & rule & _ & _ & El)|(res' & _ & El)];
            rewrite El in Rl; [discriminate|].
          rewrite (IHl _ _ Rl); [|intros F; apply NIl; now right].
          apply engine_facts.lookup_assign_other.
          intros ->. apply NIl. now left. }
      rewrite (Keep _ _ _ R NI). apply engine_facts.lookup_assign_same.
    + intros P HP Pacc. apply All.
      * intros k r I. apply HP. now right.
      * apply error_facts.Forall_assign; [|exact Pacc].
        apply (HP n); [now left | exact Rec].
Qed.

Lemma recorded_fun (v : Validator) (spec : option gomap) (name : string)
    (res res' : Result) :
  recorded v spec name res -> recorded v spec name res' -> res = res'.
Proof.
  unfold recorded. destruct (lookup name (rules v)) as [rule|]; [|congruence].
  destruct (Apply rule spec); [congruence | congruence | contradiction].
Qed.

Lemma Forall_fold_assign {A : Type} (P : A -> Prop) (added : list (string * A)) :
  Forall (fun entry => P (snd entry)) added ->
  forall registered,
    Forall (fun entry => P (snd entry)) registered ->
    Forall (fun entry => P (snd entry))
           (fold_left (fun acc entry => assign (fst entry) (snd entry) acc)
                      added registered).
Proof.
  induction 1 as [|[k x] rest Px _ IH]; simpl; intros registered Reg.
  - exact Reg.
  - apply IH. now apply error_facts.Forall_assign.
Qed.

Lemma well_formed_error (msg : string) : well_formed_result (error_result msg).
Proof. right. right. simpl. split; [now left|]. split; [now exists msg | reflexivity]. Qed.

Lemma well_formed_of_issues (found : list Issue) :
  well_formed_result (result_of_issues found).
Proof.
  destruct found as [|i l]; [left; now repeat split|].
  right. left. simpl. repeat split. now exists i, l.
Qed.

Lemma builtin_well_formed :
  well_formed_results NewSolaceRestRules
  /\ well_formed_results NewSolaceSingularUserResourcesRule
  /\ well_formed_results NewSolaceCustomActionsRule.
Proof.
  repeat split; intros spec res; simpl;
    unfold SolaceRestRules.Apply, SolaceSingularUserResourcesRule.Apply,
      SolaceCustomActionsRule.Apply;
    (destruct spec as [spec|];
     [destruct (as_map (lookup "paths" spec))|]);
    intros [= <-];
    first [apply well_formed_error | apply well_formed_of_issues].
Qed.

Section WithRegexp.
Context `{Regexp}.

Lemma json_rule_well_formed (r : JSONRule) :
  well_formed_results (json_rule.asRule r).
Proof.
  intros spec res. simpl. unfold json_rule.Apply.
  destruct (Enabled r); simpl.
  - destruct spec as [spec|]; [|intros [= <-]; apply well_formed_error].
    destruct (as_map (lookup "paths" spec)) as [paths|];
      [|intros [= <-]; apply well_formed_error].
    destruct (json_rule.run_conditions spec paths (Conditions r) []);
      simpl; intros [= <-]. apply well_formed_of_issues.
  - intros [= <-]. right. right. simpl. split; [now right|].
    split; [now eexists | reflexivity].
Qed.

(** Every rule of a registry built by [NewValidator] is a built-in rule or
    a JSON rule. *)
Lemma registry_Forall (P : Rule -> Prop) (files : list JSONRule) :
  P NewSolaceRestRules -> P NewSolaceSingularUserResourcesRule ->
  P NewSolaceCustomActionsRule ->
  (forall r, P (json_rule.asRule r)) ->
  Forall (fun entry => P (snd entry)) (rules (NewValidator files)).
Proof.
  intros P1 P2 P3 PJ.
  assert (Forall (fun entry => P (snd entry)) builtin_rules) as B
    by (repeat constructor; assumption).
  assert (forall l loaded0 loaded,
             Forall (fun entry => P (snd entry)) loaded0 ->
             LoadJSONRulesFromDir l loaded0 = Ok loaded ->
             Forall (fun entry => P (snd entry)) loaded) as Load.
  { induction l as [|file rest IH]; simpl; intros loaded0 loaded Inv L.
    - now injection L as <-.
    - unfold NewJSONRuleFromFile in L.
      destruct (json_rule.validate file); [discriminate|].
      eapply IH; [|exact L]. apply error_facts.Forall_assign; [apply PJ | exact Inv]. }
  unfold NewValidator, registerJSONRules.
  destruct (LoadJSONRulesFromDir files []) as [jsonRules|e|msg] eqn:L;
    try exact B.
  simpl. apply Forall_fold_assign; [|exact B].
  eapply Load; [|exact L]. constructor.
Qed.

End WithRegexp.

End report_facts.

(** * The properties of the specification *)

(** C1, as stated, fails on the code.  The claim promises an issue for every
    POST entry of a path whose last segment is a parameter, and none for a
    POST entry of a path whose last segment is not one.  [Apply] skips an
    entry whose operation is not a mapping, so the null POST operation under
    /widgets/{id} passes; and it tests the whole path (contains "/{", ends
    with "}"), so POST under /files/{dir}/report.{ext} is reported although
    the last segment report.{ext} is not brace-delimited, and PUT under the
    one-segment path {id} is reported although that segment is. *)
Lemma method_path_consistency_as_stated_fails :
  (ends_in_parameter "/widgets/{id}"
   /\ SolaceRestRules.Apply (Some widget_null_post_spec) = Ok passed)
  /\ (~ ends_in_parameter "/files/{dir}/report.{ext}"
      /\ SolaceRestRules.Apply (Some report_post_spec)
         = Ok (failed [path_method_issue "/files/{dir}/report.{ext}" "post"
                         post_message]))
  /\ (ends_in_parameter "{id}"
      /\ SolaceRestRules.Apply (Some bare_put_spec)
         = Ok (failed [path_method_issue "{id}" "put" (resource_message "put")])).
Proof.
  split; [|split]; split.
  - exists "id". reflexivity.
  - reflexivity.
  - intros [name W]. unfold wrapped in W. vm_compute in W. discriminate.
  - reflexivity.
  - exists "id". reflexivity.
  - reflexivity.
Qed.

(** C1 (amended).  For every (path, method) entry of spec.paths whose path
    item and operation are mappings, whose key is not parameters, summary or
    description, and whose path holds a slash and has a last segment that,
    if it ends with a closing brace, starts with an opening one: with
    the method name compared in lower case, [Apply] emits no issue for get;
    it emits an issue for post exactly when the last segment is a
    brace-delimited parameter; and it emits an issue for put, patch or delete
    exactly when it is not.  The spec {/widgets: {post}, /widgets/{id}:
    {get, put}} passes, and {/widgets/{id}: {post}} fails with the single
    issue naming /widgets/{id} and post. *)
Theorem method_path_consistency :
  (forall (spec paths pathItem methodDef : gomap) (path method : string),
      as_map (lookup "paths" spec) = Some paths ->
      In (path, VMap pathItem) paths ->
      In (method, VMap methodDef) pathItem ->
      non_method_key method = false ->
      strings.Contains path "/" = true ->
      (strings.HasSuffix (last_segment path) "}" = true ->
       strings.HasPrefix (last_segment path) "{" = true) ->
      (strings.ToLower method = "get" ->
       ~ exists msg,
           In (path_method_issue path "get" msg)
              (issues_of (SolaceRestRules.Apply (Some spec))))
      /\ (strings.ToLower method = "post" ->
          ((exists msg,
              In (path_method_issue path "post" msg)
                 (issues_of (SolaceRestRules.Apply (Some spec))))
           <-> ends_in_parameter path))
      /\ (strings.ToLower method = "put" \/ strings.ToLower method = "patch"
          \/ strings.ToLower method = "delete" ->
          ((exists msg,
              In (path_method_issue path (strings.ToLower method) msg)
                 (issues_of (SolaceRestRules.Apply (Some spec))))
           <-> ~ ends_in_parameter path)))
  /\ SolaceRestRules.Apply (Some widgets_spec) = Ok passed
  /\ SolaceRestRules.Apply (Some widget_post_spec)
     = Ok (failed [path_method_issue "/widgets/{id}" "post" post_message]).
Proof.
  split; [|split; reflexivity].
  intros spec paths pathItem methodDef path method Hpaths Hpath Hmethod Hkey
         Hslash Hshape.
  pose proof (rest_rules_facts.endsWithID_iff path Hslash Hshape) as ID.
  unfold SolaceRestRules.Apply. rewrite Hpaths.
  rewrite rest_rules_facts.issues_of_result.
  split; [|split].
  - intros _ [msg Hin]. apply rest_rules_facts.rest_issues_In in Hin.
    destruct Hin as (p' & item' & m' & d' & _ & _ & _ & C).
    apply rest_rules_facts.check_Some in C.
    destruct C as [(_ & _ & E)|(M & _ & E)].
    + discriminate.
    + injection E as _ Em _. rewrite <- Em in M.
      destruct M as [F|[F|F]]; discriminate.
  - intros Hpost. split.
    + intros [msg Hin]. apply rest_rules_facts.rest_issues_In in Hin.
      destruct Hin as (p' & item' & m' & d' & _ & _ & _ & C).
      apply rest_rules_facts.check_Some in C.
      destruct C as [(_ & Y & E)|(M & _ & E)].
      * injection E as Ep _. subst p'. now apply ID.
      * injection E as _ Em _. rewrite <- Em in M.
        destruct M as [F|[F|F]]; discriminate.
    + intros Hend. exists post_message.
      apply rest_rules_facts.rest_issues_In.
      exists path, pathItem, method, methodDef.
      split; [assumption|]. split; [assumption|]. split; [assumption|].
      apply rest_rules_facts.check_Some. left.
      split; [assumption|]. split; [now apply ID | reflexivity].
  - intros Hres. split.
    + intros [msg Hin] Hend. apply rest_rules_facts.rest_issues_In in Hin.
      destruct Hin as (p' & item' & m' & d' & _ & _ & _ & C).
      apply rest_rules_facts.check_Some in C.
      destruct C as [(P & _ & E)|(_ & N & E)].
      * injection E as _ Em _. rewrite Em in Hres.
        destruct Hres as [F|[F|F]]; discriminate.
      * injection E as Ep _. subst p'. apply ID in Hend. congruence.
    + intros Hnot. exists (resource_message (strings.ToLower method)).
      apply rest_rules_facts.rest_issues_In.
      exists path, pathItem, method, methodDef.
      split; [assumption|]. split; [assumption|]. split; [assumption|].
      apply rest_rules_facts.check_Some. right.
      split; [assumption|]. split; [|reflexivity].
      destruct (SolaceRestRules.endsWithID path); [|reflexivity].
      exfalso. apply Hnot. now apply ID.
Qed.

(** C1, at the entry (/widgets/{id}, post) of the failing scenario. *)
Lemma method_path_consistency_witness :
  (exists msg,
      In (path_method_issue "/widgets/{id}" "post" msg)
         (issues_of (SolaceRestRules.Apply (Some widget_post_spec))))
  <-> ends_in_parameter "/widgets/{id}".
Proof.
  refine (proj1 (proj2
    (proj1 method_path_consistency widget_post_spec
       [("/widgets/{id}", VMap [("post", VMap [])])] [("post", VMap [])] []
       "/widgets/{id}" "post" _ _ _ _ _ _)) _);
    try reflexivity; simpl; auto.
Defined.

(** C2, as stated, fails on the code.  The claim has the interpreter fall
    back to the top-level definitions whenever components.schemas is absent.
    The code falls back only when components itself is not a mapping: on a
    document with a components mapping that holds no schemas, the
    definitions are never read and the no-schema issue is emitted, although
    the definitions exist and satisfy the condition. *)
Lemma schema_lookup_as_stated_fails :
  locate_schemas_as_specified mixed_spec = Some audit_definitions
  /\ json_rule.schema_field_issues
       [("paths", VMap []); ("definitions", VMap audit_definitions)]
       created_time_condition = []
  /\ json_rule.schema_field_issues mixed_spec created_time_condition
     = [field_issue "createdTime" no_schemas_message]
  /\ @json_rule.Apply sample_regexp audit_rule (Some mixed_spec)
     = Ok (failed [field_issue "createdTime" no_schemas_message]).
Proof. repeat split. Qed.

Section SchemaField.
Context `{Regexp}.

Import json_rule.

(** C2 (amended).  A schema_field condition scans components.schemas when
    components is a mapping that holds a schemas mapping, and the top-level
    definitions when components is absent or not a mapping and definitions
    is a mapping.  When components is a mapping without a schemas mapping,
    whatever the definitions are, or when components and definitions are
    both not mappings, the condition emits exactly one issue, carrying the
    field and the message that no schema definitions were found, and nothing
    else of the condition is evaluated.  A rule made of the
    createdTime/date-time condition, applied to a spec with paths and
    without components and definitions, fails with exactly that one
    issue. *)
Theorem schema_field_lookup (spec paths : gomap) (condition : Condition) :
  Type' condition = "schema_field" ->
  (forall components schemas,
      as_map (lookup "components" spec) = Some components ->
      as_map (lookup "schemas" components) = Some schemas ->
      condition_issues spec paths condition
      = Ok (scan_issues condition (scan_schemas condition schemas)))
  /\ (forall schemas,
        as_map (lookup "components" spec) = None ->
        as_map (lookup "definitions" spec) = Some schemas ->
        condition_issues spec paths condition
        = Ok (scan_issues condition (scan_schemas condition schemas)))
  /\ (forall components,
        as_map (lookup "components" spec) = Some components ->
        as_map (lookup "schemas" components) = None ->
        condition_issues spec paths condition
        = Ok [field_issue (Field condition) no_schemas_message])
  /\ (as_map (lookup "components" spec) = None ->
      as_map (lookup "definitions" spec) = None ->
      condition_issues spec paths condition
      = Ok [field_issue (Field condition) no_schemas_message])
  /\ (forall r,
        Enabled r = true ->
        Conditions r = [created_time_condition] ->
        as_map (lookup "paths" spec) = Some paths ->
        lookup "components" spec = None ->
        lookup "definitions" spec = None ->
        Apply r (Some spec)
        = Ok (failed [field_issue "createdTime" no_schemas_message])).
Proof.
  intros T.
  assert (condition_issues spec paths condition
          = Ok (schema_field_issues spec condition)) as CI.
  { unfold condition_issues. rewrite T. reflexivity. }
  rewrite CI. unfold schema_field_issues, locate_schemas, scan_issues.
  split; [|split; [|split; [|split]]].
  - intros components schemas C S. rewrite C, S.
    now destruct (scan_schemas condition schemas) as [found []].
  - intros schemas C D. rewrite C, D.
    now destruct (scan_schemas condition schemas) as [found []].
  - intros components C S. now rewrite C, S.
  - intros C D. now rewrite C, D.
  - intros r En Cs P C D. unfold Apply. rewrite En, P, Cs. simpl.
    unfold schema_field_issues, locate_schemas. rewrite C, D. reflexivity.
Qed.

End SchemaField.

(** C2, on the rule of the scenario and a spec holding only paths. *)
Lemma schema_field_lookup_witness :
  @json_rule.Apply sample_regexp audit_rule (Some [("paths", VMap [])])
  = Ok (failed [field_issue "createdTime" no_schemas_message]).
Proof.
  exact (proj2 (proj2 (proj2 (proj2
    (@schema_field_lookup sample_regexp [("paths", VMap [])] []
       created_time_condition eq_refl))))
    audit_rule eq_refl eq_refl eq_refl eq_refl eq_refl).
Defined.

Section UrlPathAnalysis.
Context `{Regexp} `{SpecLoader}.

Import validator.

(** C3.  The segments of a path are the pieces between its slashes.  The
    path_parameters that [ValidateURLPath] reports are the inner names of
    the brace-wrapped segments, left to right; ends_with_resource is true
    exactly when the last segment is brace-delimited; appropriate_methods
    is get, put, patch, delete in that case and get, post otherwise.  The
    call reports whenever the validation of the synthesized document
    reports.  For /api/v0/admin/cloudAgents/{datacenterId}/upgrades the
    values are [datacenterId], false and get, post. *)
Theorem url_path_analysis (v : Validator) (urlPath : string) :
  (String.concat "/" (strings.Split urlPath "/"%char) = urlPath
   /\ forall segment,
        In segment (strings.Split urlPath "/"%char) ->
        ~ In "/"%char (bytes segment))
  /\ (forall report,
        URLPathValidator_ValidateURLPath v urlPath = Ok report ->
        path (path_analysis report) = urlPath
        /\ inner_names (strings.Split urlPath "/"%char)
                       (path_parameters (path_analysis report))
        /\ (ends_with_resource (path_analysis report) = true
            <-> ends_in_parameter urlPath)
        /\ appropriate_methods (path_analysis report)
           = if ends_with_resource (path_analysis report)
             then ["get"; "put"; "patch"; "delete"]
             else ["get"; "post"])
  /\ ((exists report, URLPathValidator_ValidateURLPath v urlPath = Ok report)
      <-> exists validated,
            Validate v
              [("api_spec",
                VStr (createOpenAPISpec urlPath (extractPathParams urlPath)
                        (determineHTTPMethods (endsWithResource urlPath))))]
            = Ok validated)
  /\ (extractPathParams cloud_agents_path = ["datacenterId"]
      /\ endsWithResource cloud_agents_path = false
      /\ determineHTTPMethods (endsWithResource cloud_agents_path)
         = ["get"; "post"]).
Proof.
  split; [split|split; [|split]].
  - apply strings_facts.Split_join.
  - intros segment. apply strings_facts.Split_no_sep.
  - intros report. unfold URLPathValidator_ValidateURLPath.
    destruct (Validate v _) as [validated|e|msg]; try discriminate.
    intros [= <-]. simpl. split; [reflexivity|]. split; [|split].
    + apply url_path_facts.params_of_inner.
    + apply url_path_facts.endsWithResource_iff.
    + reflexivity.
  - unfold URLPathValidator_ValidateURLPath.
    destruct (Validate v _) as [validated|e|msg].
    + split; intros _; eexists; reflexivity.
    + split; intros [x F]; discriminate.
    + split; intros [x F]; discriminate.
  - repeat split.
Qed.

End UrlPathAnalysis.

(** C3, run on the path of the scenario, with a registry of the built-in
    rules and a loader that returns the document of the failing scenario. *)
Lemma url_path_analysis_witness :
  exists report,
    @validator.URLPathValidator_ValidateURLPath (loader_of (Some widget_post_spec))
      (@validator.NewValidator sample_regexp []) cloud_agents_path = Ok report
    /\ path_parameters (path_analysis report) = ["datacenterId"]
    /\ ends_with_resource (path_analysis report) = false
    /\ appropriate_methods (path_analysis report) = ["get"; "post"].
Proof.
  destruct (proj2 (proj1 (proj2 (proj2
    (@url_path_analysis (loader_of (Some widget_post_spec))
       (@validator.NewValidator sample_regexp []) cloud_agents_path))))
    (ex_intro _ _ eq_refl)) as [report E].
  exists report. split; [exact E|].
  revert E. vm_compute. intros [= <-]. repeat split.
Defined.

Section RuleFaults.
Context `{Regexp} `{SpecLoader}.

Import validator.

(** C4.  On a spec that parses: a request for the single unregistered
    name r returns the report whose only entry, under r, is the error
    result "rule not found: r".  In general [Validate] returns a report
    that holds, for every requested name, the not-found error if the name is
    unregistered, the wrapped error if the rule's [Apply] returned an error,
    and the rule's own result otherwise, and that holds no other name: what
    is recorded under one name does not depend on the other names.  This
    holds for every registry whose requested rules do not panic, and so for
    every registry that [NewValidator] builds. *)
Theorem rule_faults_are_isolated
    (v : Validator) (params : gomap) (apiSpec : string) (spec : option gomap) :
  as_string (lookup "api_spec" params) = Some apiSpec ->
  parseAPISpec apiSpec = Ok spec ->
  (forall r,
      lookup r (rules v) = None ->
      lookup "rules" params = Some (VList [VStr r]) ->
      Validate v params
      = Ok (mkReport [(r, error_result ("rule not found: " ++ r))]))
  /\ ((forall name rule msg,
          In name (rulesToApply v params) ->
          lookup name (rules v) = Some rule ->
          Apply rule spec <> Panic msg) ->
      exists report,
        Validate v params = Ok report
        /\ covers v spec (rulesToApply v params) report)
  /\ (forall files,
        v = NewValidator files ->
        exists report,
          Validate v params = Ok report
          /\ covers v spec (rulesToApply v params) report).
Proof.
  intros A P.
  assert ((forall name rule msg,
              In name (rulesToApply v params) ->
              lookup name (rules v) = Some rule ->
              Apply rule spec <> Panic msg) ->
          exists report,
            Validate v params = Ok report
            /\ covers v spec (rulesToApply v params) report) as General.
  { intros NP.
    destruct (@engine_facts.apply_rules_spec v spec _ NP [])
      as (found & Run & Hin & Hout).
    exists (mkReport found). split; [|split].
    - unfold Validate. now rewrite A, P, Run.
    - exact Hin.
    - intros name NI. simpl. now rewrite (Hout name NI). }
  split; [|split].
  - intros r L R. unfold Validate, rulesToApply. rewrite A, P, R. simpl.
    now rewrite L.
  - exact General.
  - intros files ->. apply General. intros name rule msg _ L.
    destruct (@error_facts.lookup_Forall _ returns_nil_error _ _ _
                (error_facts.registry_returns files) L spec) as [res E].
    rewrite E. discriminate.
Qed.

End RuleFaults.

(** C4, on a registry with a rule that returns an error, for a request
    naming that rule, an unregistered name and a built-in rule. *)
Lemma rule_faults_are_isolated_witness :
  exists report,
    @validator.Validate (loader_of (Some widget_post_spec))
      sample_validator sample_params = Ok report
    /\ lookup "faulty" (results report)
       = Some (error_result "error applying rule: backend unavailable")
    /\ lookup "no_such_rule" (results report)
       = Some (error_result "rule not found: no_such_rule")
    /\ lookup "solace_rest_rules" (results report)
       = Some (failed [path_method_issue "/widgets/{id}" "post" post_message]).
Proof.
  destruct (proj1 (proj2
              (@rule_faults_are_isolated sample_regexp
                 (loader_of (Some widget_post_spec))
                 sample_validator sample_params "widgets.yaml"
                 (Some widget_post_spec) eq_refl eq_refl)))
    as (report & Run & Hin & _).
  - intros name rule msg [<-|[<-|[<-|[]]]]; vm_compute;
      intros [= <-]; discriminate.
  - exists report. split; [exact Run|]. split; [|split].
    + destruct (Hin "faulty" (or_introl eq_refl)) as (res & L & R).
      vm_compute in R. now subst res.
    + destruct (Hin "no_such_rule" (or_intror (or_introl eq_refl)))
        as (res & L & R).
      vm_compute in R. now subst res.
    + destruct (Hin "solace_rest_rules"
                  (or_intror (or_intror (or_introl eq_refl))))
        as (res & L & R).
      vm_compute in R. now subst res.
Defined.

Section ResourceNaming.
Context `{Regexp}.

Import json_rule.

(** C5.  For a resource_naming condition whose pattern compiles, the
    interpreter emits for each path the issues of that path in turn, and
    these are at most one: none when every non-empty segment matches, and
    otherwise the single issue {path, segment, message} of the first
    non-empty segment that fails, whatever the later segments are.  A path
    with two failing segments yields exactly one issue. *)
Theorem resource_naming_first_violation
    (spec paths : gomap) (condition : Condition) (re : string -> bool) :
  Type' condition = "resource_naming" ->
  Compile (Pattern condition) = inl re ->
  condition_issues spec paths condition
  = Ok (flat_map (naming_issues re condition) paths)
  /\ forall (path : string) (item : value),
       List.length (naming_issues re condition (path, item)) <= 1
       /\ ((forall s, In s (strings.Split path "/"%char) ->
                      s = "" \/ re s = true) ->
           naming_issues re condition (path, item) = [])
       /\ (forall before segment after,
             strings.Split path "/"%char = (before ++ segment :: after)%list ->
             (forall s, In s before -> s = "" \/ re s = true) ->
             segment <> "" -> re segment = false ->
             naming_issues re condition (path, item)
             = [segment_issue path segment (Message condition)])
       /\ (forall s1 s2 before between after,
             strings.Split path "/"%char
             = (before ++ s1 :: between ++ s2 :: after)%list ->
             s1 <> "" -> re s1 = false -> s2 <> "" -> re s2 = false ->
             List.length (naming_issues re condition (path, item)) = 1).
Proof.
  intros T C. split.
  - unfold condition_issues, MustCompile. rewrite T, C. reflexivity.
  - intros path item. unfold naming_issues.
    split; [|split; [|split]].
    + destruct (first_violation re _); simpl; lia.
    + intros Hall. apply condition_facts.first_violation_None in Hall.
      now rewrite Hall.
    + intros before segment after E Hb Hne Hre.
      assert (first_violation re (strings.Split path "/"%char) = Some segment)
        as F.
      { apply condition_facts.first_violation_Some.
        now exists before, after. }
      now rewrite F.
    + intros s1 s2 before between after E N1 R1 N2 R2.
      destruct (first_violation re (strings.Split path "/"%char)) eqn:F;
        [reflexivity|].
      exfalso.
      pose proof (proj1 (condition_facts.first_violation_None re _) F s1) as K.
      rewrite E in K.
      destruct K as [K|K]; [|congruence|congruence].
      apply in_or_app. right. now left.
Qed.

End ResourceNaming.

(** C5, on /Users/{id}, whose segments Users and {id} both fail the
    lower-case pattern: the one issue names Users. *)
Lemma resource_naming_first_violation_witness :
  json_rule.naming_issues lower_word naming_condition ("/Users/{id}", VMap [])
  = [segment_issue "/Users/{id}" "Users" (Message naming_condition)]
  /\ List.length
       (json_rule.naming_issues lower_word naming_condition
          ("/Users/{id}", VMap [])) = 1.
Proof.
  pose proof (proj2 (@resource_naming_first_violation sample_regexp
    [] [] naming_condition lower_word eq_refl eq_refl) "/Users/{id}" (VMap []))
    as (_ & _ & First & Two).
  split.
  - apply (First [""] "Users" ["{id}"]); try reflexivity; try discriminate.
    intros s [<-|[]]. now left.
  - apply (Two "Users" "{id}" [""] [] []); try reflexivity; discriminate.
Defined.

Section DisabledRule.
Context `{Regexp}.

Import json_rule.

(** C6.  A rule whose enabled flag is false returns the skipped result
    for every spec, the nil spec and specs without paths included; and
    [validate] gives the same answer whatever the flag is. *)
Theorem disabled_rule_is_skipped (r : JSONRule) :
  (Enabled r = false -> forall spec, Apply r spec = Ok skipped)
  /\ forall enabled, validate (with_enabled enabled r) = validate r.
Proof.
  split.
  - intros E spec. unfold Apply. now rewrite E.
  - intros enabled. reflexivity.
Qed.

End DisabledRule.

(** C6, on the audit rule switched off, applied to the nil spec. *)
Lemma disabled_rule_is_skipped_witness :
  @json_rule.Apply sample_regexp (with_enabled false audit_rule) None = Ok skipped.
Proof.
  exact (proj1 (@disabled_rule_is_skipped sample_regexp
                  (with_enabled false audit_rule)) eq_refl None).
Defined.

Section ConditionOrder.
Context `{Regexp}.

Import json_rule.

(** C7.  For every rule and every spec, replacing the condition list by a
    permutation of it leaves the status that [Apply] reports unchanged (it
    is failed under one order exactly when it is under the other) and
    changes the issues at most in their order.  This compares two runs that
    visit the entries of each map in the same order; when no schema_field
    condition of the rule carries a format, the status is also the same when
    the second run visits the maps of the spec in another order. *)
Theorem condition_order_irrelevant
    (r : JSONRule) (conditions' : list Condition) (spec : option gomap) :
  Permutation (Conditions r) conditions' ->
  status_of (Apply r spec) = status_of (Apply (with_conditions conditions' r) spec)
  /\ (status_of (Apply r spec) = Some "failed"
      <-> status_of (Apply (with_conditions conditions' r) spec) = Some "failed")
  /\ Permutation (issues_of (Apply r spec))
                 (issues_of (Apply (with_conditions conditions' r) spec))
  /\ (Forall without_format (Conditions r) ->
      forall spec',
        same_spec spec spec' -> well_keyed_spec spec ->
        status_of (Apply r spec)
        = status_of (Apply (with_conditions conditions' r) spec')).
Proof.
  intros P.
  assert (status_of (Apply r spec)
          = status_of (Apply (with_conditions conditions' r) spec)
          /\ Permutation (issues_of (Apply r spec))
               (issues_of (Apply (with_conditions conditions' r) spec)))
    as [S I].
  { unfold Apply. simpl. destruct (Enabled r); simpl; [|now split].
    destruct spec as [spec|]; [|now split].
    destruct (as_map (lookup "paths" spec)) as [paths|]; [|now split].
    pose proof (loop_facts.run_conditions_perm spec paths P
                  (Permutation_refl [])) as R.
    destruct (run_conditions spec paths (Conditions r) []) as [f|e|m],
             (run_conditions spec paths conditions' []) as [f'|e'|m'];
      simpl in *; try contradiction; try (now split).
    split.
    - f_equal. now apply loop_facts.status_of_issues.
    - change (Permutation (issues_of (Ok (result_of_issues f)))
                          (issues_of (Ok (result_of_issues f')))).
      now rewrite !rest_rules_facts.issues_of_result. }
  split; [exact S|]. split; [now rewrite S|]. split; [exact I|].
  intros NF spec' Sp W. rewrite S.
  assert (Forall without_format (Conditions (with_conditions conditions' r)))
    as NF'.
  { simpl. apply Forall_forall. intros c Hc.
    apply (proj1 (Forall_forall _ _) NF).
    eapply Permutation_in; [apply Permutation_sym; exact P | exact Hc]. }
  pose proof (order_facts.json_rule_order_independent _ NF' spec spec' Sp W)
    as O.
  simpl in O.
  destruct (Apply (with_conditions conditions' r) spec) as [res|e|m],
           (Apply (with_conditions conditions' r) spec') as [res'|e'|m'];
    simpl in O |- *; try contradiction; try reflexivity.
  f_equal. apply O.
Qed.

End ConditionOrder.

(** C7, on a rule with two conditions, applied in both orders to the spec
    of the failing scenario. *)
Lemma condition_order_irrelevant_witness :
  status_of (@json_rule.Apply sample_regexp
               (with_conditions [naming_condition; method_condition] audit_rule)
               (Some widget_post_spec))
  = status_of (@json_rule.Apply sample_regexp
                 (with_conditions [method_condition; naming_condition] audit_rule)
                 (Some widget_post_spec)).
Proof.
  exact (proj1 (@condition_order_irrelevant sample_regexp
    (with_conditions [naming_condition; method_condition] audit_rule)
    [method_condition; naming_condition] (Some widget_post_spec)
    (perm_swap _ _ _))).
Defined.




Section RuleSubset.
Context `{SpecLoader}.

Import validator.

(** C9.  When the rules parameter is a list, only its string entries are
    kept, in their order; the others change nothing in what [Validate]
    returns.  When no entry is a string, nothing is kept, and [Validate]
    runs every registered rule, exactly as it does without a rules
    parameter: it returns a report whenever the spec parses and no rule
    panics, and every report it returns holds, under the name of each
    registered rule, what [Apply] of that rule returns on the parsed spec,
    and holds no other name. *)
Theorem non_string_rule_names_are_dropped
    (v : Validator) (params : gomap) (rulesParam : list value) :
  lookup "rules" params = Some (VList rulesParam) ->
  (forall name, In name (string_entries rulesParam) <-> In (VStr name) rulesParam)
  /\ rulesToApply v params
     = match string_entries rulesParam with
       | [] => GetRules v
       | named => named
       end
  /\ Validate v params
     = Validate v (assign "rules" (VList (map VStr (string_entries rulesParam)))
                          params)
  /\ ((forall name, ~ In (VStr name) rulesParam) ->
      rulesToApply v params = GetRules v
      /\ (forall params',
            lookup "api_spec" params' = lookup "api_spec" params ->
            lookup "rules" params' = None ->
            Validate v params = Validate v params')
      /\ (forall apiSpec spec,
            as_string (lookup "api_spec" params) = Some apiSpec ->
            parseAPISpec apiSpec = Ok spec ->
            (forall name rule msg,
                lookup name (rules v) = Some rule ->
                Apply rule spec <> Panic msg) ->
            exists report, Validate v params = Ok report)
      /\ forall report,
           Validate v params = Ok report ->
           exists apiSpec spec,
             as_string (lookup "api_spec" params) = Some apiSpec
             /\ parseAPISpec apiSpec = Ok spec
             /\ (forall name rule,
                   lookup name (rules v) = Some rule ->
                   exists res,
                     lookup name (results report) = Some res
                     /\ (Apply rule spec = Ok res
                         \/ exists e,
                              Apply rule spec = Err e
                              /\ res = error_result
                                         ("error applying rule: " ++ e)))
             /\ forall name,
                  lookup name (rules v) = None ->
                  lookup name (results report) = None).
Proof.
  intros R.
  assert (rulesToApply v params
          = match string_entries rulesParam with
            | [] => GetRules v
            | named => named
            end) as RA.
  { unfold rulesToApply. rewrite R. now destruct (string_entries rulesParam). }
  assert ((forall name, ~ In (VStr name) rulesParam) ->
          string_entries rulesParam = []) as Empty.
  { intros None. destruct (string_entries rulesParam) as [|n rest] eqn:E;
      [reflexivity|].
    exfalso. apply (None n). apply engine_facts.string_entries_In.
    rewrite E. now left. }
  split; [apply engine_facts.string_entries_In|]. split; [exact RA|]. split.
  - apply engine_facts.Validate_ext.
    + symmetry. apply engine_facts.lookup_assign_other. discriminate.
    + rewrite RA. unfold rulesToApply.
      rewrite engine_facts.lookup_assign_same.
      rewrite engine_facts.string_entries_strings.
      now destruct (string_entries rulesParam).
  - intros None. rewrite RA, (Empty None). split; [reflexivity|].
    split; [|split].
    + intros params' A' R'. apply engine_facts.Validate_ext; [now rewrite A'|].
      rewrite RA, (Empty None). unfold rulesToApply. now rewrite R'.
    + intros apiSpec spec A P NP. unfold Validate. rewrite A, P.
      destruct (@engine_facts.apply_rules_spec v spec (rulesToApply v params)
                  (fun name rule msg _ L => NP name rule msg L) [])
        as (found & -> & _).
      now exists (mkReport found).
    + intros report V. unfold Validate in V.
      destruct (as_string (lookup "api_spec" params)) as [apiSpec|];
        [|discriminate].
      destruct (parseAPISpec apiSpec) as [spec|e|msg] eqn:P; try discriminate.
      exists apiSpec, spec. split; [reflexivity|]. split; [exact P|].
      rewrite RA, (Empty None) in V.
      destruct (apply_rules v spec (GetRules v) []) as [found|e|msg] eqn:A;
        try discriminate.
      injection V as <-. cbn [results].
      destruct (report_facts.apply_rules_Ok _ _ _ _ A) as (_ & Keys & Rec & _).
      split.
      * intros name rule L.
        assert (In name (GetRules v)) as I.
        { apply order_facts.has_key_In. unfold has_key. now rewrite L. }
        destruct (Rec name I) as (res & Lf & Rn). exists res.
        split; [exact Lf|]. unfold recorded in Rn. rewrite L in Rn.
        destruct (Apply rule spec) as [own|e|msg];
          [left; now subst | right; now exists e | contradiction].
      * intros name L. destruct (lookup name found) as [res|] eqn:Lf;
          [|reflexivity].
        assert (In name (map fst found)) as I.
        { apply order_facts.has_key_In. unfold has_key. now rewrite Lf. }
        apply Keys in I. destruct I as [[]|I].
        apply order_facts.has_key_In in I. unfold has_key in I.
        unfold GetRules in I. now rewrite L in I.
Qed.

End RuleSubset.

(** C9, on a rules parameter holding a number and a boolean: the three
    built-in rules are selected. *)
Lemma non_string_rule_names_are_dropped_witness :
  validator.rulesToApply (validator.registerBuiltInRules (mkValidator []))
    numeric_rules_params
  = ["solace_rest_rules"; "solace_singular_user_resources"; "solace_custom_actions"].
Proof.
  refine (proj1 (proj2 (proj2 (proj2
    (@non_string_rule_names_are_dropped (loader_of None)
       (validator.registerBuiltInRules (mkValidator []))
       numeric_rules_params [VInt 1; VBool true] eq_refl))) _)).
  intros name [F|[F|[]]]; discriminate.
Defined.

Section ErrorClaims.
Context `{Regexp} `{SpecLoader}.

(** C10.  No rule returns a non-nil error; what goes wrong with the spec is
    told in the result.  Each of the three structural rules, and every
    enabled JSON rule, answers the nil spec with the result of status error
    and message [invalid API spec], and a spec without a paths mapping with
    the result of status error and message [API spec does not have paths];
    on any other spec a structural rule returns passed or failed.  No JSON
    rule ever returns a non-nil error, and a JSON rule that passed
    [validate], as every loaded rule has, returns a result and a nil error
    on every spec.  So every rule in the registry that [NewValidator]
    builds returns a nil error on every spec, and the branch of [Validate]
    that records [error applying rule] is never taken for it: every entry
    of a report is the not-found error of an unregistered name or the very
    result that [Apply] of the rule returned. *)
Theorem rules_return_nil_error :
  (forall rule,
      rule = NewSolaceRestRules
      \/ rule = NewSolaceSingularUserResourcesRule
      \/ rule = NewSolaceCustomActionsRule ->
      Apply rule None = Ok (error_result "invalid API spec")
      /\ (forall s,
            as_map (lookup "paths" s) = None ->
            Apply rule (Some s) = Ok (error_result "API spec does not have paths"))
      /\ (forall s paths,
            as_map (lookup "paths" s) = Some paths ->
            exists found, Apply rule (Some s) = Ok (result_of_issues found)))
  /\ (forall spec,
        (exists res, SolaceRestRules.Apply spec = Ok res)
        /\ (exists res, SolaceSingularUserResourcesRule.Apply spec = Ok res)
        /\ (exists res, SolaceCustomActionsRule.Apply spec = Ok res))
  /\ (forall r,
        Enabled r = true ->
        json_rule.Apply r None = Ok (error_result "invalid API spec")
        /\ forall s,
             as_map (lookup "paths" s) = None ->
             json_rule.Apply r (Some s)
             = Ok (error_result "API spec does not have paths"))
  /\ (forall r spec e, json_rule.Apply r spec <> Err e)
  /\ (forall r spec,
        json_rule.validate r = None ->
        exists res, json_rule.Apply r spec = Ok res)
  /\ (forall files name rule spec,
        lookup name (rules (validator.NewValidator files)) = Some rule ->
        (exists res, Apply rule spec = Ok res)
        /\ forall e, Apply rule spec <> Err e)
  /\ (forall files params report name res,
        validator.Validate (validator.NewValidator files) params = Ok report ->
        lookup name (results report) = Some res ->
        (lookup name (rules (validator.NewValidator files)) = None
         /\ res = error_result ("rule not found: " ++ name))
        \/ exists rule apiSpec spec,
             lookup name (rules (validator.NewValidator files)) = Some rule
             /\ as_string (lookup "api_spec" params) = Some apiSpec
             /\ parseAPISpec apiSpec = Ok spec
             /\ Apply rule spec = Ok res).
Proof.
  split; [|split; [|split; [|split; [|split; [|split]]]]].
  - intros rule [ -> | [ -> | -> ] ]; (split; [reflexivity|]); split;
      cbn [Apply NewSolaceRestRules NewSolaceSingularUserResourcesRule
             NewSolaceCustomActionsRule];
      unfold SolaceRestRules.Apply, SolaceSingularUserResourcesRule.Apply,
        SolaceCustomActionsRule.Apply;
      intros; match goal with E : as_map _ = _ |- _ => rewrite E end;
      try reflexivity; eexists; reflexivity.
  - apply error_facts.builtin_returns.
  - intros r E. unfold json_rule.Apply. rewrite E. cbn [negb].
    split; [reflexivity|]. intros s P. now rewrite P.
  - apply error_facts.Apply_not_err.
  - intros r spec V. apply (@error_facts.Apply_returns _ r 0).
    now apply error_facts.validate_conditions_of_validate.
  - intros files name rule spec L.
    pose proof (@error_facts.lookup_Forall _ returns_nil_error _ _ _
                  (error_facts.registry_returns files) L spec) as [res E].
    split; [now exists res|]. intros e. rewrite E. discriminate.
  - intros files params report name res V L. unfold validator.Validate in V.
    destruct (as_string (lookup "api_spec" params)) as [apiSpec|];
      [|discriminate].
    destruct (parseAPISpec apiSpec) as [spec|e|msg] eqn:P; try discriminate.
    destruct (validator.apply_rules (validator.NewValidator files) spec
                (validator.rulesToApply (validator.NewValidator files) params)
                []) as [found|e|msg] eqn:A; try discriminate.
    injection V as <-. cbn [results] in L.
    destruct (report_facts.apply_rules_Ok _ _ _ _ A) as (_ & Keys & Rec & _).
    assert (In name (map fst found)) as I.
    { apply order_facts.has_key_In. unfold has_key. now rewrite L. }
    apply Keys in I. destruct I as [[]|I].
    destruct (Rec name I) as (res' & L' & Rn).
    rewrite L in L'. injection L' as <-. unfold recorded in Rn.
    destruct (lookup name (rules (validator.NewValidator files)))
      as [rule|] eqn:Lr; [right | left; now split].
    exists rule, apiSpec, spec.
    pose proof (@error_facts.lookup_Forall _ returns_nil_error _ _ _
                  (error_facts.registry_returns files) Lr spec) as [own E].
    rewrite E in Rn. subst res. now repeat split.
Qed.

End ErrorClaims.

(** C10, on the custom-actions rule and a spec without paths, on a loadable
    rule with a pattern condition, and on the registry built from it. *)
Lemma rules_return_nil_error_witness :
  Apply NewSolaceCustomActionsRule (Some [])
  = Ok (error_result "API spec does not have paths")
  /\ (exists res,
         @json_rule.Apply sample_regexp naming_rule (Some widget_post_spec)
         = Ok res)
  /\ exists res,
       Apply (@json_rule.asRule sample_regexp naming_rule)
             (Some widget_post_spec) = Ok res.
Proof.
  pose proof (@rules_return_nil_error sample_regexp (loader_of None))
    as (Structural & _ & _ & _ & Valid & Registry & _).
  split; [|split].
  - exact (proj1 (proj2 (Structural NewSolaceCustomActionsRule
                           (or_intror (or_intror eq_refl))))
             [] eq_refl).
  - exact (Valid naming_rule (Some widget_post_spec) eq_refl).
  - exact (proj1 (Registry [naming_rule] "resource_naming"
                    (@json_rule.asRule sample_regexp naming_rule)
                    (Some widget_post_spec) eq_refl)).
Defined.

(** * Further properties of the code *)

(** ** Loading the JSON rules *)

Module loader_facts.

Import validator.

Lemma itoa_inj (n m : nat) : itoa n = itoa m -> n = m.
Proof.
  unfold itoa. intros E.
  apply DecimalNat.Unsigned.to_uint_inj.
  assert (Some (Nat.to_uint n) = Some (Nat.to_uint m)) as S
    by (rewrite <- !DecimalString.NilEmpty.usu; now rewrite E).
  now injection S.
Qed.

Lemma append_inj_l (a b c : string) : a ++ b = a ++ c -> b = c.
Proof. induction a as [|x a IH]; simpl; intros E; [exact E|]. inversion E. auto. Qed.

Lemma suffixed_inj (baseName : string) (n m : nat) :
  suffixed baseName n = suffixed baseName m -> n = m.
Proof.
  unfold suffixed. intros E. apply append_inj_l in E.
  inversion E. now apply itoa_inj.
Qed.

Lemma suffixed_not_base (baseName : string) (n : nat) :
  suffixed baseName n <> baseName.
Proof.
  unfold suffixed. intros E. apply (f_equal String.length) in E.
  rewrite strings_facts.length_append in E. simpl in E. lia.
Qed.

Lemma tested_length (baseName name : string) (suffix turns : nat) :
  List.length (tested baseName name suffix turns) = turns.
Proof.
  revert name suffix. induction turns as [|t IH]; simpl; intros; [reflexivity|].
  now rewrite IH.
Qed.

Lemma tested_In (baseName : string) (turns : nat) :
  forall name suffix c,
    In c (tested baseName name suffix turns) ->
    c = name \/ exists k, suffix <= k /\ c = suffixed baseName k.
Proof.
  induction turns as [|t IH]; simpl; intros name suffix c H; [contradiction|].
  destruct H as [<-|H]; [now left|]. right.
  destruct (IH _ _ _ H) as [->|(k & Hk & ->)].
  - exists suffix. split; [lia | reflexivity].
  - exists k. split; [lia | reflexivity].
Qed.

Lemma tested_NoDup (baseName : string) (turns : nat) :
  forall name suffix,
    (forall k, suffix <= k -> name <> suffixed baseName k) ->
    NoDup (tested baseName name suffix turns).
Proof.
  induction turns as [|t IH]; simpl; intros name suffix Fresh; constructor.
  - intros H. destruct (tested_In _ _ _ _ _ H) as [E|(k & Hk & E)].
    + apply (Fresh suffix); [lia | exact E].
    + apply (Fresh k); [lia | exact E].
  - apply IH. intros k Hk E. apply suffixed_inj in E. lia.
Qed.

(** If the loop ends on a taken name, every name it tested was taken. *)
Lemma free_name_taken (loaded : list (string * Rule)) (baseName : string)
    (turns : nat) :
  forall name suffix,
    has_key (free_name loaded baseName name suffix turns) loaded = true ->
    forall c, In c (tested baseName name suffix turns) ->
              has_key c loaded = true.
Proof.
  induction turns as [|t IH]; simpl; intros name suffix T c H; [contradiction|].
  destruct (has_key name loaded) eqn:K.
  - destruct H as [<-|H]; [exact K|]. eapply IH; eassumption.
  - congruence.
Qed.

(** The renaming loop ends on a name that is not taken. *)
Lemma free_name_free (loaded : list (string * Rule)) (baseName : string) :
  has_key (free_name loaded baseName baseName 1 (S (List.length loaded))) loaded
  = false.
Proof.
  destruct (has_key (free_name _ _ _ _ _) loaded) eqn:T; [|reflexivity].
  exfalso.
  pose proof (free_name_taken _ _ _ _ _ T) as All.
  assert (NoDup (tested baseName baseName 1 (S (List.length loaded)))) as ND.
  { apply tested_NoDup. intros k _ E. symmetry in E.
    now apply suffixed_not_base in E. }
  assert (incl (tested baseName baseName 1 (S (List.length loaded)))
               (map fst loaded)) as Incl.
  { intros c Hc. apply order_facts.has_key_In. now apply All. }
  pose proof (NoDup_incl_length ND Incl) as Len.
  rewrite tested_length, length_map in Len. lia.
Qed.

(** The loop ends on the base name or on a suffixed one. *)
Lemma free_name_shape (loaded : list (string * Rule)) (baseName : string)
    (turns : nat) :
  forall name suffix,
    free_name loaded baseName name suffix turns = name
    \/ exists k, suffix <= k
                 /\ free_name loaded baseName name suffix turns
                    = suffixed baseName k.
Proof.
  induction turns as [|t IH]; simpl; intros name suffix; [now left|].
  destruct (has_key name loaded); [|now left]. right.
  destruct (IH (baseName ++ "_" ++ itoa suffix) (S suffix)) as [E|(k & Hk & E)].
  - exists suffix. split; [lia | exact E].
  - exists k. split; [lia | exact E].
Qed.

Lemma free_name_keeps_free (loaded : list (string * Rule))
    (baseName : string) (turns : nat) :
  has_key baseName loaded = false ->
  free_name loaded baseName baseName 1 (S turns) = baseName.
Proof. intros K. simpl. now rewrite K. Qed.

Lemma assign_fresh {A : Type} (k : string) (x : A) (m : list (string * A)) :
  has_key k m = false -> assign k x m = (m ++ [(k, x)])%list.
Proof.
  unfold has_key. induction m as [|[k' y] m IH]; simpl; [reflexivity|].
  destruct (k =? k'); [discriminate|]. intros K. now rewrite IH.
Qed.

Lemma lookup_not_In {A : Type} (k : string) (m : list (string * A)) :
  ~ In k (map fst m) -> lookup k m = None.
Proof.
  intros NI. destruct (lookup k m) eqn:L; [|reflexivity].
  exfalso. apply NI. apply order_facts.has_key_In. unfold has_key. now rewrite L.
Qed.

Lemma lookup_fold_assign {A : Type} (added : list (string * A)) :
  NoDup (map fst added) ->
  forall registered name,
    lookup name (fold_left (fun acc entry => assign (fst entry) (snd entry) acc)
                           added registered)
    = match lookup name added with
      | Some x => Some x
      | None => lookup name registered
      end.
Proof.
  induction added as [|[k x] rest IH]; simpl; intros ND registered name;
    [reflexivity|].
  inversion ND as [|? ? NI ND']; subst. rewrite (IH ND').
  destruct (String.eqb_spec name k) as [->|N].
  - rewrite (lookup_not_In _ _ NI). apply engine_facts.lookup_assign_same.
  - destruct (lookup name rest); [reflexivity|].
    now apply engine_facts.lookup_assign_other.
Qed.

End loader_facts.

Section Loading.
Context `{Regexp}.

Import validator.

Lemma load_step (file : JSONRule) (rest : list JSONRule)
    (loaded : list (string * Rule)) :
  loadable file ->
  exists name,
    (name = RuleName file \/ exists k, 1 <= k /\ name = suffixed (RuleName file) k)
    /\ has_key name loaded = false
    /\ (has_key (RuleName file) loaded = false -> name = RuleName file)
    /\ LoadJSONRulesFromDir (file :: rest) loaded
       = LoadJSONRulesFromDir rest
           (loaded ++ [(name, json_rule.asRule (rename file name))])%list.
Proof.
  intros V. unfold loadable in V.
  exists (free_name loaded (RuleName file) (RuleName file) 1
                    (S (List.length loaded))).
  split; [apply loader_facts.free_name_shape|].
  split; [apply loader_facts.free_name_free|].
  split; [apply loader_facts.free_name_keeps_free|].
  cbn [LoadJSONRulesFromDir]. unfold NewJSONRuleFromFile. rewrite V.
  cbv zeta. rewrite loader_facts.assign_fresh; [reflexivity|].
  apply loader_facts.free_name_free.
Qed.

Lemma load_invariant (files : list JSONRule) :
  forall loaded0 loaded,
    NoDup (map fst loaded0) ->
    LoadJSONRulesFromDir files loaded0 = Ok loaded ->
    NoDup (map fst loaded)
    /\ List.length loaded = List.length loaded0 + List.length files
    /\ forall name rule,
         In (name, rule) loaded ->
         In (name, rule) loaded0
         \/ exists file,
              In file files /\ loadable file
              /\ rule = json_rule.asRule (rename file name)
              /\ (name = RuleName file
                  \/ exists k, 1 <= k /\ name = suffixed (RuleName file) k).
Proof.
  induction files as [|file rest IH]; intros loaded0 loaded ND L.
  - simpl in L. injection L as <-. split; [exact ND|]. split; [simpl; lia|].
    intros name rule I. now left.
  - destruct (json_rule.validate file) eqn:V.
    { simpl in L. unfold NewJSONRuleFromFile in L. rewrite V in L. discriminate. }
    destruct (@load_step file rest loaded0 V) as (name & Shape & Free & _ & Step).
    rewrite Step in L.
    assert (NoDup (map fst (loaded0 ++ [(name, json_rule.asRule (rename file name))])%list))
      as ND'.
    { rewrite map_app. simpl. apply NoDup_app; [exact ND | repeat constructor; tauto|].
      intros k Hk [<-|[]]. apply order_facts.has_key_In in Hk. congruence. }
    destruct (IH _ _ ND' L) as (NDl & Len & Prov).
    split; [exact NDl|]. split.
    + rewrite Len, length_app. simpl. lia.
    + intros n rule I. destruct (Prov n rule I) as [I0|(f & If & Vf & E & Sh)].
      * apply in_app_or in I0. destruct I0 as [I0|[[= <- <-]|[]]]; [now left|].
        right. exists file. split; [now left|]. now split.
      * right. exists f. split; [now right|]. now split.
Qed.

Lemma load_all_valid (files : list JSONRule) :
  forall loaded0,
    Forall loadable files ->
    exists loaded, LoadJSONRulesFromDir files loaded0 = Ok loaded.
Proof.
  induction files as [|file rest IH]; intros loaded0 All.
  - now exists loaded0.
  - inversion All as [|? ? V All']; subst.
    destruct (@load_step file rest loaded0 V) as (name & _ & _ & _ & Step).
    rewrite Step. now apply IH.
Qed.

Lemma load_first_invalid (before : list JSONRule) :
  forall loaded0 file after e,
    Forall loadable before ->
    json_rule.validate file = Some e ->
    LoadJSONRulesFromDir (before ++ file :: after) loaded0
    = Err (load_error file e).
Proof.
  induction before as [|f rest IH]; intros loaded0 file after e All V.
  - cbn [app LoadJSONRulesFromDir]. unfold NewJSONRuleFromFile. rewrite V.
    reflexivity.
  - inversion All as [|? ? Vf All']; subst.
    destruct (@load_step f (rest ++ file :: after)%list loaded0 Vf)
      as (name & _ & _ & _ & Step).
    simpl app. rewrite Step. now apply IH.
Qed.

Lemma first_invalid (files : list JSONRule) :
  Forall loadable files
  \/ exists before file after e,
       files = (before ++ file :: after)%list
       /\ Forall loadable before /\ json_rule.validate file = Some e.
Proof.
  induction files as [|f rest IH]; [left; constructor|].
  destruct (json_rule.validate f) as [e|] eqn:V.
  - right. exists [], f, rest, e. repeat split; auto.
  - destruct IH as [All|(before & file & after & e & -> & All & Vf)].
    + left. now constructor.
    + right. exists (f :: before), file, after, e.
      split; [reflexivity|]. split; [now constructor | exact Vf].
Qed.

(** X1.  When [LoadJSONRulesFromDir] succeeds, no rule is lost to a name
    collision: it returns as many rules as there are files, each under a
    name of its own; each rule comes from a file that passed [validate] and
    is registered under that file's name or under the name followed by
    an underscore and a number from 1 on, and reports that name as its
    own. *)
Theorem loaded_rules_are_all_kept
    (files : list JSONRule) (loaded : list (string * Rule)) :
  LoadJSONRulesFromDir files [] = Ok loaded ->
  NoDup (map fst loaded)
  /\ List.length loaded = List.length files
  /\ forall name rule,
       In (name, rule) loaded ->
       Name rule = name
       /\ exists file,
            In file files /\ loadable file
            /\ rule = json_rule.asRule (rename file name)
            /\ (name = RuleName file
                \/ exists k, 1 <= k /\ name = suffixed (RuleName file) k).
Proof.
  intros L. destruct (@load_invariant files [] loaded (NoDup_nil _) L) as (ND & Len & Prov).
  split; [exact ND|]. split; [exact Len|].
  intros name rule I. destruct (Prov name rule I) as [[]|(file & If & V & E & Sh)].
  split; [now subst rule|]. exists file. now repeat split.
Qed.

(** X2.  Loading is all or nothing.  When [LoadJSONRulesFromDir] succeeds,
    every file has passed [validate].  When a file does not pass and those
    before it do, the load returns the error of that file, naming it,
    whatever comes after it.  And whenever the load returns an error,
    [NewValidator] registers the built-in rules only: one malformed file
    keeps every JSON rule out of the registry. *)
Theorem load_is_all_or_nothing (files : list JSONRule) :
  (forall loaded,
      LoadJSONRulesFromDir files [] = Ok loaded -> Forall loadable files)
  /\ (forall before file after e,
        files = (before ++ file :: after)%list ->
        Forall loadable before ->
        json_rule.validate file = Some e ->
        LoadJSONRulesFromDir files [] = Err (load_error file e))
  /\ (forall e,
        LoadJSONRulesFromDir files [] = Err e ->
        rules (NewValidator files) = builtin_rules).
Proof.
  split; [|split].
  - intros loaded L. destruct (first_invalid files)
      as [All|(before & file & after & e & -> & All & V)]; [exact All|].
    rewrite (@load_first_invalid before [] file after e All V) in L. discriminate.
  - intros before file after e -> All V.
    exact (@load_first_invalid before [] file after e All V).
  - intros e L. unfold NewValidator, registerJSONRules. now rewrite L.
Qed.

(** X3.  In the registry that [NewValidator] builds from files that all
    load, a name belongs to the JSON rule loaded under it if there is one,
    and to the built-in rule of that name otherwise: a JSON rule named like
    a built-in rule replaces it.  The three built-in names are registered
    whatever the files are. *)
Theorem json_rules_shadow_builtin_rules (files : list JSONRule) :
  (forall loaded,
      LoadJSONRulesFromDir files [] = Ok loaded ->
      forall name,
        lookup name (rules (NewValidator files))
        = match lookup name loaded with
          | Some rule => Some rule
          | None => lookup name builtin_rules
          end)
  /\ (has_key "solace_rest_rules" (rules (NewValidator files)) = true
      /\ has_key "solace_singular_user_resources" (rules (NewValidator files))
         = true
      /\ has_key "solace_custom_actions" (rules (NewValidator files)) = true).
Proof.
  assert (forall loaded,
             LoadJSONRulesFromDir files [] = Ok loaded ->
             forall name,
               lookup name (rules (NewValidator files))
               = match lookup name loaded with
                 | Some rule => Some rule
                 | None => lookup name builtin_rules
                 end) as Reg.
  { intros loaded L name. unfold NewValidator, registerJSONRules. rewrite L.
    simpl rules. apply loader_facts.lookup_fold_assign.
    apply (@load_invariant files [] loaded (NoDup_nil _) L). }
  split; [exact Reg|].
  destruct (LoadJSONRulesFromDir files []) as [loaded|e|msg] eqn:L.
  - unfold has_key. rewrite !(Reg loaded eq_refl).
    repeat split; destruct (lookup _ loaded); reflexivity.
  - unfold NewValidator, registerJSONRules. rewrite L. repeat split.
  - unfold NewValidator, registerJSONRules. rewrite L. repeat split.
Qed.

End Loading.

(** X1, on two copies of the audit rule: both are kept, the second under
    the name audit_fields_1. *)
Lemma loaded_rules_are_all_kept_witness :
  exists loaded,
    @validator.LoadJSONRulesFromDir sample_regexp [audit_rule; audit_rule] []
    = Ok loaded
    /\ map fst loaded = ["audit_fields"; "audit_fields_1"]
    /\ NoDup (map fst loaded).
Proof.
  eexists. split; [reflexivity|]. split; [reflexivity|].
  exact (proj1 (@loaded_rules_are_all_kept sample_regexp
                  [audit_rule; audit_rule] _ eq_refl)).
Defined.

(** X2, on a rule without a name loaded after the audit rule. *)
Lemma load_is_all_or_nothing_witness :
  @validator.LoadJSONRulesFromDir sample_regexp [audit_rule; unnamed_rule] []
  = Err (load_error unnamed_rule "rule name is required").
Proof.
  apply (proj1 (proj2 (@load_is_all_or_nothing sample_regexp
                         [audit_rule; unnamed_rule]))
           [audit_rule] unnamed_rule [] "rule name is required" eq_refl).
  - repeat constructor.
  - reflexivity.
Defined.

(** X3, on a JSON rule named solace_rest_rules. *)
Lemma json_rules_shadow_builtin_rules_witness :
  lookup "solace_rest_rules"
         (rules (@validator.NewValidator sample_regexp [shadowing_rule]))
  = Some (@json_rule.asRule sample_regexp shadowing_rule).
Proof.
  exact (proj1 (@json_rules_shadow_builtin_rules sample_regexp [shadowing_rule])
           _ eq_refl "solace_rest_rules").
Defined.

(** ** Validation of rule definitions *)

Section RuleValidation.
Context `{Regexp}.

Import json_rule.

Lemma validate_condition_None (i : nat) (c : Condition) :
  validate_condition i c = None <-> well_formed_condition c.
Proof.
  unfold validate_condition, well_formed_condition.
  destruct (String.eqb_spec (Type' c) "") as [T0|T0].
  { split; [discriminate|]. rewrite T0.
    intros (_ & [([F|F] & _)|[(F & _)|[(F & _)|(F & _)]]]); discriminate. }
  destruct (String.eqb_spec (Message c) "") as [M|M].
  { split; [discriminate | tauto]. }
  destruct (String.eqb_spec (Type' c) "path_pattern") as [T|T1].
  { rewrite T. destruct (String.eqb_spec (Pattern c) "") as [P|P].
    - split; [discriminate|].
      intros (_ & [(_ & F & _)|[(F & _)|[(F & _)|(F & _)]]]);
        [contradiction | discriminate ..].
    - destruct (Compile (Pattern c)) as [re|e] eqn:C.
      + split; [|reflexivity]. intros _. split; [exact M|]. left.
        split; [now left|]. split; [exact P | now exists re].
      + split; [discriminate|].
        intros (_ & [(_ & _ & re & F)|[(F & _)|[(F & _)|(F & _)]]]);
          discriminate. }
  destruct (String.eqb_spec (Type' c) "method_check") as [T|T2].
  { rewrite T. destruct (String.eqb_spec (Path c) "") as [P|P].
    - split; [discriminate|].
      intros (_ & [([F|F] & _)|[(_ & F & _)|[(F & _)|(F & _)]]]);
        [discriminate | discriminate | contradiction | discriminate ..].
    - destruct (String.eqb_spec (Method c) "") as [Me|Me].
      + split; [discriminate|].
        intros (_ & [([F|F] & _)|[(_ & _ & F)|[(F & _)|(F & _)]]]);
          [discriminate | discriminate | contradiction | discriminate ..].
      + split; [|reflexivity]. intros _. split; [exact M|]. right. left. auto. }
  destruct (String.eqb_spec (Type' c) "parameter_check") as [T|T3].
  { rewrite T. destruct (String.eqb_spec (Path c) "") as [P|P].
    - split; [discriminate|].
      intros (_ & [([F|F] & _)|[(F & _)|[(_ & F)|(F & _)]]]);
        [discriminate | discriminate | discriminate | contradiction
        | discriminate].
    - split; [|reflexivity]. intros _. split; [exact M|]. right. right. left.
      auto. }
  destruct (String.eqb_spec (Type' c) "resource_naming") as [T|T4].
  { rewrite T. destruct (String.eqb_spec (Pattern c) "") as [P|P].
    - split; [discriminate|].
      intros (_ & [(_ & F & _)|[(F & _)|[(F & _)|(F & _)]]]);
        [contradiction | discriminate ..].
    - destruct (Compile (Pattern c)) as [re|e] eqn:C.
      + split; [|reflexivity]. intros _. split; [exact M|]. left.
        split; [now right|]. split; [exact P | now exists re].
      + split; [discriminate|].
        intros (_ & [(_ & _ & re & F)|[(F & _)|[(F & _)|(F & _)]]]);
          discriminate. }
  destruct (String.eqb_spec (Type' c) "schema_field") as [T|T5].
  { rewrite T. destruct (String.eqb_spec (Field c) "") as [F|F].
    - split; [discriminate|].
      intros (_ & [([G|G] & _)|[(G & _)|[(G & _)|(_ & G)]]]);
        [discriminate | discriminate | discriminate | discriminate
        | contradiction].
    - split; [|reflexivity]. intros _. split; [exact M|]. right. right. right.
      auto. }
  split; [discriminate|].
  intros (_ & [([F|F] & _)|[(F & _)|[(F & _)|(F & _)]]]); contradiction.
Qed.

Lemma validate_conditions_None (conditions : list Condition) :
  forall i,
    validate_conditions i conditions = None
    <-> Forall well_formed_condition conditions.
Proof.
  induction conditions as [|c rest IH]; intros i; simpl.
  - split; [constructor | reflexivity].
  - destruct (validate_condition i c) as [e|] eqn:V.
    + split; [discriminate|]. intros All. inversion All as [|? ? W _]; subst.
      apply (validate_condition_None i) in W. congruence.
    + rewrite IH. split.
      * intros All. constructor; [|exact All].
        now apply (validate_condition_None i).
      * intros All. now inversion All.
Qed.

(** The error of a condition starts with its index. *)
Lemma validate_condition_prefix (i : nat) (c : Condition) (e : string) :
  validate_condition i c = Some e ->
  exists detail, e = "condition " ++ itoa i ++ ": " ++ detail.
Proof.
  unfold validate_condition.
  repeat match goal with
         | |- context [if ?b then _ else _] => destruct b
         | |- context [match Compile ?p with _ => _ end] => destruct (Compile p)
         end;
    intros E; try discriminate; injection E as <-; eexists; reflexivity.
Qed.

Lemma validate_conditions_Some (conditions : list Condition) :
  forall i e,
    validate_conditions i conditions = Some e ->
    exists before c after,
      conditions = (before ++ c :: after)%list
      /\ Forall well_formed_condition before
      /\ validate_condition (i + List.length before) c = Some e.
Proof.
  induction conditions as [|c rest IH]; intros i e; simpl; [discriminate|].
  destruct (validate_condition i c) as [e'|] eqn:V.
  - intros [= <-]. exists [], c, rest. simpl. rewrite Nat.add_0_r.
    repeat split; auto.
  - intros R. destruct (IH _ _ R) as (before & c' & after & -> & All & Vc).
    exists (c :: before), c', after. split; [reflexivity|]. split.
    + constructor; [now apply (validate_condition_None i) | exact All].
    + simpl. now rewrite Nat.add_succ_r.
Qed.

(** X4.  [validate] accepts exactly the well-formed rules: a name, a
    description, at least one condition, and every condition with a message,
    a type of the vocabulary and the fields of its type, where a pattern has
    to be non-empty and to compile. *)
Theorem validate_accepts_well_formed_rules (r : JSONRule) :
  validate r = None <-> well_formed_rule r.
Proof.
  unfold validate, well_formed_rule.
  destruct (String.eqb_spec (RuleName r) "") as [N|N];
    [split; [discriminate | tauto]|].
  destruct (String.eqb_spec (RuleDescription r) "") as [D|D];
    [split; [discriminate | tauto]|].
  destruct (Conditions r) as [|c rest] eqn:C.
  - split; [discriminate | tauto].
  - rewrite validate_conditions_None. split.
    + intros All. repeat split; auto. discriminate.
    + tauto.
Qed.

(** X5.  When a rule with a name, a description and at least one condition
    is rejected, the error is that of the first condition that is not well
    formed, and it starts with the index of that condition, counted
    from 0. *)
Theorem validate_reports_first_bad_condition (r : JSONRule) (e : string) :
  RuleName r <> "" -> RuleDescription r <> "" -> Conditions r <> [] ->
  validate r = Some e ->
  exists before c after detail,
    Conditions r = (before ++ c :: after)%list
    /\ Forall well_formed_condition before
    /\ ~ well_formed_condition c
    /\ e = "condition " ++ itoa (List.length before) ++ ": " ++ detail.
Proof.
  unfold validate. intros N D NE.
  destruct (String.eqb_spec (RuleName r) ""); [contradiction|].
  destruct (String.eqb_spec (RuleDescription r) ""); [contradiction|].
  destruct (Conditions r) as [|c rest] eqn:C; [contradiction|].
  intros V.
  destruct (validate_conditions_Some _ _ V) as (before & c' & after & E & All & Vc).
  destruct (validate_condition_prefix _ _ Vc) as [detail Ed].
  exists before, c', after, detail. split; [exact E|]. split; [exact All|].
  split; [|exact Ed].
  intros W. apply (validate_condition_None (0 + List.length before)) in W.
  congruence.
Qed.

End RuleValidation.

(** X4, on the audit rule. *)
Lemma validate_accepts_well_formed_rules_witness :
  @well_formed_rule sample_regexp audit_rule.
Proof.
  exact (proj1 (@validate_accepts_well_formed_rules sample_regexp audit_rule)
           eq_refl).
Defined.

(** X5, on a rule whose second condition has a pattern that does not
    compile. *)
Lemma validate_reports_first_bad_condition_witness :
  exists before c after detail,
    [naming_condition; pattern_condition "("; created_time_condition]
    = (before ++ c :: after)%list
    /\ Forall (@well_formed_condition sample_regexp) before
    /\ ~ @well_formed_condition sample_regexp c
    /\ "condition 1: invalid regex pattern: error parsing regexp: missing closing ): `(`"
       = "condition " ++ itoa (List.length before) ++ ": " ++ detail.
Proof.
  apply (@validate_reports_first_bad_condition sample_regexp
           (with_conditions
              [naming_condition; pattern_condition "("; created_time_condition]
              audit_rule));
    try discriminate; reflexivity.
Defined.

(** ** The reports of the engine *)

Section Reports.
Context `{Regexp} `{SpecLoader}.

Import validator.

(** X6.  Every result has one of three shapes: passed with neither message
    nor issues, failed with at least one issue and no message, or error or
    skipped with a message and no issues.  This holds for what the built-in
    rules and every JSON rule return, and for every entry of every report
    that [Validate] returns on a registry built by [NewValidator]. *)
Theorem report_results_are_well_formed :
  (well_formed_results NewSolaceRestRules
   /\ well_formed_results NewSolaceSingularUserResourcesRule
   /\ well_formed_results NewSolaceCustomActionsRule)
  /\ (forall r, well_formed_results (json_rule.asRule r))
  /\ forall files params report,
       Validate (NewValidator files) params = Ok report ->
       forall name res,
         lookup name (results report) = Some res -> well_formed_result res.
Proof.
  split; [apply report_facts.builtin_well_formed|].
  split; [apply report_facts.json_rule_well_formed|].
  intros files params report V name res L. unfold Validate in V.
  destruct (as_string (lookup "api_spec" params)) as [text|]; [|discriminate].
  destruct (parseAPISpec text) as [spec|e|msg]; try discriminate.
  destruct (apply_rules (NewValidator files) spec
              (rulesToApply (NewValidator files) params) []) as [found|e|msg]
    eqn:R; try discriminate.
  injection V as <-. simpl in L.
  destruct (report_facts.apply_rules_Ok _ _ _ _ R) as (_ & _ & _ & All).
  refine (@error_facts.lookup_Forall _ well_formed_result _ _ _
            (All well_formed_result _ (Forall_nil _)) L).
  intros n r _ Rec. unfold recorded in Rec.
  destruct (lookup n (rules (NewValidator files))) as [rule|] eqn:Lr.
  - pose proof (@error_facts.lookup_Forall _ well_formed_results _ _ _
                  (report_facts.registry_Forall well_formed_results files
                     (proj1 report_facts.builtin_well_formed)
                     (proj1 (proj2 report_facts.builtin_well_formed))
                     (proj2 (proj2 report_facts.builtin_well_formed))
                     report_facts.json_rule_well_formed) Lr) as W.
    specialize (W spec).
    destruct (Apply rule spec) as [rr|e|msg]; [|subst r|contradiction].
    + subst r. now apply W.
    + apply report_facts.well_formed_error.
  - subst r. apply report_facts.well_formed_error.
Qed.

(** X7.  The only errors [Validate] returns are those of the request: the
    api_spec parameter is missing or not a string, or the spec does not
    parse.  In both cases no rule runs; a rule that returns an error never
    makes [Validate] return one. *)
Theorem validate_errors_are_request_level
    (v : Validator) (params : gomap) (e : string) :
  Validate v params = Err e <->
  (as_string (lookup "api_spec" params) = None
   /\ e = "missing or invalid api_spec parameter")
  \/ exists apiSpec cause,
       as_string (lookup "api_spec" params) = Some apiSpec
       /\ parseAPISpec apiSpec = Err cause
       /\ e = "error parsing API spec: " ++ cause.
Proof.
  unfold Validate.
  destruct (as_string (lookup "api_spec" params)) as [text|].
  - destruct (parseAPISpec text) as [spec|cause|msg] eqn:P.
    + pose proof (report_facts.apply_rules_not_err v spec
                    (rulesToApply v params) []) as NE.
      destruct (apply_rules v spec (rulesToApply v params) []) as [f|e'|m];
        simpl; split; try discriminate;
        try (intros [[F _]|(a & c & [= <-] & F & _)]; congruence).
      now destruct (NE e').
    + split.
      * intros [= <-]. right. now exists text, cause.
      * intros [[F _]|(a & c & [= <-] & F & ->)]; [discriminate|].
        rewrite P in F. now injection F as <-.
    + split; [discriminate|].
      intros [[F _]|(a & c & [= <-] & F & _)]; congruence.
  - split.
    + intros [= <-]. now left.
    + intros [[_ ->]|(a & c & F & _)]; [reflexivity | discriminate].
Qed.

(** X8.  A report holds each requested name once, however often the request
    repeats it, and no other name: its keys are exactly the names
    [rulesToApply] selects. *)
Theorem report_names_are_the_requested_names
    (v : Validator) (params : gomap) (report : Report) :
  Validate v params = Ok report ->
  NoDup (map fst (results report))
  /\ (forall name,
        In name (map fst (results report)) <-> In name (rulesToApply v params))
  /\ List.length (results report) <= List.length (rulesToApply v params).
Proof.
  intros V. unfold Validate in V.
  destruct (as_string (lookup "api_spec" params)) as [text|]; [|discriminate].
  destruct (parseAPISpec text) as [spec|e|msg]; try discriminate.
  destruct (apply_rules v spec (rulesToApply v params) []) as [found|e|msg]
    eqn:R; try discriminate.
  injection V as <-. simpl.
  destruct (report_facts.apply_rules_Ok _ _ _ _ R) as (ND & Keys & _ & _).
  assert (forall name, In name (map fst found) <-> In name (rulesToApply v params))
    as K by (intros name; rewrite Keys; simpl; tauto).
  split; [apply ND; constructor|]. split; [exact K|].
  rewrite <- (length_map fst found).
  apply NoDup_incl_length; [apply ND; constructor|].
  intros name. apply K.
Qed.

End Reports.



(** X6, on the report for the sample request against the sample registry
    extended by the audit rule. *)
Lemma report_results_are_well_formed_witness :
  well_formed_result
    (failed [path_method_issue "/widgets/{id}" "post" post_message]).
Proof.
  exact (proj2 (proj2 (@report_results_are_well_formed sample_regexp
                         (loader_of (Some widget_post_spec))))
           [audit_rule] rest_only_params _ eq_refl
           "solace_rest_rules" _ eq_refl).
Defined.

(** X7, on a loader that fails. *)
Lemma validate_errors_are_request_level_witness :
  @validator.Validate failing_loader sample_validator sample_params
  = Err "error parsing API spec: yaml: did not find expected key".
Proof.
  apply (proj2 (@validate_errors_are_request_level failing_loader
                  sample_validator sample_params _)).
  right. exists "widgets.yaml", "yaml: did not find expected key".
  repeat split.
Defined.

(** X8, on a request that names the method-path rule twice. *)
Lemma report_names_are_the_requested_names_witness :
  exists report,
    @validator.Validate (loader_of (Some widget_post_spec))
      sample_validator repeated_params = Ok report
    /\ map fst (results report) = ["solace_rest_rules"; "solace_custom_actions"]
    /\ NoDup (map fst (results report)).
Proof.
  eexists. split; [reflexivity|]. split; [reflexivity|].
  exact (proj1 (@report_names_are_the_requested_names
                  (loader_of (Some widget_post_spec))
                  sample_validator repeated_params _ eq_refl)).
Defined.


(** ** The conditions of a JSON rule *)

Module apply_facts.

Section WithRegexp.
Context `{Regexp}.

Import json_rule.

Lemma condition_issues_compiles (spec paths : gomap) (c : Condition) :
  compiles c -> exists found, condition_issues spec paths c = Ok found.
Proof.
  unfold compiles, condition_issues, MustCompile. intros C.
  destruct (String.eqb_spec (Type' c) "path_pattern") as [T|_].
  { destruct (C (or_introl T)) as [re ->]. simpl. eexists; reflexivity. }
  destruct (Type' c =? "method_check").
  { destruct (as_map _); [|eexists; reflexivity].
    destruct (negb _); eexists; reflexivity. }
  destruct (Type' c =? "parameter_check").
  { destruct (as_map _); [|eexists; reflexivity].
    destruct (negb _); eexists; reflexivity. }
  destruct (String.eqb_spec (Type' c) "resource_naming") as [T|_].
  { destruct (C (or_intror T)) as [re ->]. simpl. eexists; reflexivity. }
  destruct (Type' c =? "schema_field"); eexists; reflexivity.
Qed.

Lemma condition_issues_panic (spec paths : gomap) (c : Condition) (e : string) :
  Type' c = "path_pattern" \/ Type' c = "resource_naming" ->
  Compile (Pattern c) = inr e ->
  condition_issues spec paths c = Panic (compile_panic (Pattern c) e).
Proof.
  unfold condition_issues, MustCompile, compile_panic.
  intros [T|T] C; rewrite T, C; reflexivity.
Qed.

Lemma run_conditions_concat (spec paths : gomap) (conditions : list Condition)
    (each : list (list Issue)) :
  Forall2 (fun c found => condition_issues spec paths c = Ok found)
          conditions each ->
  forall acc,
    run_conditions spec paths conditions acc = Ok (acc ++ List.concat each)%list.
Proof.
  induction 1 as [|c found cs fs E _ IH]; intros acc; simpl.
  - now rewrite app_nil_r.
  - rewrite E. simpl. rewrite IH. now rewrite app_assoc.
Qed.

Lemma run_conditions_all (spec paths : gomap) (conditions : list Condition) :
  Forall compiles conditions ->
  exists each,
    Forall2 (fun c found => condition_issues spec paths c = Ok found)
            conditions each.
Proof.
  induction 1 as [|c cs C _ [each IH]]; [exists []; constructor|].
  destruct (condition_issues_compiles spec paths C) as [found E].
  exists (found :: each). now constructor.
Qed.

Lemma run_conditions_first_panic (spec paths : gomap)
    (before : list Condition) :
  forall c after e acc,
    Forall compiles before ->
    Type' c = "path_pattern" \/ Type' c = "resource_naming" ->
    Compile (Pattern c) = inr e ->
    run_conditions spec paths (before ++ c :: after) acc
    = Panic (compile_panic (Pattern c) e).
Proof.
  induction before as [|b rest IH]; intros c after e acc All T C.
  - simpl. now rewrite (condition_issues_panic spec paths c T C).
  - inversion All as [|? ? Cb All']; subst.
    destruct (condition_issues_compiles spec paths Cb) as [found E].
    simpl. rewrite E. simpl. now apply IH.
Qed.

Lemma scan_schemas_step (c : Condition) (name : string) (obj : value)
    (rest : gomap) :
  Format c <> "" ->
  scan_schemas c ((name, obj) :: rest)
  = match field_object (Field c) obj with
    | Some fieldObj =>
        if has_format (Format c) fieldObj then ([], true)
        else ([format_issue c name], true)
    | None => scan_schemas c rest
    end.
Proof.
  intros F. apply String.eqb_neq in F.
  cbn [scan_schemas]. unfold field_object.
  destruct obj; try reflexivity.
  destruct (as_map (lookup "properties" m)) as [props|]; [|reflexivity].
  rewrite F. cbn [negb].
  destruct (has_key (Field c) props) eqn:K.
  - destruct (as_map (lookup (Field c) props)) as [fieldObj|]; [|reflexivity].
    unfold has_format, format_issue.
    destruct (as_string (lookup "format" fieldObj)) as [f|]; [|reflexivity].
    now destruct (f =? Format c).
  - unfold has_key in K. destruct (lookup (Field c) props); [discriminate|].
    reflexivity.
Qed.

(** The scan of the schemas for a condition with a format: the first schema
    that declares the field as an object decides. *)
Lemma scan_schemas_format (c : Condition) (schemas : gomap) :
  Format c <> "" ->
  scan_schemas c schemas
  = match find (declares_object (Field c)) schemas with
    | Some (schemaName, schemaObj) =>
        match field_object (Field c) schemaObj with
        | Some fieldObj =>
            if has_format (Format c) fieldObj then ([], true)
            else ([format_issue c schemaName], true)
        | None => ([], false)
        end
    | None => ([], false)
    end.
Proof.
  intros F. induction schemas as [|[name obj] rest IH]; [reflexivity|].
  rewrite (scan_schemas_step c name obj rest F).
  cbn [find]. unfold declares_object at 1. cbn [snd].
  destruct (field_object (Field c) obj) as [fieldObj|] eqn:FO.
  - now rewrite FO.
  - exact IH.
Qed.

End WithRegexp.

End apply_facts.

Section Conditions.
Context `{Regexp}.

Import json_rule.

(** X10.  [Apply] of a JSON rule panics only while it evaluates a
    path_pattern or resource_naming condition whose pattern does not
    compile.  It returns a result when the rule is disabled, when the spec
    is nil or has no paths mapping, and when every pattern compiles;
    otherwise it panics on the first condition whose pattern does not
    compile, with the panic of [regexp.MustCompile]: the text
    [regexp: Compile(], the pattern as the regexp package quotes it, [): ]
    and the error of [Compile]. *)
Theorem apply_panics_only_on_a_pattern (r : JSONRule) (spec : option gomap) :
  (Enabled r = false
   \/ spec = None
   \/ (exists s, spec = Some s /\ as_map (lookup "paths" s) = None)
   \/ Forall compiles (Conditions r) ->
   exists res, Apply r spec = Ok res)
  /\ forall s paths before c after e,
       Enabled r = true -> spec = Some s ->
       as_map (lookup "paths" s) = Some paths ->
       Conditions r = (before ++ c :: after)%list ->
       Forall compiles before ->
       Type' c = "path_pattern" \/ Type' c = "resource_naming" ->
       Compile (Pattern c) = inr e ->
       Apply r spec = Panic (compile_panic (Pattern c) e).
Proof.
  split.
  - intros Cases. unfold Apply.
    destruct (Enabled r); simpl; [|eexists; reflexivity].
    destruct spec as [s|]; [|eexists; reflexivity].
    destruct (as_map (lookup "paths" s)) as [paths|] eqn:P;
      [|eexists; reflexivity].
    destruct Cases as [F|[F|[(s' & [= <-] & F)|All]]]; try discriminate.
    { rewrite P in F. discriminate. }
    destruct (@apply_facts.run_conditions_all _ s paths _ All) as [each E].
    rewrite (@apply_facts.run_conditions_concat _ s paths _ each E []). simpl.
    eexists; reflexivity.
  - intros s paths before c after e En -> P Cs All T C. unfold Apply.
    rewrite En, P, Cs. simpl.
    now rewrite (@apply_facts.run_conditions_first_panic _ s paths before c
                   after e [] All T C).
Qed.

(** X11.  The issues of a result follow the conditions: when every
    condition of an enabled rule returns its issues, the result carries the
    issues of the first condition, then those of the second, and so on, and
    it is failed when one of the conditions has an issue and passed when
    none has. *)
Theorem issues_follow_the_conditions
    (r : JSONRule) (spec paths : gomap) (each : list (list Issue)) :
  Enabled r = true ->
  as_map (lookup "paths" spec) = Some paths ->
  Forall2 (fun c found => condition_issues spec paths c = Ok found)
          (Conditions r) each ->
  Apply r (Some spec) = Ok (result_of_issues (List.concat each))
  /\ (status_of (Apply r (Some spec)) = Some "failed"
      <-> exists found, In found each /\ found <> [])
  /\ (status_of (Apply r (Some spec)) = Some "passed"
      <-> forall found, In found each -> found = []).
Proof.
  intros En P E.
  assert (Apply r (Some spec) = Ok (result_of_issues (List.concat each))) as A.
  { unfold Apply. rewrite En, P. simpl.
    now rewrite (@apply_facts.run_conditions_concat _ spec paths _ each E []). }
  split; [exact A|]. rewrite A. simpl.
  assert (List.concat each = [] <-> forall found, In found each -> found = []) as Z.
  { clear. induction each as [|f fs IH]; simpl.
    - split; [intros _ x [] | reflexivity].
    - split.
      + intros C. apply app_eq_nil in C. destruct C as [-> C].
        intros x [<-|I]; [reflexivity | now apply IH].
      + intros All. rewrite (All f (or_introl eq_refl)). simpl.
        apply IH. intros x I. apply All. now right. }
  destruct (List.concat each) as [|i l] eqn:C; simpl.
  - split.
    + split; [discriminate|]. intros (found & I & NE).
      destruct NE. now apply (proj1 Z).
    + split; [intros _; now apply Z | reflexivity].
  - split.
    + split; [|reflexivity]. intros _.
      clear - C. induction each as [|f fs IH]; simpl in C; [discriminate|].
      destruct f as [|x f'].
      * destruct (IH C) as (found & I & NE). exists found. split; [now right|auto].
      * exists (x :: f'). split; [now left | discriminate].
    + split; [discriminate|]. intros All.
      assert (i :: l = []) by now apply Z. discriminate.
Qed.

(** X12.  A method_check, parameter_check or schema_field condition emits
    at most one issue.  A path_pattern or resource_naming condition emits
    at most one issue per path: the paths of its issues are, in the order
    of the visit, those of the paths of the spec that it flags, so no path
    of the spec carries two issues of one condition, and every issue
    carries a path of the spec. *)
Theorem condition_issue_bounds
    (spec paths : gomap) (c : Condition) (found : list Issue) :
  condition_issues spec paths c = Ok found ->
  (Type' c = "path_pattern" \/ Type' c = "resource_naming" ->
   (exists flagged : string -> bool,
       map issue_path found = map Some (filter flagged (map fst paths)))
   /\ (NoDup (map fst paths) -> NoDup (map issue_path found))
   /\ List.length found <= List.length paths
   /\ forall issue, In issue found ->
        exists p, issue_path issue = Some p /\ In p (map fst paths))
  /\ (Type' c <> "path_pattern" -> Type' c <> "resource_naming" ->
      List.length found <= 1).
Proof.
  assert (forall (flagged : string -> bool) (f : string * value -> list Issue),
             (forall entry,
                 (flagged (fst entry) = false /\ f entry = [])
                 \/ (flagged (fst entry) = true
                     /\ exists i, f entry = [i]
                                  /\ issue_path i = Some (fst entry))) ->
             map issue_path (flat_map f paths)
             = map Some (filter flagged (map fst paths))) as Loop.
  { intros flagged f Hf. induction paths as [|entry rest IH]; simpl;
      [reflexivity|].
    destruct (Hf entry) as [[-> ->]|(-> & i & -> & Pi)]; simpl;
      [exact IH | now rewrite Pi, IH]. }
  assert (forall flagged : string -> bool,
             map issue_path found = map Some (filter flagged (map fst paths)) ->
             (exists flagged : string -> bool,
                 map issue_path found
                 = map Some (filter flagged (map fst paths)))
             /\ (NoDup (map fst paths) -> NoDup (map issue_path found))
             /\ List.length found <= List.length paths
             /\ forall issue, In issue found ->
                  exists p, issue_path issue = Some p /\ In p (map fst paths))
    as Bounds.
  { intros flagged E. split; [now exists flagged|]. split; [|split].
    - intros ND. rewrite E. apply (NoDup_filter flagged) in ND.
      clear E. induction ND as [|p l NI _ IH]; simpl; [constructor|].
      constructor; [|exact IH].
      intros I. apply in_map_iff in I. destruct I as (q & [= ->] & Iq).
      contradiction.
    - rewrite <- (length_map issue_path found), E, length_map.
      rewrite <- (length_map fst paths). apply filter_length_le.
    - intros issue I. apply (in_map issue_path) in I. rewrite E in I.
      apply in_map_iff in I. destruct I as (p & Ep & Ip).
      apply filter_In in Ip. exists p. split; [now symmetry | apply Ip]. }
  unfold condition_issues, MustCompile.
  destruct (String.eqb_spec (Type' c) "path_pattern") as [T|T1].
  { destruct (Compile (Pattern c)) as [re|e]; simpl; [|discriminate].
    intros [= <-]. split; [|contradiction]. intros _.
    apply (Bounds (fun p => negb (re p))). apply Loop.
    intros [p item]. simpl. destruct (negb (re p)); [right|now left].
    split; [reflexivity|]. eexists. split; reflexivity. }
  destruct (String.eqb_spec (Type' c) "method_check") as [T|T2].
  { intros E. split; [intros [F|F]; congruence|]. intros _ _.
    destruct (as_map _); [destruct (negb _)|]; injection E as <-; simpl; lia. }
  destruct (String.eqb_spec (Type' c) "parameter_check") as [T|T3].
  { intros E. split; [intros [F|F]; congruence|]. intros _ _.
    destruct (as_map _); [destruct (negb _)|]; injection E as <-; simpl; lia. }
  destruct (String.eqb_spec (Type' c) "resource_naming") as [T|T4].
  { destruct (Compile (Pattern c)) as [re|e]; simpl; [|discriminate].
    intros [= <-]. split; [|contradiction]. intros _.
    apply (Bounds (fun p =>
                     match first_violation re (strings.Split p "/") with
                     | Some _ => true
                     | None => false
                     end)).
    apply Loop. intros [p item]. simpl.
    destruct (first_violation re (strings.Split p "/")); [right|now left].
    split; [reflexivity|]. eexists. split; reflexivity. }
  intros E. split; [intros [F|F]; contradiction|]. intros _ _.
  destruct (Type' c =? "schema_field"); injection E as <-; [|simpl; lia].
  unfold schema_field_issues. destruct (locate_schemas spec) as [schemas|];
    [|simpl; lia].
  assert (forall l, fst (scan_schemas c l) = []
                    \/ (exists i, fst (scan_schemas c l) = [i])
                       /\ snd (scan_schemas c l) = true) as Scan.
  { induction l as [|[n o] l IH]; simpl; [now left|].
    repeat match goal with
           | |- context [match ?x with _ => _ end] =>
               match x with
               | scan_schemas _ _ => fail 1
               | _ => destruct x
               end
           end; simpl; auto; right; split; eauto. }
  destruct (Scan schemas) as [Z|[(i & Z) T]];
    destruct (scan_schemas c schemas) as [fs b]; simpl in *; subst.
  - destruct b; simpl; lia.
  - simpl. lia.
Qed.

(** X13.  Once the schemas are located, a schema_field condition without a
    format emits no issue exactly when some schema lists the field among
    its properties, whatever its value; with a format, the first visited
    schema whose property under the field is an object decides: no issue
    if the object carries the format as a string, the format issue naming
    that schema otherwise; schemas where the property is missing or not an
    object are passed over, and if there is none left the field counts as
    not found. *)
Theorem schema_field_outcome (spec : gomap) (c : Condition) (schemas : gomap) :
  locate_schemas spec = Some schemas ->
  (Format c = "" ->
   schema_field_issues spec c
   = if existsb (fun entry => field_declared (Field c) (snd entry)) schemas
     then []
     else [field_issue (Field c) (Message c)])
  /\ (Format c <> "" ->
      schema_field_issues spec c
      = match find (declares_object (Field c)) schemas with
        | Some (schemaName, schemaObj) =>
            match field_object (Field c) schemaObj with
            | Some fieldObj =>
                if has_format (Format c) fieldObj then []
                else [format_issue c schemaName]
            | None => [field_issue (Field c) (Message c)]
            end
        | None => [field_issue (Field c) (Message c)]
        end).
Proof.
  intros L. unfold schema_field_issues. rewrite L. split; intros F.
  - rewrite (@order_facts.scan_schemas_no_format c schemas F).
    now destruct (existsb _ schemas).
  - rewrite (@apply_facts.scan_schemas_format c schemas F).
    destruct (find (declares_object (Field c)) schemas) as [[n o]|];
      [|reflexivity].
    destruct (field_object (Field c) o) as [fo|]; [|reflexivity].
    now destruct (has_format (Format c) fo).
Qed.

End Conditions.

(** X10, on a rule whose second condition has a pattern that does not
    compile. *)
Lemma apply_panics_only_on_a_pattern_witness :
  @json_rule.Apply sample_regexp
    (with_conditions [naming_condition; pattern_condition "("] audit_rule)
    (Some widget_post_spec)
  = Panic "regexp: Compile(`(`): error parsing regexp: missing closing ): `(`".
Proof.
  apply (proj2 (@apply_panics_only_on_a_pattern sample_regexp
                  (with_conditions [naming_condition; pattern_condition "("]
                     audit_rule)
                  (Some widget_post_spec))
           widget_post_spec [("/widgets/{id}", VMap [("post", VMap [])])]
           [naming_condition] (pattern_condition "(") []
           "error parsing regexp: missing closing ): `(`");
    try reflexivity.
  - repeat constructor. intros _. eexists; reflexivity.
  - now left.
Defined.

(** X11, on the rule with the naming and the method condition. *)
Lemma issues_follow_the_conditions_witness :
  @json_rule.Apply sample_regexp plain_rule (Some widget_post_spec)
  = Ok (failed [segment_issue "/widgets/{id}" "{id}" (Message naming_condition);
                path_issue "/widgets/{id}" (Message method_condition)]).
Proof.
  apply (proj1 (@issues_follow_the_conditions sample_regexp plain_rule
                  widget_post_spec
                  [("/widgets/{id}", VMap [("post", VMap [])])]
                  [[segment_issue "/widgets/{id}" "{id}"
                      (Message naming_condition)];
                   [path_issue "/widgets/{id}" (Message method_condition)]]
                  eq_refl eq_refl
                  ltac:(repeat constructor))).
Defined.

(** X12, on the naming condition and the path of a widget. *)
Lemma condition_issue_bounds_witness :
  exists flagged : string -> bool,
    map issue_path
      [segment_issue "/widgets/{id}" "{id}" (Message naming_condition)]
    = map Some (filter flagged ["/widgets/{id}"]).
Proof.
  exact (proj1 (proj1 (@condition_issue_bounds sample_regexp widget_post_spec
                         [("/widgets/{id}", VMap [("post", VMap [])])]
                         naming_condition _ eq_refl)
                  (or_intror eq_refl))).
Defined.

(** X13, on schemas where the first writes createdTime as a string and the
    second as an object with another format. *)
Lemma schema_field_outcome_witness :
  json_rule.schema_field_issues (schemas_spec shorthand_schemas)
    created_time_condition
  = [format_issue created_time_condition "Legacy"].
Proof.
  apply (proj2 (@schema_field_outcome (schemas_spec shorthand_schemas)
                  created_time_condition shorthand_schemas eq_refl)).
  discriminate.
Defined.

(** ** The structural rules and the synthesizer *)

Module structural_facts.

Import strings.

Lemma has_key_existsb {A : Type} (k : string) (m : list (string * A)) :
  has_key k m = existsb (String.eqb k) (map fst m).
Proof.
  unfold has_key. induction m as [|[k' x] m IH]; simpl; [reflexivity|].
  destruct (k =? k'); [reflexivity | exact IH].
Qed.

Lemma flat_map_filter {A B : Type} (keep : A -> bool) (f : A -> B) (l : list A) :
  flat_map (fun x => if keep x then [f x] else []) l = map f (filter keep l).
Proof.
  induction l as [|x l IH]; simpl; [reflexivity|].
  destruct (keep x); simpl; now rewrite IH.
Qed.

Lemma lower_upper_byte (a : ascii) : lower_byte (upper_byte a) = lower_byte a.
Proof. destruct a as [[] [] [] [] [] [] [] []]; reflexivity. Qed.

Lemma lower_lower_byte (a : ascii) : lower_byte (lower_byte a) = lower_byte a.
Proof. destruct a as [[] [] [] [] [] [] [] []]; reflexivity. Qed.

Lemma ToLower_ToUpper (s : string) : ToLower (ToUpper s) = ToLower s.
Proof.
  unfold ToLower, ToUpper. induction s as [|a s IH]; simpl; [reflexivity|].
  now rewrite lower_upper_byte, IH.
Qed.

Lemma ToLower_ToLower (s : string) : ToLower (ToLower s) = ToLower s.
Proof.
  unfold ToLower. induction s as [|a s IH]; simpl; [reflexivity|].
  now rewrite lower_lower_byte, IH.
Qed.

Lemma params_of_app (a b : list string) :
  validator.params_of (a ++ b) = (validator.params_of a ++ validator.params_of b)%list.
Proof.
  induction a as [|x a IH]; simpl; [reflexivity|].
  destruct (validator.braced x); simpl; now rewrite IH.
Qed.

End structural_facts.

(** X14.  The singular-user rule looks at the path keys only: its issues are
    one per path that holds /users/ and does not hold /me/, in the order of
    the visit, whatever the path items are; the spec passes exactly when it
    has no such path. *)
Theorem singular_user_rule_flags_user_paths (spec paths : gomap) :
  as_map (lookup "paths" spec) = Some paths ->
  SolaceSingularUserResourcesRule.Apply (Some spec)
  = Ok (result_of_issues
          (map (fun p => path_issue p users_message)
               (filter user_specific (map fst paths))))
  /\ (SolaceSingularUserResourcesRule.Apply (Some spec) = Ok passed
      <-> forall p, In p (map fst paths) -> user_specific p = false).
Proof.
  intros P.
  assert (flat_map SolaceSingularUserResourcesRule.path_issues paths
          = map (fun p => path_issue p users_message)
                (filter user_specific (map fst paths))) as E.
  { clear. induction paths as [|[p item] rest IH]; simpl; [reflexivity|].
    fold (user_specific p). destruct (user_specific p); simpl; now rewrite IH. }
  unfold SolaceSingularUserResourcesRule.Apply. rewrite P, E.
  split; [reflexivity|].
  destruct (filter user_specific (map fst paths)) as [|q l] eqn:F; simpl.
  - split; [|reflexivity]. intros _ p I.
    destruct (user_specific p) eqn:U; [|reflexivity].
    assert (In p (filter user_specific (map fst paths))) as C
      by (apply filter_In; now split).
    rewrite F in C. contradiction.
  - split; [discriminate|]. intros All. exfalso.
    assert (In q (filter user_specific (map fst paths))) as C
      by (rewrite F; now left).
    apply filter_In in C. destruct C as [I U]. rewrite (All q I) in U.
    discriminate.
Qed.

(** X15.  The custom-actions rule reports the paths that hold /actions/ and
    whose path item is a mapping without the key post, one issue each, in
    the order of the visit.  Only the presence of the key counts, not its
    value, and the key is compared as it is written: post in upper case does
    not count. *)
Theorem custom_actions_rule_wants_a_post_key (spec paths : gomap) :
  as_map (lookup "paths" spec) = Some paths ->
  SolaceCustomActionsRule.Apply (Some spec)
  = Ok (result_of_issues
          (map (fun entry => path_issue (fst entry) custom_message)
               (filter action_without_post paths))).
Proof.
  intros P. unfold SolaceCustomActionsRule.Apply. rewrite P. do 2 f_equal.
  rewrite <- structural_facts.flat_map_filter. apply flat_map_ext.
  intros [p item]. unfold action_without_post. simpl.
  destruct item; try reflexivity.
  now rewrite structural_facts.has_key_existsb.
Qed.

(** X16.  The method-path rule compares method keys without regard to
    case: for a key of ASCII bytes, an operation under POST, Post or post is
    checked alike, and the issue names the method in lower case. *)
Theorem method_keys_are_case_insensitive
    (path method : string) (methodDef : gomap) :
  ascii_only method = true ->
  SolaceRestRules.checkMethodPathConsistency path (strings.ToUpper method) methodDef
  = SolaceRestRules.checkMethodPathConsistency path method methodDef
  /\ SolaceRestRules.checkMethodPathConsistency path (strings.ToLower method)
       methodDef
     = SolaceRestRules.checkMethodPathConsistency path method methodDef
  /\ forall issue,
       SolaceRestRules.checkMethodPathConsistency path method methodDef
       = Some issue ->
       issue_method issue = Some (strings.ToLower method)
       /\ issue_path issue = Some path.
Proof.
  intros _. unfold SolaceRestRules.checkMethodPathConsistency.
  rewrite structural_facts.ToLower_ToUpper, structural_facts.ToLower_ToLower.
  split; [reflexivity|]. split; [reflexivity|].
  intros issue.
  repeat match goal with
         | |- context [if ?b then _ else _] => destruct b
         end; intros E; try discriminate; injection E as <-; now split.
Qed.


(** X18.  A path that ends with a resource has at least one path parameter,
    and its last path parameter is the name inside the braces of its last
    segment. *)
Theorem resource_path_has_a_parameter (urlPath : string) :
  validator.endsWithResource urlPath = true ->
  exists earlier name,
    validator.extractPathParams urlPath = (earlier ++ [name])%list
    /\ wrapped (last_segment urlPath) name.
Proof.
  intros R. apply url_path_facts.endsWithResource_iff in R.
  destruct R as [name W]. unfold validator.extractPathParams.
  unfold last_segment in W.
  pose proof (strings_facts.Split_nonempty urlPath "/"%char) as NE.
  destruct (exists_last NE) as (init & l & E). rewrite E in *.
  rewrite last_last in W.
  exists (validator.params_of init), name.
  split; [|unfold last_segment; rewrite E, last_last; exact W].
  rewrite structural_facts.params_of_app. simpl.
  assert (validator.braced l = true) as B
    by (apply url_path_facts.braced_iff; now exists name).
  rewrite B. now rewrite (url_path_facts.unbrace_wrapped W).
Qed.

(** X14, on the two user paths. *)
Lemma singular_user_rule_flags_user_paths_witness :
  SolaceSingularUserResourcesRule.Apply (Some users_then_orders)
  = Ok (failed [path_issue "/users/{id}" users_message;
                path_issue "/users/{id}/orders" users_message]).
Proof.
  exact (proj1 (@singular_user_rule_flags_user_paths users_then_orders _ eq_refl)).
Defined.

(** X15, on a custom action declared under POST in upper case. *)
Lemma custom_actions_rule_wants_a_post_key_witness :
  SolaceCustomActionsRule.Apply (Some upper_case_action_spec)
  = Ok (failed [path_issue "/jobs/actions/run" custom_message]).
Proof.
  exact (@custom_actions_rule_wants_a_post_key upper_case_action_spec _ eq_refl).
Defined.

(** X16, on the key POST under a resource path. *)
Lemma method_keys_are_case_insensitive_witness :
  issue_method (path_method_issue "/widgets/{id}" "post" post_message)
  = Some (strings.ToLower "POST")
  /\ issue_path (path_method_issue "/widgets/{id}" "post" post_message)
     = Some "/widgets/{id}".
Proof.
  exact (proj2 (proj2 (@method_keys_are_case_insensitive "/widgets/{id}" "POST" []
                         eq_refl))
           _ eq_refl).
Defined.


(** X18, on /widgets/{id}. *)
Lemma resource_path_has_a_parameter_witness :
  exists earlier name,
    validator.extractPathParams "/widgets/{id}" = (earlier ++ [name])%list
    /\ wrapped (last_segment "/widgets/{id}") name.
Proof.
  exact (@resource_path_has_a_parameter "/widgets/{id}" eq_refl).
Defined.

(** ** The transport *)

Module server_facts.

Section Faults.
Context `{SpecLoader}.

Lemma Validate_Err (v : Validator) (params : gomap) (e : string) :
  validator.Validate v params = Err e <->
  match as_string (lookup "api_spec" params) with
  | None => e = "missing or invalid api_spec parameter"
  | Some apiSpec =>
      exists cause,
        parseAPISpec apiSpec = Err cause
        /\ e = "error parsing API spec: " ++ cause
  end.
Proof.
  unfold validator.Validate.
  destruct (as_string (lookup "api_spec" params)) as [text|].
  - destruct (parseAPISpec text) as [spec|cause|msg] eqn:P.
    + pose proof (report_facts.apply_rules_not_err v spec
                    (validator.rulesToApply v params) []) as NE.
      destruct (validator.apply_rules v spec (validator.rulesToApply v params) [])
        as [f|e'|m]; simpl; split; try discriminate;
        try (intros (c & F & _); discriminate).
      now destruct (NE e').
    + split.
      * intros [= <-]. now exists cause.
      * intros (c & [= <-] & ->). reflexivity.
    + split; [discriminate|]. intros (c & F & _). discriminate.
  - split; [intros [= <-]|intros ->]; reflexivity.
Qed.

Lemma ValidateURLPath_Err (v : Validator) (params : gomap) (e : string) :
  validator.ValidateURLPath v params = Err e <->
  match as_string (lookup "url_path" params) with
  | None => e = "missing or invalid url_path parameter"
  | Some urlPath =>
      exists cause,
        parseAPISpec
          (validator.createOpenAPISpec urlPath
             (validator.extractPathParams urlPath)
             (validator.determineHTTPMethods (validator.endsWithResource urlPath)))
        = Err cause
        /\ e = "error validating URL path: error parsing API spec: " ++ cause
  end.
Proof.
  unfold validator.ValidateURLPath.
  destruct (as_string (lookup "url_path" params)) as [urlPath|].
  - unfold validator.URLPathValidator_ValidateURLPath.
    set (spec := validator.createOpenAPISpec _ _ _).
    pose proof (fun e' => Validate_Err v [("api_spec", VStr spec)] e') as VE.
    cbn [lookup as_string] in VE.
    change (("api_spec" =? "api_spec")%string) with true in VE.
    cbn [as_string] in VE.
    destruct (validator.Validate v [("api_spec", VStr spec)]) as [r|e'|m].
    + split; [discriminate|].
      intros (cause & P & _).
      discriminate (proj2 (VE _) (ex_intro _ cause (conj P eq_refl))).
    + destruct (proj1 (VE e') eq_refl) as (cause & P & ->). split.
      * intros [= <-]. now exists cause.
      * intros (c & P' & ->). rewrite P in P'. now injection P' as <-.
    + split; [discriminate|].
      intros (cause & P & _).
      discriminate (proj2 (VE _) (ex_intro _ cause (conj P eq_refl))).
  - split; [intros [= <-]|intros ->]; reflexivity.
Qed.

Lemma processRequest_Err (s : Server) (request : gomap) (e : string) :
  server.processRequest s request = Err e <-> request_fault request e.
Proof.
  unfold server.processRequest, request_fault.
  fold (request_params request).
  destruct (as_string (lookup "method" request)) as [method|].
  2:{ split; [intros [= <-]|intros ->]; reflexivity. }
  destruct (String.eqb_spec method "validate") as [->|N1].
  { rewrite <- (Validate_Err (server_validator s)). split.
    - destruct (validator.Validate (server_validator s) (request_params request));
        cbn [bind]; try discriminate.
      intros [= <-]. left. split; reflexivity.
    - intros [[_ F]|[[F _]|(F & _)]];
        [rewrite F; reflexivity | discriminate | now destruct F]. }
  destruct (String.eqb_spec method "validateURLPath") as [->|N2].
  { rewrite <- (ValidateURLPath_Err (server_validator s)). split.
    - destruct (validator.ValidateURLPath (server_validator s)
                  (request_params request)); cbn [bind]; try discriminate.
      intros [= <-]. right. left. split; reflexivity.
    - intros [[F _]|[[_ F]|(_ & F & _)]];
        [discriminate | rewrite F; reflexivity | now destruct F]. }
  destruct (String.eqb_spec method "getTools") as [->|N3].
  { cbn [bind]. split; [discriminate|].
    intros [[F _]|[[F _]|(_ & _ & F & _)]]; congruence. }
  destruct (String.eqb_spec method "getResources") as [->|N4].
  { cbn [bind]. split; [discriminate|].
    intros [[F _]|[[F _]|(_ & _ & _ & F & _)]]; congruence. }
  cbn [bind]. split.
  - intros [= <-]. right. right. repeat split; assumption.
  - intros [[F _]|[[F _]|(_ & _ & _ & _ & ->)]]; congruence.
Qed.

Lemma processRequest_Ok (s : Server) (request : gomap) (response : Response) :
  server.processRequest s request = Ok response ->
  jsonrpc response = "2.0" /\ id response = lookup "id" request.
Proof.
  unfold server.processRequest.
  destruct (as_string (lookup "method" request)) as [method|]; [|discriminate].
  match goal with |- bind ?c _ = _ -> _ => destruct c end;
    simpl; try discriminate.
  intros [= <-]. now split.
Qed.

End Faults.

End server_facts.

Section Transport.
Context `{SpecLoader}.

(** X19.  The handler answers with an HTTP error only a request that is no
    POST (405) or whose body does not decode (400); every decoded POST is
    answered with status 200, also when the request fails.  It never
    changes the validator. *)
Theorem transport_status_codes
    (s s' : Server) (now : Z) (httpMethod : string) (decoded : gomap + string)
    (r : HTTPResponse) :
  server.handleMCP s now httpMethod decoded = Ok (s', r) ->
  server_validator s' = server_validator s
  /\ ((statusCode r = 405 /\ httpMethod <> "POST"
       /\ body r = PlainText ("Method not allowed" ++ validator.nl))
      \/ (statusCode r = 400 /\ httpMethod = "POST"
          /\ exists err,
               decoded = inr err
               /\ body r = PlainText ("Error parsing request: " ++ err
                                      ++ validator.nl))
      \/ (statusCode r = 200 /\ httpMethod = "POST"
          /\ exists request, decoded = inl request)).
Proof.
  unfold server.handleMCP.
  destruct (String.eqb_spec httpMethod "POST") as [->|N]; cbn [negb].
  - destruct decoded as [request|err].
    + destruct (match as_string (lookup "method" request) with
                | Some method => (method =? "ping")%string
                | None => false
                end).
      * intros [= <- <-]. split; [reflexivity|].
        right. right. repeat split. now exists request.
      * destruct (server.processRequest s request);
          [| |discriminate]; intros [= <- <-]; (split; [reflexivity|]);
          right; right; repeat split; now exists request.
    + intros [= <- <-]. split; [reflexivity|].
      right. left. repeat split. exists err. split; reflexivity.
  - intros [= <- <-]. split; [reflexivity|]. left. now repeat split.
Qed.

(** X20.  A ping is answered by the handler itself: whatever id and params
    the request carries, the answer is the pong with id 1, and the time of
    the last ping becomes now.  No other request changes that time, and
    [processRequest] does not know the method. *)
Theorem ping_is_answered_by_the_transport
    (s : Server) (now : Z) (request : gomap) :
  as_string (lookup "method" request) = Some "ping" ->
  server.handleMCP s now "POST" (inl request)
  = Ok (mkServer (server_validator s) now,
        mkHTTPResponse 200 (Some "application/json") (Pong "2.0" 1 "pong"))
  /\ server.processRequest s request = Err "unknown method: ping"
  /\ forall httpMethod decoded s' r,
       server.handleMCP s now httpMethod decoded = Ok (s', r) ->
       lastPing s' <> lastPing s ->
       httpMethod = "POST"
       /\ exists request',
            decoded = inl request'
            /\ as_string (lookup "method" request') = Some "ping"
            /\ lastPing s' = now.
Proof.
  intros P. split; [|split].
  - unfold server.handleMCP. cbn [negb]. now rewrite P.
  - unfold server.processRequest. now rewrite P.
  - intros httpMethod decoded s' r.
    unfold server.handleMCP.
    destruct (String.eqb_spec httpMethod "POST") as [->|N]; cbn [negb].
    + destruct decoded as [request'|err].
      * destruct (as_string (lookup "method" request')) as [method|] eqn:M.
        -- destruct (String.eqb_spec method "ping") as [->|NP].
           ++ intros [= <- <-] _. split; [reflexivity|].
              exists request'. now repeat split.
           ++ destruct (server.processRequest s request');
                [| |discriminate]; intros [= <- <-] D; now destruct D.
        -- destruct (server.processRequest s request');
             [| |discriminate]; intros [= <- <-] D; now destruct D.
      * intros [= <- <-] D. now destruct D.
    + intros [= <- <-] D. now destruct D.
Qed.

(** X21.  A decoded POST that fails is answered in band: status 200, the
    error envelope with the id of the request, code -32000 and the message
    of the fault after [Error processing request: ], and no Content-Type of
    the handler's own.  The faults are those of the request alone: method
    missing or unknown, parameter missing, or a spec that does not parse.  A
    request that succeeds is answered with its own id. *)
Theorem request_faults_are_answered_in_band
    (s s' : Server) (now : Z) (request : gomap) (r : HTTPResponse) :
  as_string (lookup "method" request) <> Some "ping" ->
  server.handleMCP s now "POST" (inl request) = Ok (s', r) ->
  (forall e, request_fault request e ->
     r = mkHTTPResponse 200 None
           (ErrorBody "2.0" (lookup "id" request) (-32000)
                      ("Error processing request: " ++ e)))
  /\ ((exists e, request_fault request e)
      \/ exists response,
           r = mkHTTPResponse 200 (Some "application/json") (ResultBody response)
           /\ jsonrpc response = "2.0"
           /\ id response = lookup "id" request).
Proof.
  intros NP. unfold server.handleMCP. cbn [negb].
  replace (match as_string (lookup "method" request) with
           | Some method => (method =? "ping")%string
           | None => false
           end) with false.
  2:{ destruct (as_string (lookup "method" request)) as [method|];
        [|reflexivity].
      destruct (String.eqb_spec method "ping") as [->|]; [|reflexivity].
      now destruct NP. }
  destruct (server.processRequest s request) as [response|e'|m] eqn:E;
    [| |discriminate]; intros [= <- <-].
  - split.
    + intros e F. apply (proj2 (@server_facts.processRequest_Err _ s request e)) in F.
      congruence.
    + right. exists response. split; [reflexivity|].
      exact (@server_facts.processRequest_Ok _ s request response E).
  - split.
    + intros e F. apply (proj2 (@server_facts.processRequest_Err _ s request e)) in F.
      rewrite E in F. now injection F as <-.
    + left. exists e'.
      exact (proj1 (@server_facts.processRequest_Err _ s request e') E).
Qed.

End Transport.

Lemma transport_status_codes_witness :
  server_validator sample_server = server_validator sample_server
  /\ ((statusCode (server.http_Error "Method not allowed" 405) = 405
       /\ "GET" <> "POST"
       /\ body (server.http_Error "Method not allowed" 405)
          = PlainText ("Method not allowed" ++ validator.nl))
      \/ (statusCode (server.http_Error "Method not allowed" 405) = 400
          /\ "GET" = "POST"
          /\ exists err,
               inl ping_request = inr err
               /\ body (server.http_Error "Method not allowed" 405)
                  = PlainText ("Error parsing request: " ++ err
                               ++ validator.nl))
      \/ (statusCode (server.http_Error "Method not allowed" 405) = 200
          /\ "GET" = "POST"
          /\ exists request, @inl gomap string ping_request = inl request)).
Proof.
  exact (@transport_status_codes (loader_of (Some widgets_spec))
           sample_server sample_server 5 "GET" (inl ping_request) _ eq_refl).
Defined.

Lemma ping_is_answered_by_the_transport_witness :
  @server.handleMCP (loader_of (Some widgets_spec)) sample_server 5 "POST"
    (inl ping_request)
  = Ok (mkServer (server_validator sample_server) 5,
        mkHTTPResponse 200 (Some "application/json") (Pong "2.0" 1 "pong")).
Proof.
  exact (proj1 (@ping_is_answered_by_the_transport
                  (loader_of (Some widgets_spec)) sample_server 5 ping_request
                  eq_refl)).
Defined.

Lemma request_faults_are_answered_in_band_witness :
  (exists e,
     @request_fault (loader_of (Some widgets_spec)) bare_validate_request e)
  \/ exists response,
       mkHTTPResponse 200 None
         (ErrorBody "2.0" (Some (VInt 7)) (-32000)
            "Error processing request: missing or invalid api_spec parameter")
       = mkHTTPResponse 200 (Some "application/json") (ResultBody response)
       /\ jsonrpc response = "2.0"
       /\ id response = lookup "id" bare_validate_request.
Proof.
  exact (proj2 (@request_faults_are_answered_in_band
                  (loader_of (Some widgets_spec)) sample_server sample_server 5
                  bare_validate_request _ ltac:(discriminate) eq_refl)).
Defined.
